(** * fbs-plan: league-fixture planning page (src/app/bfv/page.tsx)

    A shallow embedding of the calendar parser, the home/away classifier,
    the availability engine and the book/undo reconciler of the BFV page,
    followed by the properties of the specification stated over it.

    Conventions.
    - A JavaScript string is the list of its UTF-16 code units ([JsString]).
    - A [Date] is its time value, milliseconds since the epoch; the ISO
      strings stored in [start_at]/[end_at] stand for the instant that
      [new Date(...)] reads back from them.
    - [toLowerCase], [toUpperCase] and [normalize("NFKD")] are the host's;
      they are tabulated here on U+0000..U+00FF (Basic Latin and Latin-1
      Supplement), code units above that range pass through unchanged.
    - A JS object used as a dictionary is the [gmap] of its own properties,
      read through [Object.prototype] ([obj_get]). *)

From Stdlib Require Import ZArith List Bool Ascii String Lia.
From stdpp Require Import base option list gmap.

Local Open Scope Z_scope.

(** ** Strings *)

Definition JsString := list Z.

Definition js (s : string) : JsString :=
  map (fun a => Z.of_N (N_of_ascii a)) (list_ascii_of_string s).
Arguments js _%_string.

(** A value used as a condition: the empty string is falsy. *)
Definition nonempty (s : JsString) : bool :=
  match s with [] => false | _ => true end.

Definition str_eqb (a b : JsString) : bool := bool_decide (a = b).

(** [s.startsWith(p)] *)
Fixpoint startsWith (s p : JsString) {struct p} : bool :=
  match p, s with
  | [], _ => true
  | _ :: _, [] => false
  | d :: p', c :: s' => (c =? d) && startsWith s' p'
  end.

(** [s.includes(p)] *)
Fixpoint includes (s p : JsString) : bool :=
  startsWith s p ||
  match s with
  | [] => false
  | _ :: s' => includes s' p
  end.

(** [s.slice(n)] for a non-negative [n]. *)
Definition slice_from (n : nat) (s : JsString) : JsString := drop n s.

(** [s.split(sep)] for a non-empty separator.  [skip] counts the code
    units of a separator occurrence that are still to be passed over; the
    head of the result is the piece being collected. *)
Fixpoint split_aux (sep : JsString) (skip : nat) (s : JsString) : list JsString :=
  match s with
  | [] => [[]]
  | c :: r =>
      match skip with
      | S k => split_aux sep k r
      | O =>
          if startsWith s sep then [] :: split_aux sep (length sep - 1)%nat r
          else match split_aux sep 0 r with
               | p :: ps => (c :: p) :: ps
               | [] => [[c]]
               end
      end
  end.

Definition split (sep s : JsString) : list JsString := split_aux sep 0 s.

(** [parts.join(sep)] *)
Fixpoint join (sep : JsString) (parts : list JsString) : JsString :=
  match parts with
  | [] => []
  | [p] => p
  | p :: ps => p ++ sep ++ join sep ps
  end.

(** WhiteSpace and LineTerminator code units: what [\s] matches and what
    [trim], [trimStart] remove. *)
Definition is_ws (c : Z) : bool :=
  ((9 <=? c) && (c <=? 13)) || (c =? 32) || (c =? 160) || (c =? 5760)
  || ((8192 <=? c) && (c <=? 8202)) || (c =? 8232) || (c =? 8233)
  || (c =? 8239) || (c =? 8287) || (c =? 12288) || (c =? 65279).

(** LineTerminator code units: what [.] does not match. *)
Definition is_line_term (c : Z) : bool :=
  (c =? 10) || (c =? 13) || (c =? 8232) || (c =? 8233).

Fixpoint trimStart (s : JsString) : JsString :=
  match s with
  | c :: r => if is_ws c then trimStart r else s
  | [] => []
  end.

Definition trimEnd (s : JsString) : JsString := rev (trimStart (rev s)).

Definition trim (s : JsString) : JsString := trimEnd (trimStart s).

(** Host case mappings on U+0000..U+00FF. *)
Definition lower_unit (c : Z) : Z :=
  if (65 <=? c) && (c <=? 90) then c + 32
  else if (192 <=? c) && (c <=? 222) && negb (c =? 215) then c + 32
  else c.

Definition toLowerCase (s : JsString) : JsString := map lower_unit s.

Definition upper_unit (c : Z) : JsString :=
  if (97 <=? c) && (c <=? 122) then [c - 32]
  else if (224 <=? c) && (c <=? 254) && negb (c =? 247) then [c - 32]
  else if c =? 223 then [83; 83]
  else if c =? 255 then [376]
  else if c =? 181 then [924]
  else [c].

Definition toUpperCase (s : JsString) : JsString := concat (map upper_unit s).

(** Compatibility decomposition of one code unit of U+0000..U+00FF. *)
Definition accent_row (base : Z) (k : Z) : JsString :=
  (* the marks of the rows A/E/I/O/U: grave, acute, circumflex, tilde,
     diaeresis, ring *)
  [base; match k with
         | 0 => 768 | 1 => 769 | 2 => 770 | 3 => 771 | 4 => 776 | _ => 778
         end].

Definition nfkd_upper (c : Z) : option JsString :=
  if (192 <=? c) && (c <=? 197) then Some (accent_row 65 (c - 192))
  else if c =? 199 then Some [67; 807]
  else if (200 <=? c) && (c <=? 203) then
    Some (accent_row 69 (if c =? 203 then 4 else c - 200))
  else if (204 <=? c) && (c <=? 207) then
    Some (accent_row 73 (if c =? 207 then 4 else c - 204))
  else if c =? 209 then Some [78; 771]
  else if (210 <=? c) && (c <=? 214) then Some (accent_row 79 (c - 210))
  else if (217 <=? c) && (c <=? 220) then
    Some (accent_row 85 (if c =? 220 then 4 else c - 217))
  else if c =? 221 then Some [89; 769]
  else None.

Definition nfkd_unit (c : Z) : JsString :=
  match c with
  | 160 => [32]
  | 168 => [32; 776]
  | 170 => [97]
  | 175 => [32; 772]
  | 178 => [50]
  | 179 => [51]
  | 180 => [32; 769]
  | 181 => [956]
  | 184 => [32; 807]
  | 185 => [49]
  | 186 => [111]
  | 188 => [49; 8260; 52]
  | 189 => [49; 8260; 50]
  | 190 => [51; 8260; 52]
  | 255 => [121; 776]
  | _ =>
      match nfkd_upper c with
      | Some d => d
      | None =>
          match nfkd_upper (c - 32) with
          | Some (b :: m) => if (224 <=? c) && (c <=? 253) then (b + 32) :: m else [c]
          | _ => [c]
          end
      end
  end.

Definition normalizeNFKD (s : JsString) : JsString := concat (map nfkd_unit s).

(** [s.replace(/<class>/g, rep)] for a one-code-unit character class. *)
Definition replace_units (cls : Z -> bool) (rep : JsString) (s : JsString) : JsString :=
  concat (map (fun c => if cls c then rep else [c]) s).

(** [s.replace(/<class>+/g, rep)]: every maximal run of the class becomes
    one copy of [rep].  [in_run] tells that the previous unit was in the
    class. *)
Fixpoint replace_runs_aux (cls : Z -> bool) (rep : JsString) (in_run : bool)
    (s : JsString) : JsString :=
  match s with
  | [] => []
  | c :: r =>
      if cls c then
        (if in_run then [] else rep) ++ replace_runs_aux cls rep true r
      else c :: replace_runs_aux cls rep false r
  end.

Definition replace_runs (cls : Z -> bool) (rep : JsString) (s : JsString) : JsString :=
  replace_runs_aux cls rep false s.

Definition is_digit (c : Z) : bool := (48 <=? c) && (c <=? 57).
Definition is_lower_alnum (c : Z) : bool :=
  ((97 <=? c) && (c <=? 122)) || is_digit c.
Definition is_combining_mark (c : Z) : bool := (768 <=? c) && (c <=? 879).

(** ** Data model (the page's types) *)

Inductive PitchType := GROSSFELD | KOMPAKT.

Record Pitch := { p_id : JsString; p_name : JsString; p_type : PitchType }.

Record Team := { t_id : JsString; t_name : JsString; t_age_u : Z }.

Record BfvTeam := {
  bt_id : JsString;
  bt_club_id : JsString;
  bt_name : JsString;
  bt_age_u : option Z;
  bt_ics_url : option JsString;
  bt_home_only : option bool
}.

Record Booking := {
  b_id : JsString;
  b_start_at : Z;
  b_end_at : Z;
  b_status : JsString;
  b_note : option JsString;
  b_team_id : JsString;
  b_pitch_id : JsString;
  b_created_by : option JsString
}.

Record IcsGame := {
  g_uid : JsString;
  g_summary : JsString;
  g_start : Z;
  g_end : Z;
  g_location : option JsString;
  g_isHome : option bool          (* true / false / unknown *)
}.

(** ** Calendar parser *)

(** [raw.replace(/\r\n/g, "\n")] *)
Fixpoint replaceCRLF (s : JsString) : JsString :=
  match s with
  | [] => []
  | c :: r =>
      match r with
      | d :: r' =>
          if (c =? 13) && (d =? 10) then 10 :: replaceCRLF r'
          else c :: replaceCRLF r
      | [] => [c]
      end
  end.

(** [/^[ \t]/.test(line)] *)
Definition starts_hws (line : JsString) : bool :=
  match line with
  | c :: _ => (c =? 32) || (c =? 9)
  | [] => false
  end.

(** [out[out.length - 1] += x] on a non-empty [out]. *)
Definition append_to_last (out : list JsString) (x : JsString) : list JsString :=
  match out with
  | [] => []
  | _ => removelast out ++ [List.last out [] ++ x]
  end.

(** Body of the loop of [unfoldIcsLines]. *)
Definition unfold_step (out : list JsString) (line : JsString) : list JsString :=
  if starts_hws line && negb (Nat.eqb (length out) 0)
  then append_to_last out (trimStart line)
  else out ++ [line].

Definition unfoldLines (lines : list JsString) : list JsString :=
  fold_left unfold_step lines [].

Definition unfoldIcsLines (raw : JsString) : list JsString :=
  unfoldLines (split [10] (replaceCRLF raw)).

(** *** Time values

    [Date.UTC(Y, Mo - 1, D, H, Mi, S)] after ECMAScript's MakeDay, MakeTime
    and MakeDate; [month] is zero-based and may lie outside 0..11. *)

Definition msPerDay : Z := 86400000.

(** Day number (days since 1970-01-01) of the first day of the zero-based
    month [mn] (0..11) of the proleptic Gregorian year [ym]. *)
Definition day_of_month_start (ym mn : Z) : Z :=
  let y := if mn <? 2 then ym - 1 else ym in
  let era := y / 400 in
  let yoe := y - era * 400 in
  let mp := if mn <? 2 then mn + 10 else mn - 2 in
  let doy := (153 * mp + 2) / 5 in
  let doe := yoe * 365 + yoe / 4 - yoe / 100 + doy in
  era * 146097 + doe - 719468.

Definition MakeDay (year month date : Z) : Z :=
  let ym := year + month / 12 in
  let mn := month mod 12 in
  day_of_month_start ym mn + date - 1.

Definition MakeTime (h mi s : Z) : Z := h * 3600000 + mi * 60000 + s * 1000.

(** A year argument in 0..99 means 1900 + year, both for [Date.UTC] and
    for the multi-argument [Date] constructor. *)
Definition full_year (y : Z) : Z :=
  if (0 <=? y) && (y <=? 99) then 1900 + y else y.

Definition Date_UTC (y mo d h mi s : Z) : Z :=
  MakeDay (full_year y) mo d * msPerDay + MakeTime h mi s.

(** [new Date(y, mo, d, h, mi, s)]: the same civil fields read in the
    host's local time zone; [tza t] is the zone's offset from UTC, in
    milliseconds, for the local time value [t]. *)
Definition Date_local (tza : Z -> Z) (y mo d h mi s : Z) : Z :=
  let t := Date_UTC y mo d h mi s in
  t - tza t.

(** [+"0123"]: the number written by a run of decimal digits. *)
Definition digits_value (ds : JsString) : Z :=
  fold_left (fun acc c => acc * 10 + (c - 48)) ds 0.

(** [parseDt]: [/^(\d{4})(\d{2})(\d{2})T(\d{2})(\d{2})(\d{2})(Z)?$/]. *)
Definition parseDt (tza : Z -> Z) (v : JsString) : option Z :=
  let Y := take 4 v in
  let Mo := take 2 (drop 4 v) in
  let D := take 2 (drop 6 v) in
  let T := take 1 (drop 8 v) in
  let H := take 2 (drop 9 v) in
  let Mi := take 2 (drop 11 v) in
  let S := take 2 (drop 13 v) in
  let z := drop 15 v in
  if (Nat.leb 15 (length v))
     && forallb is_digit (Y ++ Mo ++ D ++ H ++ Mi ++ S)
     && str_eqb T (js "T")
     && (str_eqb z [] || str_eqb z (js "Z"))
  then
    if nonempty z
    then Some (Date_UTC (digits_value Y) (digits_value Mo - 1) (digits_value D)
                        (digits_value H) (digits_value Mi) (digits_value S))
    else Some (Date_local tza (digits_value Y) (digits_value Mo - 1) (digits_value D)
                          (digits_value H) (digits_value Mi) (digits_value S))
  else None.

(** The variables of the loop of [parseIcs]. *)
Record ParseState := {
  ps_games : list IcsGame;
  ps_inEvent : bool;
  ps_uid : JsString;
  ps_summary : JsString;
  ps_location : JsString;
  ps_dtStart : option Z;
  ps_dtEnd : option Z
}.

Definition parse_init : ParseState :=
  {| ps_games := []; ps_inEvent := false; ps_uid := []; ps_summary := [];
     ps_location := []; ps_dtStart := None; ps_dtEnd := None |}.

(** The record pushed at [END:VEVENT] when
    [inEvent && uid && summary && dtStart && dtEnd]. *)
Definition emit (st : ParseState) : option IcsGame :=
  match ps_dtStart st, ps_dtEnd st with
  | Some s, Some e =>
      if ps_inEvent st && nonempty (ps_uid st) && nonempty (ps_summary st)
      then Some {| g_uid := ps_uid st; g_summary := ps_summary st;
                   g_start := s; g_end := e;
                   g_location := if nonempty (ps_location st)
                                 then Some (ps_location st) else None;
                   g_isHome := None |}
      else None
  | _, _ => None
  end.

(** [line.split(":").slice(1).join(":").trim()] *)
Definition value_after_colon (line : JsString) : JsString :=
  trim (join (js ":") (drop 1 (split (js ":") line))).

(** Body of the loop of [parseIcs]. *)
Definition parse_step (tza : Z -> Z) (st : ParseState) (line : JsString) : ParseState :=
  if startsWith line (js "BEGIN:VEVENT") then
    {| ps_games := ps_games st; ps_inEvent := true; ps_uid := []; ps_summary := [];
       ps_location := []; ps_dtStart := None; ps_dtEnd := None |}
  else if startsWith line (js "END:VEVENT") then
    {| ps_games := match emit st with
                   | Some g => ps_games st ++ [g]
                   | None => ps_games st
                   end;
       ps_inEvent := false; ps_uid := ps_uid st; ps_summary := ps_summary st;
       ps_location := ps_location st; ps_dtStart := ps_dtStart st;
       ps_dtEnd := ps_dtEnd st |}
  else if negb (ps_inEvent st) then st
  else if startsWith line (js "UID:") then
    {| ps_games := ps_games st; ps_inEvent := ps_inEvent st;
       ps_uid := trim (slice_from 4 line); ps_summary := ps_summary st;
       ps_location := ps_location st; ps_dtStart := ps_dtStart st;
       ps_dtEnd := ps_dtEnd st |}
  else if startsWith line (js "SUMMARY:") then
    {| ps_games := ps_games st; ps_inEvent := ps_inEvent st;
       ps_uid := ps_uid st; ps_summary := trim (slice_from 8 line);
       ps_location := ps_location st; ps_dtStart := ps_dtStart st;
       ps_dtEnd := ps_dtEnd st |}
  else if startsWith line (js "LOCATION:") then
    {| ps_games := ps_games st; ps_inEvent := ps_inEvent st;
       ps_uid := ps_uid st; ps_summary := ps_summary st;
       ps_location := trim (slice_from 9 line); ps_dtStart := ps_dtStart st;
       ps_dtEnd := ps_dtEnd st |}
  else if startsWith line (js "DTSTART") then
    {| ps_games := ps_games st; ps_inEvent := ps_inEvent st;
       ps_uid := ps_uid st; ps_summary := ps_summary st;
       ps_location := ps_location st;
       ps_dtStart := parseDt tza (value_after_colon line);
       ps_dtEnd := ps_dtEnd st |}
  else if startsWith line (js "DTEND") then
    {| ps_games := ps_games st; ps_inEvent := ps_inEvent st;
       ps_uid := ps_uid st; ps_summary := ps_summary st;
       ps_location := ps_location st; ps_dtStart := ps_dtStart st;
       ps_dtEnd := parseDt tza (value_after_colon line) |}
  else st.

Definition parseLines (tza : Z -> Z) (lines : list JsString) : list IcsGame :=
  ps_games (fold_left (parse_step tza) lines parse_init).

Definition parseIcs (tza : Z -> Z) (icsText : JsString) : list IcsGame :=
  parseLines tza (unfoldIcsLines icsText).

(** The two record markers, and a record with identifier and summary. *)
Definition is_begin (line : JsString) : bool := startsWith line (js "BEGIN:VEVENT").
Definition is_end (line : JsString) : bool := startsWith line (js "END:VEVENT").


(** ** Fixture classifier *)

(** [normalizeForMatch], one definition per call of the chain. *)
Definition strip_combining (s : JsString) : JsString :=
  replace_units is_combining_mark [] s.

Definition replace_umlauts (s : JsString) : JsString :=
  replace_units (Z.eqb 223) (js "ss")
    (replace_units (Z.eqb 252) (js "ue")
       (replace_units (Z.eqb 246) (js "oe")
          (replace_units (Z.eqb 228) (js "ae") s))).

Definition normalizeForMatch (s : JsString) : JsString :=
  trim
    (replace_runs is_ws (js " ")
       (replace_runs (fun c => negb (is_lower_alnum c)) (js " ")
          (replace_umlauts
             (strip_combining
                (normalizeNFKD (toLowerCase s)))))).

Definition STOPWORDS : list JsString :=
  [js "fc"; js "tsv"; js "sv"; js "sc"; js "sg"; js "jfg"; js "ev"; js "e";
   js "v"; js "muenchen"; js "munchen"; js "muench"; js "m"; js "ii";
   js "iii"; js "iv"; js "i"; js "u"; js "junioren"; js "juniorinnen"].

Definition mem_str (w : JsString) (l : list JsString) : bool :=
  existsb (str_eqb w) l.

(** [/^u\d{1,2}$/.test(w)] *)
Definition is_age_token (w : JsString) : bool :=
  match w with
  | u :: ds =>
      (u =? 117) && forallb is_digit ds
      && (Nat.leb 1 (length ds)) && (Nat.leb (length ds) 2)
  | [] => false
  end.

Definition keep_token (w : JsString) : bool :=
  nonempty w && negb (mem_str w STOPWORDS) && negb (is_age_token w)
  && negb (Nat.ltb (length w) 3).

(** [Array.from(new Set(tokens))]: first occurrences, in order. *)
Fixpoint dedupe (seen : list JsString) (l : list JsString) : list JsString :=
  match l with
  | [] => []
  | w :: r => if mem_str w seen then dedupe seen r else w :: dedupe (w :: seen) r
  end.

Definition buildMatchTokens (names : list JsString) : list JsString :=
  dedupe []
    (concat (map (fun n => List.filter keep_token
                              (split (js " ") (normalizeForMatch n))) names)).

Definition is_dash (c : Z) : bool := (c =? 45) || (c =? 8211).

(** The last [teamPart.match] of [splitHomeAway], giving its two groups:
    a lazy run of any units, white space, a hyphen or en dash, white
    space, a greedy run of any units, anchored at both ends.
    [pre] is the text taken so far by the lazy first group, which grows by
    one unit (never a line terminator) each time no match starts here.  A
    match starts here when the white space at this point is followed by a
    dash and what follows the white space after the dash runs to the end of
    the string without a line terminator. *)
Fixpoint dash_regex (pre : JsString) (s : JsString) : option (JsString * JsString) :=
  let here :=
    match trimStart s with
    | c :: r =>
        if is_dash c && forallb (fun x => negb (is_line_term x)) (trimStart r)
        then Some (pre, trimStart r) else None
    | [] => None
    end in
  match here with
  | Some m => Some m
  | None =>
      match s with
      | c :: r => if is_line_term c then None else dash_regex (pre ++ [c]) r
      | [] => None
      end
  end.

(** [const [l, r] = teamPart.split(sep); if (l && r) return {...}] *)
Definition sep_pair (sep teamPart : JsString) : option (JsString * JsString) :=
  match split sep teamPart with
  | l :: r :: _ =>
      if nonempty l && nonempty r then Some (trim l, trim r) else None
  | _ => None
  end.

Definition EN_DASH_SEP : JsString := [32; 8211; 32].

Definition splitHomeAway (summary : JsString) : option (JsString * JsString) :=
  let first := hd [] (split (js ",") summary) in
  let teamPart := if nonempty first then first else summary in
  match (if includes teamPart (js " - ") then sep_pair (js " - ") teamPart else None) with
  | Some lr => Some lr
  | None =>
      match (if includes teamPart EN_DASH_SEP then sep_pair EN_DASH_SEP teamPart else None) with
      | Some lr => Some lr
      | None =>
          match dash_regex [] teamPart with
          | Some (m1, m2) =>
              if nonempty m1 && nonempty m2 then Some (trim m1, trim m2) else None
          | None => None
          end
      end
  end.

(** [tokens.length] used as a condition. *)
Definition has_tokens (tokens : list JsString) : bool :=
  negb (Nat.eqb (length tokens) 0).

(** [matchSide] of [loadGames]. *)
Definition matchSide (tokens : list JsString) (s : JsString) : bool :=
  let norm := normalizeForMatch s in
  if has_tokens tokens then existsb (fun t => includes norm t) tokens else false.

(** The [isHome] computed for one parsed game in [loadGames]. *)
Definition classify (tokens : list JsString) (g : IcsGame) : option bool :=
  let locNorm := normalizeForMatch (default [] (g_location g)) in
  match splitHomeAway (g_summary g) with
  | Some (l, r) =>
      let leftMatch := matchSide tokens l in
      let rightMatch := matchSide tokens r in
      if leftMatch && negb rightMatch then Some true
      else if rightMatch && negb leftMatch then Some false
      else if leftMatch && rightMatch then Some true
      else None
  | None =>
      if has_tokens tokens && existsb (fun t => includes locNorm t) tokens
      then Some true else None
  end.

Definition classifyGame (tokens : list JsString) (g : IcsGame) : IcsGame :=
  {| g_uid := g_uid g; g_summary := g_summary g; g_start := g_start g;
     g_end := g_end g; g_location := g_location g;
     g_isHome := classify tokens g |}.

(** ** Fixture tag *)

(** Canonicalize of a case-insensitive regular expression without the
    unicode flag. *)
Definition canonicalize (c : Z) : Z :=
  match upper_unit c with
  | [u] => if (128 <=? c) && (u <? 128) then c else u
  | _ => c
  end.

Fixpoint startsWith_ci (s p : JsString) {struct p} : bool :=
  match p, s with
  | [], _ => true
  | _ :: _, [] => false
  | d :: p', c :: s' => (canonicalize c =? canonicalize d) && startsWith_ci s' p'
  end.

Definition TAG_OPEN : JsString := js "[BFV_UID:".
Definition RBRACKET : Z := 93.

(** The longest prefix without "]". *)
Fixpoint until_rbracket (s : JsString) : JsString :=
  match s with
  | c :: r => if c =? RBRACKET then [] else c :: until_rbracket r
  | [] => []
  end.

(** A match of [/\[BFV_UID:([^\]]+)\]/i] starting at the head of [s]. *)
Definition tag_here (s : JsString) : option JsString :=
  if startsWith_ci s TAG_OPEN then
    let rest := drop (length TAG_OPEN) s in
    let cap := until_rbracket rest in
    match drop (length cap) rest with
    | c :: _ => if nonempty cap && (c =? RBRACKET) then Some cap else None
    | [] => None
    end
  else None.

(** The first match of the tag pattern in [s], left to right. *)
Fixpoint first_tag (s : JsString) : option JsString :=
  match tag_here s with
  | Some cap => Some cap
  | None => match s with
            | _ :: r => first_tag r
            | [] => None
            end
  end.

Definition findBfvUid (note : option JsString) : option JsString :=
  match note with
  | Some n => if nonempty n then first_tag n else None
  | None => None
  end.

(** [`[BFV] ${game.summary}\n[BFV_UID:${game.uid}]`] *)
Definition make_note (game : IcsGame) : JsString :=
  js "[BFV] " ++ g_summary game ++ [10] ++ js "[BFV_UID:" ++ g_uid game ++ js "]".

(** ** Availability engine *)

Definition BLOCKING_STATUSES : list JsString := [js "REQUESTED"; js "APPROVED"].

Definition overlaps (aStart aEnd bStart bEnd : Z) : bool :=
  (aStart <? bEnd) && (bStart <? aEnd).

Definition pitch_type_eqb (a b : PitchType) : bool :=
  match a, b with
  | GROSSFELD, GROSSFELD | KOMPAKT, KOMPAKT => true
  | _, _ => false
  end.

Definition eligible_from_U14 (p : Pitch) : bool :=
  let n := toLowerCase (p_name p) in
  pitch_type_eqb (p_type p) GROSSFELD
  && (includes n (js "mitte") || includes n (js "rechts")).

Definition allowedPitchesForAge (pitches : list Pitch) (ageU : option Z) : list Pitch :=
  match ageU with
  | Some a => if 14 <=? a then List.filter eligible_from_U14 pitches else pitches
  | None => pitches
  end.

Definition is_blocking (b : Booking) : bool :=
  mem_str (toUpperCase (b_status b)) BLOCKING_STATUSES.

Definition collides (gStart gEnd : Z) (blockingBookings : list Booking) (p : Pitch) : bool :=
  existsb (fun b =>
             if negb (str_eqb (b_pitch_id b) (p_id p)) then false
             else overlaps gStart gEnd (b_start_at b) (b_end_at b))
          blockingBookings.

Definition getAvailablePitches (pitches : list Pitch) (ageU : option Z)
    (game : IcsGame) (bookingsList : list Booking) : list Pitch :=
  let candidates := allowedPitchesForAge pitches ageU in
  let blockingBookings := List.filter is_blocking bookingsList in
  List.filter (fun p => negb (collides (g_start game) (g_end game) blockingBookings p))
              candidates.

(** ** Dictionaries

    [bookedMap], [bookedPitchByUid], [selectedPitchByUid] and the locals
    [uidToBookingId], [uidToPitchId] and [defaults] are plain objects made
    by an object literal, so their prototype is [Object.prototype]: a read
    of a key that the object does not own finds the prototype's member of
    that name. *)

(** What a read can give: a string that was stored, or the member [name]
    of [Object.prototype] (a built-in function; under "__proto__" the
    prototype object itself). *)
Inductive JsValue :=
| VStr (s : JsString)
| VMember (name : JsString).

(** The own properties of a dictionary. *)
Abbreviation JsObject := (gmap JsString JsValue).

(** The property names of [Object.prototype] (ECMAScript, Annex B
    included). *)
Definition OBJECT_PROTOTYPE : list JsString :=
  [js "constructor"; js "__defineGetter__"; js "__defineSetter__";
   js "hasOwnProperty"; js "__lookupGetter__"; js "__lookupSetter__";
   js "isPrototypeOf"; js "propertyIsEnumerable"; js "toString";
   js "valueOf"; js "__proto__"; js "toLocaleString"].

Definition PROTO : JsString := js "__proto__".

(** What a read under [k] finds in the prototype: its member of that
    name, else undefined ([None]). *)
Definition inherited (k : JsString) : option JsValue :=
  if mem_str k OBJECT_PROTOTYPE then Some (VMember k) else None.

(** [o[k]]: the own property, else what the prototype has. *)
Definition obj_get (o : JsObject) (k : JsString) : option JsValue :=
  match o !! k with
  | Some v => Some v
  | None => inherited k
  end.

(** [o[k] = v]. An own property is written or created, except under
    "__proto__" on an object that does not own that key: there the
    inherited setter runs, which takes an object or null as the new
    prototype and ignores a string; given the prototype object itself it
    leaves the object as it is. (The page assigns under a key what it has
    read under the same key, so the setter never gets a function.) *)
Definition obj_assign (o : JsObject) (k : JsString) (v : JsValue) : JsObject :=
  match o !! k with
  | Some _ => <[k := v]> o
  | None => if str_eqb k PROTO then o else <[k := v]> o
  end.

(** [{ ...o, [k]: v }] defines an own property whatever the key:
    [<[k := v]> o].  [{ ...prev, ...defaults }] is [defaults ∪ prev], and
    [delete copy[k]] on a copy of [o] is [delete k o]. *)

(** A value used as a condition. *)
Definition truthy (v : JsValue) : bool :=
  match v with
  | VStr s => nonempty s
  | VMember _ => true
  end.

(** A dictionary entry used as a condition: undefined is falsy. *)
Definition truthy_entry (o : option JsValue) : bool :=
  match o with
  | Some v => truthy v
  | None => false
  end.

(** The text of a value inside a template string, as the store's client
    builds its filter. The text of a built-in function is the engine's;
    this is V8's. *)
Definition value_text (v : JsValue) : JsString :=
  match v with
  | VStr s => s
  | VMember m =>
      if str_eqb m PROTO then js "[object Object]"
      else js "function "
           ++ (if str_eqb m (js "constructor") then js "Object" else m)
           ++ js "() { [native code] }"
  end.

(** ** Booking reconciler *)

(** The external booking store, as far as the page uses it. Every call
    answers with data or with an error, and whether it answers may depend
    on the table and on the request: [store_insert] gives the new row's
    id or a rejection ([None], the [insErr] of the page),
    [store_select_fails] and [store_delete_fails] say whether the range
    query and the delete by id come back with an error. The page is shown
    to administrators only, and the store lets them see and delete every
    row. *)
Class BookingStore := {
  store_insert : list Booking -> Booking -> option JsString;
  store_select_fails : list Booking -> Z -> Z -> bool;
  store_delete_fails : list Booking -> JsValue -> bool
}.

Inductive PageError :=
| ErrNoSession       (* "Session fehlt ..." *)
| ErrNoLocalTeam     (* "Konnte keine passende lokale Mannschaft ..." *)
| ErrStore           (* the store's own error *)
| ErrNoIcsLink       (* "Für diese Mannschaft ist kein ICS-Link hinterlegt." *)
| ErrFeed.           (* the feed request failed *)

(** The state the handlers read and write: the [bookings] table of the
    store, the session, and the page's React state.  [busyUid] and
    [loadingGames] are set on entry and cleared on exit of each handler
    and are left out. *)
Record Page := {
  pg_db : list Booking;
  pg_session : option JsString;
  pg_teams : list Team;
  pg_pitches : list Pitch;
  pg_selectedBfvTeam : option BfvTeam;
  pg_bookings : list Booking;
  pg_bookedMap : JsObject;
  pg_bookedPitchByUid : JsObject;
  pg_selectedPitchByUid : JsObject;
  pg_range : option (Z * Z);
  pg_games : list IcsGame;
  pg_error : option PageError
}.

Definition set_error (e : option PageError) (st : Page) : Page :=
  {| pg_db := pg_db st; pg_session := pg_session st; pg_teams := pg_teams st;
     pg_pitches := pg_pitches st; pg_selectedBfvTeam := pg_selectedBfvTeam st;
     pg_bookings := pg_bookings st; pg_bookedMap := pg_bookedMap st;
     pg_bookedPitchByUid := pg_bookedPitchByUid st;
     pg_selectedPitchByUid := pg_selectedPitchByUid st;
     pg_range := pg_range st; pg_games := pg_games st; pg_error := e |}.

Definition set_db (db : list Booking) (st : Page) : Page :=
  {| pg_db := db; pg_session := pg_session st; pg_teams := pg_teams st;
     pg_pitches := pg_pitches st; pg_selectedBfvTeam := pg_selectedBfvTeam st;
     pg_bookings := pg_bookings st; pg_bookedMap := pg_bookedMap st;
     pg_bookedPitchByUid := pg_bookedPitchByUid st;
     pg_selectedPitchByUid := pg_selectedPitchByUid st;
     pg_range := pg_range st; pg_games := pg_games st; pg_error := pg_error st |}.

Definition set_loaded (l : list Booking) (m mp : JsObject) (st : Page) : Page :=
  {| pg_db := pg_db st; pg_session := pg_session st; pg_teams := pg_teams st;
     pg_pitches := pg_pitches st; pg_selectedBfvTeam := pg_selectedBfvTeam st;
     pg_bookings := l; pg_bookedMap := m; pg_bookedPitchByUid := mp;
     pg_selectedPitchByUid := pg_selectedPitchByUid st;
     pg_range := pg_range st; pg_games := pg_games st; pg_error := pg_error st |}.

Definition set_booked (m mp : JsObject) (st : Page) : Page :=
  set_loaded (pg_bookings st) m mp st.

Definition set_selected (m : JsObject) (st : Page) : Page :=
  {| pg_db := pg_db st; pg_session := pg_session st; pg_teams := pg_teams st;
     pg_pitches := pg_pitches st; pg_selectedBfvTeam := pg_selectedBfvTeam st;
     pg_bookings := pg_bookings st; pg_bookedMap := pg_bookedMap st;
     pg_bookedPitchByUid := pg_bookedPitchByUid st;
     pg_selectedPitchByUid := m;
     pg_range := pg_range st; pg_games := pg_games st; pg_error := pg_error st |}.

Definition set_range (r : option (Z * Z)) (st : Page) : Page :=
  {| pg_db := pg_db st; pg_session := pg_session st; pg_teams := pg_teams st;
     pg_pitches := pg_pitches st; pg_selectedBfvTeam := pg_selectedBfvTeam st;
     pg_bookings := pg_bookings st; pg_bookedMap := pg_bookedMap st;
     pg_bookedPitchByUid := pg_bookedPitchByUid st;
     pg_selectedPitchByUid := pg_selectedPitchByUid st;
     pg_range := r; pg_games := pg_games st; pg_error := pg_error st |}.

Definition set_games (gs : list IcsGame) (st : Page) : Page :=
  {| pg_db := pg_db st; pg_session := pg_session st; pg_teams := pg_teams st;
     pg_pitches := pg_pitches st; pg_selectedBfvTeam := pg_selectedBfvTeam st;
     pg_bookings := pg_bookings st; pg_bookedMap := pg_bookedMap st;
     pg_bookedPitchByUid := pg_bookedPitchByUid st;
     pg_selectedPitchByUid := pg_selectedPitchByUid st;
     pg_range := pg_range st; pg_games := gs; pg_error := pg_error st |}.

(** The rows that the query of [loadBookingsForRange] asks for:
    [.gte("start_at", startISO).lt("end_at", endISO)]. *)
Definition query_range (db : list Booking) (rangeStart rangeEnd : Z) : list Booking :=
  List.filter (fun b => (rangeStart <=? b_start_at b) && (b_end_at b <? rangeEnd)) db.

(** Body of the loop of [loadBookingsForRange] over the two dictionaries. *)
Definition uid_maps_step (acc : JsObject * JsObject) (b : Booking) : JsObject * JsObject :=
  match findBfvUid (b_note b) with
  | Some uid =>
      if nonempty uid
      then (obj_assign (fst acc) uid (VStr (b_id b)),
            obj_assign (snd acc) uid (VStr (b_pitch_id b)))
      else acc
  | None => acc
  end.

Definition uid_maps (l : list Booking) : JsObject * JsObject :=
  fold_left uid_maps_step l (∅, ∅).

Definition uidToBookingId (l : list Booking) : JsObject := fst (uid_maps l).
Definition uidToPitchId (l : list Booking) : JsObject := snd (uid_maps l).

(** [loadBookingsForRange]; [None] when it throws the store's error,
    which happens before any state is set. The list it returns is the
    [bookings] of the state it gives. *)
Definition loadBookingsForRange `{BookingStore} (st : Page) (rangeStart rangeEnd : Z)
    : option Page :=
  if store_select_fails (pg_db st) rangeStart rangeEnd then None
  else
    let l := query_range (pg_db st) rangeStart rangeEnd in
    Some (set_loaded l (uidToBookingId l) (uidToPitchId l) st).

Definition selected_age (st : Page) : option Z :=
  match pg_selectedBfvTeam st with
  | Some t => bt_age_u t
  | None => None
  end.

Definition resolveLocalTeamId (st : Page) : option JsString :=
  let by_age :=
    match selected_age st with
    | Some targetAge =>
        match List.find (fun t => t_age_u t =? targetAge) (pg_teams st) with
        | Some best => if nonempty (t_id best) then Some (t_id best) else None
        | None => None
        end
    | None => None
    end in
  match by_age with
  | Some i => Some i
  | None =>
      let bfvName :=
        toLowerCase (match pg_selectedBfvTeam st with
                     | Some t => bt_name t
                     | None => []
                     end) in
      match List.find (fun t => includes (toLowerCase (t_name t)) bfvName) (pg_teams st) with
      | Some byName => Some (t_id byName)
      | None => None
      end
  end.

(** The row that [bookApproved] hands to the store; the store assigns
    the id. *)
Definition booking_row (game : IcsGame) (pitchId localTeamId uid : JsString) : Booking :=
  {| b_id := []; b_start_at := g_start game; b_end_at := g_end game;
     b_status := js "APPROVED"; b_note := Some (make_note game);
     b_team_id := localTeamId; b_pitch_id := pitchId; b_created_by := Some uid |}.

Definition with_id (i : JsString) (b : Booking) : Booking :=
  {| b_id := i; b_start_at := b_start_at b; b_end_at := b_end_at b;
     b_status := b_status b; b_note := b_note b; b_team_id := b_team_id b;
     b_pitch_id := b_pitch_id b; b_created_by := b_created_by b |}.

(** [if (range) await loadBookingsForRange(range.start, range.end)] *)
Definition reload `{BookingStore} (st : Page) : option Page :=
  match pg_range st with
  | Some (rs, re) => loadBookingsForRange st rs re
  | None => Some st
  end.

Definition bookApproved `{BookingStore} (st : Page) (game : IcsGame)
    (pitchId : JsString) : Page :=
  let st := set_error None st in
  match pg_session st with
  | Some uid =>
      if negb (nonempty uid) then set_error (Some ErrNoSession) st else
      match resolveLocalTeamId st with
      | Some localTeamId =>
          if negb (nonempty localTeamId) then set_error (Some ErrNoLocalTeam) st else
          let row := booking_row game pitchId localTeamId uid in
          match store_insert (pg_db st) row with
          | None => set_error (Some ErrStore) st
          | Some insId =>
              let st := set_db (pg_db st ++ [with_id insId row]) st in
              match reload st with
              | None => set_error (Some ErrStore) st
              | Some st =>
                  let st := set_selected (<[g_uid game := VStr pitchId]>
                                            (pg_selectedPitchByUid st)) st in
                  if nonempty insId
                  then set_booked (<[g_uid game := VStr insId]> (pg_bookedMap st))
                                  (<[g_uid game := VStr pitchId]> (pg_bookedPitchByUid st))
                                  st
                  else st
              end
          end
      | None => set_error (Some ErrNoLocalTeam) st
      end
  | None => set_error (Some ErrNoSession) st
  end.

(** The id of [avail[0]], or the empty string. *)
Definition first_id (avail : list Pitch) : JsValue :=
  VStr (match avail with a :: _ => p_id a | [] => [] end).

(** [.delete().eq("id", bookingId)]: the table without the rows whose id
    is the text of [bookingId], or [None] for the store's error. *)
Definition delete_by_id `{BookingStore} (db : list Booking) (bookingId : JsValue)
    : option (list Booking) :=
  if store_delete_fails db bookingId then None
  else Some (List.filter (fun b => negb (str_eqb (b_id b) (value_text bookingId))) db).

(** The two updates at the end of [undoBooking]: a copy of each
    dictionary without the own entry of the fixture. *)
Definition forget (gameUid : JsString) (st : Page) : Page :=
  set_booked (delete gameUid (pg_bookedMap st))
             (delete gameUid (pg_bookedPitchByUid st)) st.

Definition undoBooking `{BookingStore} (st : Page) (gameUid : JsString) : Page :=
  match obj_get (pg_bookedMap st) gameUid with
  | Some bookingId =>
      if negb (truthy bookingId) then st else
      let st := set_error None st in
      match delete_by_id (pg_db st) bookingId with
      | None => set_error (Some ErrStore) st
      | Some db =>
          let st := set_db db st in
          match pg_range st with
          | Some (rs, re) =>
              match loadBookingsForRange st rs re with
              | None => set_error (Some ErrStore) st
              | Some st =>
                  forget gameUid
                    (match List.find (fun x => str_eqb (g_uid x) gameUid) (pg_games st) with
                     | Some g =>
                         let avail := getAvailablePitches (pg_pitches st) (selected_age st) g
                                                          (pg_bookings st) in
                         set_selected (<[gameUid := first_id avail]>
                                         (pg_selectedPitchByUid st)) st
                     | None => st
                     end)
              end
          | None => forget gameUid st
          end
      end
  | None => st
  end.

(** *** The table row of a game: which action it offers

    A row shows the undo button when the read of [bookedMap] under the
    game's id is truthy, and the book button otherwise; the book button is
    disabled when no pitch is available or none is selected, and a click
    on it calls [bookApproved] with the selected pitch. *)
Definition row_avail (st : Page) (g : IcsGame) : list Pitch :=
  getAvailablePitches (pg_pitches st) (selected_age st) g (pg_bookings st).

(** [selectedPitchByUid[g.uid]] if truthy, else the id of [avail[0]] or
    the empty string. *)
Definition row_selectedPitch (st : Page) (g : IcsGame) : JsValue :=
  match obj_get (pg_selectedPitchByUid st) (g_uid g) with
  | Some v => if truthy v then v else first_id (row_avail st g)
  | None => first_id (row_avail st g)
  end.

Definition row_isBooked (st : Page) (g : IcsGame) : bool :=
  truthy_entry (obj_get (pg_bookedMap st) (g_uid g)).

Inductive RowAction :=
| OfferUndo
| OfferBook (enabled : bool) (pitchId : JsValue).

Definition row_action (st : Page) (g : IcsGame) : RowAction :=
  if row_isBooked st g then OfferUndo
  else OfferBook (negb (Nat.eqb (length (row_avail st g)) 0)
                  && truthy (row_selectedPitch st g))
                 (row_selectedPitch st g).

(** The default pitch that [loadGames] picks for a game: what
    [uidToPitchId] reads under the game's id if that is truthy, else the
    first available pitch. *)
Definition default_pitch (pitches : list Pitch) (ageU : option Z)
    (bookingList : list Booking) (g : IcsGame) : option JsValue :=
  if truthy_entry (obj_get (uidToPitchId bookingList) (g_uid g))
  then obj_get (uidToPitchId bookingList) (g_uid g)
  else match getAvailablePitches pitches ageU g bookingList with
       | a :: _ => Some (VStr (p_id a))
       | [] => None
       end.

(** Modelled from the spec: the store's overlap constraint (section 6,
    "the store is assumed to enforce uniqueness/overlap constraints at the
    storage layer"), whose schema is not part of the sources.  A row is
    rejected when a row on the same pitch overlaps it in time; ids are
    "b0", "b1", ... by table size; queries and deletes always answer. *)
Definition exclusion_accepts (db : list Booking) (row : Booking) : bool :=
  forallb (fun b => negb (str_eqb (b_pitch_id b) (b_pitch_id row)
                          && overlaps (b_start_at row) (b_end_at row)
                                      (b_start_at b) (b_end_at b))) db.

Definition exclusion_store : BookingStore :=
  {| store_insert := fun db row =>
       if exclusion_accepts db row
       then Some (js "b" ++ [48 + Z.of_nat (length db)])
       else None;
     store_select_fails := fun _ _ _ => false;
     store_delete_fails := fun _ _ => false |}.

(** A store that takes every row but whose range query fails. *)
Definition store_without_select : BookingStore :=
  {| store_insert := fun db row => Some (js "b" ++ [48 + Z.of_nat (length db)]);
     store_select_fails := fun _ _ _ => true;
     store_delete_fails := fun _ _ => false |}.

(** ** Sample data

    The inventory, fixture and bookings of the specification's scenarios,
    used to run the definitions on concrete inputs. *)

Definition pitch_mitte : Pitch :=
  {| p_id := js "p1"; p_name := js "Platz Mitte"; p_type := GROSSFELD |}.
Definition pitch_klein : Pitch :=
  {| p_id := js "p2"; p_name := js "Kleinfeld"; p_type := KOMPAKT |}.
Definition pitch_rechts : Pitch :=
  {| p_id := js "p3"; p_name := js "Grossfeld RECHTS"; p_type := GROSSFELD |}.

(** The fixture of the specification's scenarios: 2026-02-22, 14:00 to
    16:00 UTC. *)
Definition game_stern : IcsGame :=
  {| g_uid := js "abc123"; g_summary := js "FC Stern - SV Gegner, Kreisliga";
     g_start := 1771768800000; g_end := 1771776000000;
     g_location := None; g_isHome := None |}.

(** An approved booking on "p1", 13:00 to 15:00 UTC the same day. *)
Definition booking_13_15 : Booking :=
  {| b_id := js "k1"; b_start_at := 1771765200000; b_end_at := 1771772400000;
     b_status := js "APPROVED"; b_note := None; b_team_id := js "t1";
     b_pitch_id := js "p1"; b_created_by := None |}.

(** A derby whose two sides both carry the club's token. *)
Definition game_derby : IcsGame :=
  {| g_uid := js "d1"; g_summary := js "FC Stern - Stern II, Kreisliga";
     g_start := 1771768800000; g_end := 1771776000000;
     g_location := None; g_isHome := None |}.

(** The match tokens of club "FC Stern", team "U14". *)
Definition tokens_stern : list JsString := buildMatchTokens [js "FC Stern"; js "U14"].

(** Two bookings whose notes carry the tag of the same fixture. *)
Definition dup_first : Booking :=
  {| b_id := js "k7"; b_start_at := 1771768800000; b_end_at := 1771776000000;
     b_status := js "APPROVED"; b_note := Some (make_note game_stern);
     b_team_id := js "t1"; b_pitch_id := js "p1"; b_created_by := None |}.
Definition dup_second : Booking :=
  {| b_id := js "k9"; b_start_at := 1771768800000; b_end_at := 1771776000000;
     b_status := js "APPROVED"; b_note := Some (make_note game_stern);
     b_team_id := js "t1"; b_pitch_id := js "p3"; b_created_by := None |}.

Definition LF : JsString := [10].

(** A feed with two records; the second one has no UID line. *)
Definition feed_two_records : JsString :=
  js "BEGIN:VCALENDAR" ++ LF
  ++ js "BEGIN:VEVENT" ++ LF
  ++ js "UID:abc123" ++ LF
  ++ js "SUMMARY:FC Stern - SV Gegner, Kreisliga" ++ LF
  ++ js "DTSTART:20260222T140000Z" ++ LF
  ++ js "DTEND:20260222T160000Z" ++ LF
  ++ js "END:VEVENT" ++ LF
  ++ js "BEGIN:VEVENT" ++ LF
  ++ js "SUMMARY:Spieltag 5" ++ LF
  ++ js "DTSTART:20260301T140000Z" ++ LF
  ++ js "DTEND:20260301T160000Z" ++ LF
  ++ js "END:VEVENT" ++ LF
  ++ js "END:VCALENDAR".


Definition utc_host : Z -> Z := fun _ => 0.

(** [s] contains [p] up to the letter case that the tag pattern ignores. *)
Fixpoint includes_ci (s p : JsString) : bool :=
  startsWith_ci s p ||
  match s with
  | [] => false
  | _ :: s' => includes_ci s' p
  end.

(** A fixture whose summary itself carries a tag-like text. *)
Definition game_injected : IcsGame :=
  {| g_uid := js "abc123"; g_summary := js "Spiel [BFV_UID:zzz]";
     g_start := 1771768800000; g_end := 1771776000000;
     g_location := None; g_isHome := None |}.

(** One record around a summary line, to be given with or without a fold
    inside the summary. *)
Definition feed_with_summary (summary_line : JsString) : JsString :=
  js "BEGIN:VEVENT" ++ LF
  ++ js "UID:abc123" ++ LF
  ++ summary_line ++ LF
  ++ js "DTSTART:20260222T140000Z" ++ LF
  ++ js "DTEND:20260222T160000Z" ++ LF
  ++ js "END:VEVENT" ++ LF.

Definition feed_plain : JsString :=
  feed_with_summary (js "SUMMARY:FC" ++ js " Stern - SV Gegner").

(** The same summary line folded between "FC" and the space after it. *)
Definition feed_folded_at_space : JsString :=
  feed_with_summary (js "SUMMARY:FC" ++ [10; 32] ++ js " Stern - SV Gegner").

(** [onChange] of a row's pitch selector. *)
Definition selectPitch (st : Page) (uid pitchId : JsString) : Page :=
  set_selected (<[uid := VStr pitchId]> (pg_selectedPitchByUid st)) st.

(** The rows of [db] that [findBfvUid] reads as linked to fixture [uid]. *)
Definition linked_to (uid : JsString) (db : list Booking) : list Booking :=
  List.filter (fun b => bool_decide (findBfvUid (b_note b) = Some uid)) db.

(** A fixture whose id is the name of a member of [Object.prototype]. *)
Definition game_constructor : IcsGame :=
  {| g_uid := js "constructor"; g_summary := js "FC Stern - SV Gegner, Kreisliga";
     g_start := 1771768800000; g_end := 1771776000000;
     g_location := None; g_isHome := None |}.

(** A later fixture of the same feed, 2026-03-01, 14:00 to 16:00 UTC. *)
Definition game_later : IcsGame :=
  {| g_uid := js "late9"; g_summary := js "FC Stern - TSV Nord, Kreisliga";
     g_start := 1772373600000; g_end := 1772380800000;
     g_location := None; g_isHome := None |}.

Definition team_u14 : Team := {| t_id := js "t1"; t_name := js "U14"; t_age_u := 14 |}.

Definition bfv_u14 : BfvTeam :=
  {| bt_id := js "x1"; bt_club_id := js "c1"; bt_name := js "U14";
     bt_age_u := Some 14; bt_ics_url := None; bt_home_only := Some true |}.

(** The page after [loadGames] found the two fixtures and no bookings:
    the range runs from the first start to the last end. *)
Definition page0 : Page :=
  {| pg_db := []; pg_session := Some (js "u1"); pg_teams := [team_u14];
     pg_pitches := [pitch_mitte; pitch_klein; pitch_rechts];
     pg_selectedBfvTeam := Some bfv_u14;
     pg_bookings := []; pg_bookedMap := ∅; pg_bookedPitchByUid := ∅;
     pg_selectedPitchByUid := ∅;
     pg_range := Some (g_start game_stern, g_end game_later);
     pg_games := [game_stern; game_later]; pg_error := None |}.

(** [bookApproved] called twice for the same fixture, on two pitches,
    against the store with the overlap constraint. *)
Definition page_booked_once : Page :=
  @bookApproved exclusion_store page0 game_stern (js "p1").

(** The rows' own actions: book the later fixture on the pitch its row
    shows, then the earlier one; then pick another pitch for the later
    fixture and book it again. *)
Definition page_row_later_booked : Page :=
  @bookApproved exclusion_store page0 game_later (js "p1").
Definition page_rows_booked : Page :=
  @bookApproved exclusion_store page_row_later_booked game_stern (js "p1").
Definition page_rows_rebooked : Page :=
  @bookApproved exclusion_store (selectPitch page_rows_booked (js "late9") (js "p3"))
                game_later (js "p3").

(** ** Loading the games ([loadGames]) *)

(** [parsed.filter((g) => g.isHome !== false)] under [homeOnly]. *)
Definition not_away (g : IcsGame) : bool :=
  match g_isHome g with
  | Some false => false
  | _ => true
  end.

Definition home_filter (homeOnly : bool) (parsed : list IcsGame) : list IcsGame :=
  if homeOnly then List.filter not_away parsed else parsed.

(** Body of the loop that finds the earliest start and the latest end;
    [min] and [max] are undefined before the first game. *)
Definition range_step (acc : option Z * option Z) (g : IcsGame) : option Z * option Z :=
  (match fst acc with
   | Some m => if g_start g <? m then Some (g_start g) else Some m
   | None => Some (g_start g)
   end,
   match snd acc with
   | Some m => if m <? g_end g then Some (g_end g) else Some m
   | None => Some (g_end g)
   end).

(** The range of the listed games; without games it runs from the clock
    reading [now1] to thirty days after the clock reading [now2]. *)
Definition games_range (now1 now2 : Z) (filtered : list IcsGame) : Z * Z :=
  let acc := fold_left range_step filtered
               (g_start <$> head filtered, g_end <$> head filtered) in
  (default now1 (fst acc), default (now2 + 1000 * 60 * 60 * 24 * 30) (snd acc)).

(** Body of the loop over the listed games that fills [defaults]. *)
Definition defaults_step (pitches : list Pitch) (ageU : option Z)
    (bookingList : list Booking) (d : JsObject) (g : IcsGame) : JsObject :=
  match default_pitch pitches ageU bookingList g with
  | Some p => obj_assign d (g_uid g) p
  | None => d
  end.

(** What the request for the feed gives: it throws (the request itself,
    or the reading of its text), or answers with a status that is not ok,
    or answers with the text of the feed. *)
Inductive FeedAnswer :=
| FeedThrows
| FeedNotOk
| FeedText (icsText : JsString).

(** The [catch] of [loadGames]. *)
Definition load_failed (e : PageError) (st : Page) : Page :=
  set_error (Some e) (set_games [] st).

(** [loadGames]: [fetchIcs] is the request to the proxy for the team's
    feed address, [now1] and [now2] are the clock readings, [clubName] and
    [homeOnly] the name of the selected club and the state of the
    check box. *)
Definition loadGames `{BookingStore} (tza : Z -> Z) (now1 now2 : Z) (clubName : JsString)
    (homeOnly : bool) (fetchIcs : JsString -> FeedAnswer) (st : Page) : Page :=
  match pg_selectedBfvTeam st with
  | None => st
  | Some team =>
      if negb (nonempty (bt_id team)) then st else
      let st := set_error None st in
      match bt_ics_url team with
      | None => load_failed ErrNoIcsLink st
      | Some url =>
          if negb (nonempty url) then load_failed ErrNoIcsLink st else
          match fetchIcs url with
          | FeedThrows => load_failed ErrFeed st
          | FeedNotOk => load_failed ErrFeed st
          | FeedText icsText =>
              let tokens := buildMatchTokens [clubName; bt_name team] in
              let parsed := map (classifyGame tokens) (parseIcs tza icsText) in
              let filtered := home_filter homeOnly parsed in
              let r := games_range now1 now2 filtered in
              let st := set_range (Some r) st in
              match loadBookingsForRange st (fst r) (snd r) with
              | None => load_failed ErrStore st
              | Some st =>
                  let defaults :=
                    fold_left (defaults_step (pg_pitches st) (selected_age st)
                                             (pg_bookings st))
                              filtered ∅ in
                  set_games filtered
                    (set_selected (defaults ∪ pg_selectedPitchByUid st) st)
              end
          end
      end
  end.

(** ** The feed proxy (src/app/api/bfv/ics/route.ts) *)

(** [h.endsWith(s)] *)
Definition endsWith (h s : JsString) : bool :=
  Nat.leb (length s) (length h) && str_eqb (drop (length h - length s) h) s.

Definition isAllowedHost (host : JsString) : bool :=
  let h := toLowerCase host in
  str_eqb h (js "service.bfv.de") || str_eqb h (js "bfv.de") || endsWith h (js ".bfv.de").

(** What the handler reads of [new URL(url)], and of the upstream answer
    ([up_text] is empty when reading the text fails). *)
Record ParsedUrl := { u_protocol : JsString; u_hostname : JsString; u_href : JsString }.
Record Upstream := { up_ok : bool; up_status : Z; up_text : JsString }.

Inductive IcsBody :=
| BodyError (msg : JsString)
| BodyUpstreamError (status : Z) (text : JsString)
| BodyCalendar (text : JsString).

(** [GET]: [parseUrl] is the URL constructor ([None] when it throws),
    [fetch] the upstream request for an address ([None] when it rejects).
    The handler answers with a status and a body, or throws ([None]): the
    upstream request is awaited outside any [try]. *)
Definition ics_GET (parseUrl : JsString -> option ParsedUrl)
    (fetch : JsString -> option Upstream) (url : option JsString)
    : option (Z * IcsBody) :=
  match url with
  | None => Some (400, BodyError (js "Missing url query param"))
  | Some url =>
      if negb (nonempty url) then Some (400, BodyError (js "Missing url query param")) else
      match parseUrl url with
      | None => Some (400, BodyError (js "Invalid url"))
      | Some u =>
          if negb (str_eqb (u_protocol u) (js "https:"))
          then Some (400, BodyError (js "Only https allowed"))
          else if negb (isAllowedHost (u_hostname u))
          then Some (403, BodyError (js "Host not allowed"))
          else
            match fetch (u_href u) with
            | None => None
            | Some res =>
                if negb (up_ok res)
                then Some (502, BodyUpstreamError (up_status res) (take 800 (up_text res)))
                else Some (200, BodyCalendar (up_text res))
            end
      end
  end.

(** ** Shapes of unfolded lines and of normalized text *)

(** No line after the first starts with a space or a tab. *)
Definition no_continuation (lines : list JsString) : Prop :=
  Forall (fun l => starts_hws l = false) (tl lines).

(** The civil fields of a compact timestamp: year, month, day, hour,
    minute, second, each a run of digits. *)
Record StampFields := {
  sf_Y : JsString; sf_Mo : JsString; sf_D : JsString;
  sf_H : JsString; sf_Mi : JsString; sf_S : JsString
}.

Definition stamp_text (f : StampFields) : JsString :=
  sf_Y f ++ sf_Mo f ++ sf_D f ++ js "T" ++ sf_H f ++ sf_Mi f ++ sf_S f.

Definition stamp_ok (f : StampFields) : Prop :=
  length (sf_Y f) = 4%nat /\ length (sf_Mo f) = 2%nat /\ length (sf_D f) = 2%nat
  /\ length (sf_H f) = 2%nat /\ length (sf_Mi f) = 2%nat /\ length (sf_S f) = 2%nat
  /\ forallb is_digit (sf_Y f ++ sf_Mo f ++ sf_D f ++ sf_H f ++ sf_Mi f ++ sf_S f) = true.

Definition stamp_utc (f : StampFields) : Z :=
  Date_UTC (digits_value (sf_Y f)) (digits_value (sf_Mo f) - 1) (digits_value (sf_D f))
           (digits_value (sf_H f)) (digits_value (sf_Mi f)) (digits_value (sf_S f)).

(** The lines of one record with all five fields, the two times with
    optional parameter segments [p1], [p2]. *)
Definition record_lines (u s loc p1 ts p2 te : JsString) : list JsString :=
  [js "BEGIN:VEVENT"; js "UID:" ++ u; js "SUMMARY:" ++ s; js "LOCATION:" ++ loc;
   js "DTSTART" ++ p1 ++ 58 :: ts; js "DTEND" ++ p2 ++ 58 :: te; js "END:VEVENT"].

(** Two loop states that go on alike: both outside a record, or in the
    same record with the same fields; the first has [G] in front of the
    games of the second. *)
Definition alike (G : list IcsGame) (st st' : ParseState) : Prop :=
  ps_games st = G ++ ps_games st'
  /\ ((ps_inEvent st = false /\ ps_inEvent st' = false)
      \/ (ps_inEvent st = ps_inEvent st' /\ ps_uid st = ps_uid st'
          /\ ps_summary st = ps_summary st' /\ ps_location st = ps_location st'
          /\ ps_dtStart st = ps_dtStart st' /\ ps_dtEnd st = ps_dtEnd st')).

(** Text made of lower-case letters and digits in words that single
    spaces separate, with no space at either end. *)
Definition word_or_space (c : Z) : bool := is_lower_alnum c || (c =? 32).

Fixpoint no_double_space (s : JsString) : bool :=
  match s with
  | c :: r =>
      match r with
      | d :: _ => negb ((c =? 32) && (d =? 32)) && no_double_space r
      | [] => true
      end
  | [] => true
  end.

Definition normal_text (s : JsString) : Prop :=
  forallb word_or_space s = true /\ no_double_space s = true
  /\ head s <> Some 32 /\ last s <> Some 32.

(** A selected team with a feed address, and the page for it before any
    load. *)
Definition bfv_u14_feed : BfvTeam :=
  {| bt_id := js "x1"; bt_club_id := js "c1"; bt_name := js "U14";
     bt_age_u := Some 14; bt_ics_url := Some (js "https://service.bfv.de/u14.ics");
     bt_home_only := Some true |}.

Definition page_before_load : Page :=
  {| pg_db := [booking_13_15]; pg_session := Some (js "u1"); pg_teams := [team_u14];
     pg_pitches := [pitch_mitte; pitch_klein; pitch_rechts];
     pg_selectedBfvTeam := Some bfv_u14_feed;
     pg_bookings := []; pg_bookedMap := ∅; pg_bookedPitchByUid := ∅;
     pg_selectedPitchByUid := ∅;
     pg_range := None; pg_games := []; pg_error := None |}.

(** * Properties *)

(** ** Availability engine *)

Lemma str_eqb_true (a b : JsString) : str_eqb a b = true <-> a = b.
Proof. unfold str_eqb. apply bool_decide_eq_true. Qed.

Lemma str_eqb_false (a b : JsString) : str_eqb a b = false <-> a <> b.
Proof. unfold str_eqb. apply bool_decide_eq_false. Qed.

Lemma str_eqb_refl (a : JsString) : str_eqb a a = true.
Proof. now apply str_eqb_true. Qed.

Lemma overlaps_spec (s1 e1 s2 e2 : Z) :
  overlaps s1 e1 s2 e2 = true <-> s1 < e2 /\ s2 < e1.
Proof. unfold overlaps. rewrite andb_true_iff, !Z.ltb_lt. tauto. Qed.

Lemma is_blocking_spec (b : Booking) :
  is_blocking b = true <->
  toUpperCase (b_status b) = js "REQUESTED" \/ toUpperCase (b_status b) = js "APPROVED".
Proof.
  unfold is_blocking, mem_str, BLOCKING_STATUSES. simpl.
  rewrite !orb_true_iff, !str_eqb_true. intuition discriminate.
Qed.

(** What makes the filter of [getAvailablePitches] drop a candidate. *)
Lemma collides_spec (gs ge : Z) (bookingsList : list Booking) (p : Pitch) :
  collides gs ge (List.filter is_blocking bookingsList) p = true <->
  exists b, In b bookingsList /\ is_blocking b = true /\ b_pitch_id b = p_id p
            /\ gs < b_end_at b /\ b_start_at b < ge.
Proof.
  unfold collides. rewrite existsb_exists. split.
  - intros (b & Hin & Hb). apply filter_In in Hin as [Hin Hblk].
    exists b. destruct (str_eqb (b_pitch_id b) (p_id p)) eqn:E; simpl in Hb; [|discriminate].
    apply str_eqb_true in E. apply overlaps_spec in Hb. tauto.
  - intros (b & Hin & Hblk & Hp & Hov). exists b. split.
    + apply filter_In. tauto.
    + rewrite Hp, str_eqb_refl. simpl. now apply overlaps_spec.
Qed.

Lemma available_iff (pitches : list Pitch) (ageU : option Z) (game : IcsGame)
    (bookingsList : list Booking) (p : Pitch) :
  In p (getAvailablePitches pitches ageU game bookingsList) <->
  In p (allowedPitchesForAge pitches ageU) /\
  ~ exists b, In b bookingsList /\ is_blocking b = true /\ b_pitch_id b = p_id p
              /\ g_start game < b_end_at b /\ b_start_at b < g_end game.
Proof.
  unfold getAvailablePitches. rewrite filter_In, negb_true_iff.
  rewrite <- collides_spec. rewrite not_true_iff_false. tauto.
Qed.

(** C2. Among the pitches eligible for the age category, a pitch is left
    out of the availability result exactly when some booking on that pitch
    with status requested or approved overlaps the fixture in the
    half-open sense; a booking that ends when the fixture starts does not
    overlap it, and a rejected booking is not blocking. *)
Theorem availability_excludes_iff_blocking_overlap :
  forall (pitches : list Pitch) (ageU : option Z) (game : IcsGame)
         (bookingsList : list Booking),
    (forall p, In p (allowedPitchesForAge pitches ageU) ->
       (~ In p (getAvailablePitches pitches ageU game bookingsList) <->
        exists b, In b bookingsList
                  /\ (toUpperCase (b_status b) = js "REQUESTED"
                      \/ toUpperCase (b_status b) = js "APPROVED")
                  /\ b_pitch_id b = p_id p
                  /\ g_start game < b_end_at b /\ b_start_at b < g_end game))
    /\ (forall b, b_end_at b = g_start game ->
          overlaps (g_start game) (g_end game) (b_start_at b) (b_end_at b) = false)
    /\ (forall b, toUpperCase (b_status b) = js "REJECTED" -> is_blocking b = false).
Proof.
  intros pitches ageU game bookingsList. split; [|split].
  - intros p Hcand. rewrite available_iff. setoid_rewrite <- is_blocking_spec.
    split.
    + intros Hn.
      destruct (collides (g_start game) (g_end game)
                         (List.filter is_blocking bookingsList) p) eqn:E.
      * now apply collides_spec in E.
      * exfalso. apply Hn. split; [exact Hcand|].
        rewrite <- collides_spec. congruence.
    + intros Hex [_ Hno]. now apply Hno.
  - intros b Hb. unfold overlaps. rewrite Hb.
    rewrite Z.ltb_irrefl. reflexivity.
  - intros b Hb. unfold is_blocking. rewrite Hb. reflexivity.
Qed.

Lemma availability_excludes_iff_blocking_overlap_witness :
  ~ In pitch_mitte (getAvailablePitches [pitch_mitte] (Some 16) game_stern [booking_13_15]).
Proof.
  apply (proj1 (availability_excludes_iff_blocking_overlap
                  [pitch_mitte] (Some 16) game_stern [booking_13_15])).
  - simpl. left. reflexivity.
  - exists booking_13_15. simpl. repeat split; try lia.
    + left. reflexivity.
    + right. reflexivity.
Defined.

(** C10. The fixture's own booking is not exempted: a blocking booking on
    a pitch that overlaps the fixture's window removes that pitch from the
    fixture's availability result, and the row that [bookApproved] inserts
    for a fixture with a non-empty window is such a booking for the
    fixture itself. *)
Theorem own_booking_blocks_pitch :
  forall (pitches : list Pitch) (ageU : option Z) (game : IcsGame)
         (bookingsList : list Booking) (p : Pitch),
    (forall b, In b bookingsList -> is_blocking b = true ->
               b_pitch_id b = p_id p ->
               overlaps (g_start game) (g_end game) (b_start_at b) (b_end_at b) = true ->
               ~ In p (getAvailablePitches pitches ageU game bookingsList))
    /\ (forall insId localTeamId uid,
          g_start game < g_end game ->
          In (with_id insId (booking_row game (p_id p) localTeamId uid)) bookingsList ->
          ~ In p (getAvailablePitches pitches ageU game bookingsList)).
Proof.
  intros pitches ageU game bookingsList p.
  assert (Hgen : forall b, In b bookingsList -> is_blocking b = true ->
               b_pitch_id b = p_id p ->
               overlaps (g_start game) (g_end game) (b_start_at b) (b_end_at b) = true ->
               ~ In p (getAvailablePitches pitches ageU game bookingsList)).
  { intros b Hin Hblk Hp Hov Havail. apply available_iff in Havail as [_ Hno].
    apply Hno. exists b. apply overlaps_spec in Hov. tauto. }
  split; [exact Hgen|].
  intros insId localTeamId uid Hlt Hin.
  apply (Hgen _ Hin); simpl; try reflexivity.
  apply overlaps_spec. lia.
Qed.

Lemma own_booking_blocks_pitch_witness :
  ~ In pitch_mitte
       (getAvailablePitches [pitch_mitte; pitch_klein] None game_stern
          [with_id (js "b0") (booking_row game_stern (js "p1") (js "t1") (js "u1"))]).
Proof.
  apply (proj2 (own_booking_blocks_pitch [pitch_mitte; pitch_klein] None game_stern
                  [with_id (js "b0") (booking_row game_stern (js "p1") (js "t1") (js "u1"))]
                  pitch_mitte) (js "b0") (js "t1") (js "u1")).
  - simpl. lia.
  - simpl. left. reflexivity.
Defined.

Lemma filter_sublist {A : Type} (f : A -> bool) (l : list A) :
  List.filter f l `sublist_of` l.
Proof.
  induction l as [|x l IH]; simpl.
  - constructor.
  - destruct (f x); now constructor.
Qed.

Lemma eligible_from_U14_spec (p : Pitch) :
  eligible_from_U14 p = true <->
  p_type p = GROSSFELD /\
  (includes (toLowerCase (p_name p)) (js "mitte") = true
   \/ includes (toLowerCase (p_name p)) (js "rechts") = true).
Proof.
  unfold eligible_from_U14. rewrite andb_true_iff, orb_true_iff.
  destruct (p_type p); simpl; intuition discriminate.
Qed.

Lemma allowed_sublist (pitches : list Pitch) (ageU : option Z) :
  allowedPitchesForAge pitches ageU `sublist_of` pitches.
Proof.
  unfold allowedPitchesForAge. destruct ageU as [a|]; [|reflexivity].
  destruct (14 <=? a); [apply filter_sublist | reflexivity].
Qed.

(** C9. The eligibility filter returns the whole inventory when the age
    is null or below 14, and from 14 on exactly the GROSSFELD pitches
    whose lower-cased name contains "mitte" or "rechts"; the candidates
    keep the inventory's order, and for a fixture that is not booked yet
    the default suggestion is the first candidate. *)
Theorem eligibility_by_age_and_order :
  forall (pitches : list Pitch) (ageU : option Z) (game : IcsGame)
         (bookingsList : list Booking),
    (ageU = None \/ (exists a, ageU = Some a /\ a < 14) ->
       allowedPitchesForAge pitches ageU = pitches)
    /\ (forall a, ageU = Some a -> 14 <= a ->
          allowedPitchesForAge pitches ageU = List.filter eligible_from_U14 pitches
          /\ forall p, In p (allowedPitchesForAge pitches ageU) <->
                       In p pitches /\ p_type p = GROSSFELD /\
                       (includes (toLowerCase (p_name p)) (js "mitte") = true
                        \/ includes (toLowerCase (p_name p)) (js "rechts") = true))
    /\ allowedPitchesForAge pitches ageU `sublist_of` pitches
    /\ getAvailablePitches pitches ageU game bookingsList `sublist_of` pitches
    /\ (truthy_entry (obj_get (uidToPitchId bookingsList) (g_uid game)) = false ->
          default_pitch pitches ageU bookingsList game
          = VStr ∘ p_id <$> head (getAvailablePitches pitches ageU game bookingsList)).
Proof.
  intros pitches ageU game bookingsList.
  split; [|split; [|split; [|split]]].
  - intros [-> | (a & -> & Ha)]; [reflexivity|].
    unfold allowedPitchesForAge.
    destruct (14 <=? a) eqn:E; [apply Z.leb_le in E; lia | reflexivity].
  - intros a -> Ha. unfold allowedPitchesForAge.
    replace (14 <=? a) with true by (symmetry; now apply Z.leb_le).
    split; [reflexivity|]. intros p.
    rewrite filter_In, eligible_from_U14_spec. tauto.
  - apply allowed_sublist.
  - unfold getAvailablePitches.
    etransitivity; [apply filter_sublist | apply allowed_sublist].
  - intros Hno. unfold default_pitch. rewrite Hno.
    now destruct (getAvailablePitches pitches ageU game bookingsList).
Qed.

Lemma eligibility_by_age_and_order_witness :
  allowedPitchesForAge [pitch_mitte; pitch_klein; pitch_rechts] (Some 13)
  = [pitch_mitte; pitch_klein; pitch_rechts]
  /\ allowedPitchesForAge [pitch_mitte; pitch_klein; pitch_rechts] (Some 14)
     = List.filter eligible_from_U14 [pitch_mitte; pitch_klein; pitch_rechts]
  /\ default_pitch [pitch_mitte; pitch_klein; pitch_rechts] (Some 14)
                   [booking_13_15] game_stern
     = VStr ∘ p_id <$> head (getAvailablePitches [pitch_mitte; pitch_klein; pitch_rechts]
                                                 (Some 14) game_stern [booking_13_15]).
Proof.
  split; [|split].
  - apply (proj1 (eligibility_by_age_and_order
                    [pitch_mitte; pitch_klein; pitch_rechts] (Some 13) game_stern [])).
    right. exists 13. split; [reflexivity | lia].
  - apply (proj1 (proj2 (eligibility_by_age_and_order
                    [pitch_mitte; pitch_klein; pitch_rechts] (Some 14) game_stern [])) 14);
      [reflexivity | lia].
  - apply (proj2 (proj2 (proj2 (proj2 (eligibility_by_age_and_order
                    [pitch_mitte; pitch_klein; pitch_rechts] (Some 14) game_stern
                    [booking_13_15]))))).
    reflexivity.
Defined.

(** ** Fixture classifier *)

(** C3, as the code has it. With a left/right split of the summary: both
    sides matching gives home, neither side matching gives unknown (and
    one side alone gives home for the left, away for the right). *)
Theorem classify_with_split :
  forall (tokens : list JsString) (g : IcsGame) (l r : JsString),
    splitHomeAway (g_summary g) = Some (l, r) ->
    (matchSide tokens l = true -> matchSide tokens r = true ->
       classify tokens g = Some true)
    /\ (matchSide tokens l = false -> matchSide tokens r = false ->
          classify tokens g = None)
    /\ (matchSide tokens l = true -> matchSide tokens r = false ->
          classify tokens g = Some true)
    /\ (matchSide tokens l = false -> matchSide tokens r = true ->
          classify tokens g = Some false).
Proof.
  intros tokens g l r Hsplit. unfold classify. rewrite Hsplit.
  repeat split; intros -> ->; reflexivity.
Qed.

Lemma classify_with_split_witness :
  classify tokens_stern game_derby = Some true
  /\ classify tokens_stern game_stern = Some true.
Proof.
  split.
  - apply (proj1 (classify_with_split tokens_stern game_derby
                    (js "FC Stern") (js "Stern II") eq_refl)); reflexivity.
  - apply (proj1 (proj2 (proj2 (classify_with_split tokens_stern game_stern
                    (js "FC Stern") (js "SV Gegner") eq_refl)))); reflexivity.
Defined.

(** C3 as stated fails: the derby's summary splits, both sides contain
    the token "stern", and the result is home, not unknown. *)
Lemma both_sides_match_gives_home :
  splitHomeAway (g_summary game_derby) = Some (js "FC Stern", js "Stern II")
  /\ tokens_stern = [js "stern"]
  /\ matchSide tokens_stern (js "FC Stern") = true
  /\ matchSide tokens_stern (js "Stern II") = true
  /\ classify tokens_stern game_derby = Some true
  /\ classify tokens_stern game_derby <> None.
Proof. repeat split; try reflexivity. discriminate. Qed.

(** C4 at "Mueller" written with u-umlaut, and at the four forms alone:
    decomposition and the removal of combining marks run before the
    digraph replacements, so a-, o- and u-umlaut arrive there as plain
    "a", "o", "u"; only sharp s becomes its digraph. *)
Theorem normalize_umlaut_gives_base_letter :
  normalizeForMatch (js "M" ++ [252] ++ js "ller") = js "muller"
  /\ normalizeForMatch [228] = js "a"
  /\ normalizeForMatch [246] = js "o"
  /\ normalizeForMatch [252] = js "u"
  /\ normalizeForMatch [223] = js "ss".
Proof. repeat split; reflexivity. Qed.

(** The three umlaut replacements are never reached with an umlaut: on
    every string of units below U+0100 the text that arrives at them
    holds none of the units they look for. *)
Lemma replace_units_none (cls : Z -> bool) (rep s : JsString) :
  Forall (fun c => cls c = false) s -> replace_units cls rep s = s.
Proof.
  unfold replace_units. induction 1 as [|c s Hc _ IH]; simpl; [reflexivity|].
  now rewrite Hc, IH.
Qed.

Lemma strip_combining_subset (s : JsString) (c : Z) :
  In c (strip_combining s) -> In c s.
Proof.
  unfold strip_combining, replace_units.
  induction s as [|x s IH]; simpl; [tauto|].
  rewrite in_app_iff. intros [Hx | Hs]; [|right; now apply IH].
  destruct (is_combining_mark x); simpl in Hx; tauto.
Qed.

Lemma nfkd_lower_no_umlaut (x c : Z) :
  0 <= x < 256 -> In c (nfkd_unit (lower_unit x)) -> c <> 228 /\ c <> 246 /\ c <> 252.
Proof.
  intros Hx Hin.
  assert (Hall : forallb (fun n => forallb (fun d => negb ((d =? 228) || (d =? 246) || (d =? 252)))
                                     (nfkd_unit (lower_unit (Z.of_nat n))))
                         (seq 0 256) = true) by (vm_compute; reflexivity).
  rewrite forallb_forall in Hall.
  specialize (Hall (Z.to_nat x)). rewrite Z2Nat.id in Hall by lia.
  assert (Hseq : In (Z.to_nat x) (seq 0 256)) by (apply in_seq; lia).
  specialize (Hall Hseq). rewrite forallb_forall in Hall.
  specialize (Hall c Hin). apply negb_true_iff in Hall.
  rewrite !orb_false_iff, !Z.eqb_neq in Hall. tauto.
Qed.

Lemma umlaut_digraphs_unreachable (s : JsString) :
  Forall (fun c => 0 <= c < 256) s ->
  replace_umlauts (strip_combining (normalizeNFKD (toLowerCase s)))
  = replace_units (Z.eqb 223) (js "ss") (strip_combining (normalizeNFKD (toLowerCase s))).
Proof.
  intros Hs. unfold replace_umlauts.
  assert (Hno : forall c, In c (strip_combining (normalizeNFKD (toLowerCase s))) ->
                          c <> 228 /\ c <> 246 /\ c <> 252).
  { intros c Hc. apply strip_combining_subset in Hc.
    unfold normalizeNFKD, toLowerCase in Hc.
    apply in_concat in Hc as (d & Hd & Hc).
    apply in_map_iff in Hd as (y & <- & Hy).
    apply in_map_iff in Hy as (x & <- & Hx).
    rewrite Forall_forall in Hs.
    apply (nfkd_lower_no_umlaut x c); [|exact Hc].
    apply Hs. now apply list_elem_of_In. }
  assert (Hcls : forall k, k = 228 \/ k = 246 \/ k = 252 ->
            Forall (fun c => (k =? c) = false)
                   (strip_combining (normalizeNFKD (toLowerCase s)))).
  { intros k Hk. apply Forall_forall. intros c Hc. apply list_elem_of_In in Hc.
    apply Hno in Hc. apply Z.eqb_neq. intuition congruence. }
  rewrite (replace_units_none (Z.eqb 228)) by (apply Hcls; tauto).
  rewrite (replace_units_none (Z.eqb 246)) by (apply Hcls; tauto).
  rewrite (replace_units_none (Z.eqb 252)) by (apply Hcls; tauto).
  reflexivity.
Qed.

(** ** Fixture tag and lookup *)

Lemma tag_here_nonempty (s cap : JsString) :
  tag_here s = Some cap -> nonempty cap = true.
Proof.
  unfold tag_here. destruct (startsWith_ci s TAG_OPEN); [|discriminate].
  destruct (drop _ (drop _ s)) as [|c t]; [discriminate|].
  destruct (nonempty (until_rbracket _)) eqn:E; simpl; [|discriminate].
  destruct (c =? RBRACKET); [|discriminate].
  intros [= <-]. exact E.
Qed.

Lemma first_tag_nonempty (s cap : JsString) :
  first_tag s = Some cap -> nonempty cap = true.
Proof.
  induction s as [|c s IH]; simpl.
  - discriminate.
  - destruct (tag_here (c :: s)) eqn:E.
    + intros [= <-]. eapply tag_here_nonempty, E.
    + exact IH.
Qed.

Lemma findBfvUid_nonempty (note : option JsString) (u : JsString) :
  findBfvUid note = Some u -> nonempty u = true.
Proof.
  destruct note as [n|]; simpl; [|discriminate].
  destruct (nonempty n); [|discriminate]. apply first_tag_nonempty.
Qed.

Lemma uid_maps_snoc (l : list Booking) (b : Booking) :
  uid_maps (l ++ [b]) = uid_maps_step (uid_maps l) b.
Proof. unfold uid_maps. now rewrite fold_left_app. Qed.

(** The bookings of [l] that [findBfvUid] reads as tagged with [uid]. *)
Lemma tagged_snoc (uid : JsString) (l : list Booking) (b : Booking) :
  List.filter (fun x => bool_decide (findBfvUid (b_note x) = Some uid)) (l ++ [b])
  = List.filter (fun x => bool_decide (findBfvUid (b_note x) = Some uid)) l
    ++ (if bool_decide (findBfvUid (b_note b) = Some uid) then [b] else []).
Proof. now rewrite List.filter_app. Qed.

(** The own entries of the two dictionaries: an id other than "__proto__"
    has the entries of the last booking tagged with it; "__proto__" never
    gets an own entry. *)
Lemma uid_maps_own (l : list Booking) (uid : JsString) :
  let tagged := List.filter (fun b => bool_decide (findBfvUid (b_note b) = Some uid)) l in
  uidToBookingId l !! uid
  = (if str_eqb uid PROTO then None else VStr ∘ b_id <$> last tagged)
  /\ uidToPitchId l !! uid
     = (if str_eqb uid PROTO then None else VStr ∘ b_pitch_id <$> last tagged).
Proof.
  unfold uidToBookingId, uidToPitchId.
  induction l as [|b l IH] using rev_ind.
  - unfold uid_maps. cbn [fold_left fst snd List.filter last fmap option_fmap option_map].
    split; destruct (str_eqb uid PROTO); apply lookup_empty.
  - cbv zeta in IH |- *. destruct IH as [IH1 IH2].
    rewrite uid_maps_snoc, tagged_snoc. unfold uid_maps_step.
    destruct (findBfvUid (b_note b)) as [u|] eqn:E.
    + rewrite (findBfvUid_nonempty _ _ E). cbn [fst snd].
      destruct (decide (u = uid)) as [->|Hne].
      * rewrite bool_decide_eq_true_2 by reflexivity. rewrite last_snoc.
        unfold obj_assign. rewrite IH1, IH2.
        destruct (str_eqb uid PROTO) eqn:Ep.
        -- now split.
        -- destruct (last _); split; apply lookup_insert_eq.
      * rewrite bool_decide_eq_false_2 by congruence. rewrite app_nil_r.
        assert (Hk : forall (o : JsObject) v, obj_assign o u v !! uid = o !! uid).
        { intros o v. unfold obj_assign.
          destruct (o !! u); [now apply lookup_insert_ne|].
          destruct (str_eqb u PROTO); [reflexivity | now apply lookup_insert_ne]. }
        now rewrite !Hk.
    + rewrite bool_decide_eq_false_2 by discriminate.
      now rewrite app_nil_r.
Qed.

(** C7, as the code has it. For a fixture id other than "__proto__", the
    lookup built by [loadBookingsForRange] reads the id of the last booking
    of the list whose note carries that fixture id (each later booking
    overwrites the entry), whatever the number of such bookings; with no
    such booking it reads what the prototype has under that name. It is
    defined for every list. *)
Theorem locate_returns_last_tagged :
  forall (l : list Booking) (uid : JsString),
    uid <> PROTO ->
    obj_get (uidToBookingId l) uid
    = match last (List.filter
                    (fun b => bool_decide (findBfvUid (b_note b) = Some uid)) l) with
      | Some b => Some (VStr (b_id b))
      | None => inherited uid
      end.
Proof.
  intros l uid Hne. unfold obj_get.
  rewrite (proj1 (uid_maps_own l uid)).
  apply str_eqb_false in Hne. rewrite Hne.
  now destruct (last _).
Qed.

Lemma locate_returns_last_tagged_witness :
  obj_get (uidToBookingId [dup_first; dup_second]) (js "abc123")
  = Some (VStr (js "k9")).
Proof.
  rewrite (locate_returns_last_tagged [dup_first; dup_second] (js "abc123"))
    by discriminate.
  reflexivity.
Defined.

(** C7 as stated fails: with two bookings tagged "abc123", the lookup
    answers with the second one's id. *)
Lemma locate_two_tagged_gives_second :
  findBfvUid (b_note dup_first) = Some (js "abc123")
  /\ findBfvUid (b_note dup_second) = Some (js "abc123")
  /\ obj_get (uidToBookingId [dup_first; dup_second]) (js "abc123")
     = Some (VStr (b_id dup_second))
  /\ obj_get (uidToBookingId [dup_first; dup_second]) (js "abc123")
     <> Some (VStr (b_id dup_first)).
Proof.
  assert (H3 : obj_get (uidToBookingId [dup_first; dup_second]) (js "abc123")
               = Some (VStr (b_id dup_second))) by (vm_compute; reflexivity).
  split; [reflexivity|]. split; [reflexivity|]. split; [exact H3|].
  rewrite H3. discriminate.
Qed.

(** ** Calendar parser *)

Lemma nonempty_true (s : JsString) : nonempty s = true <-> s <> [].
Proof. destruct s; simpl; split; congruence. Qed.


Lemma emit_none (st : ParseState) :
  ps_inEvent st = false \/ ps_uid st = [] \/ ps_summary st = []
  \/ ps_dtStart st = None \/ ps_dtEnd st = None ->
  emit st = None.
Proof.
  unfold emit. intros H.
  destruct (ps_dtStart st), (ps_dtEnd st); try reflexivity.
  destruct (ps_inEvent st); simpl; [|reflexivity].
  destruct (ps_uid st); simpl; [reflexivity|].
  destruct (ps_summary st); simpl; [reflexivity|].
  intuition discriminate.
Qed.

(** The output only grows, by at most the one record of an end line. *)
Lemma parse_step_games (tza : Z -> Z) (st : ParseState) (line : JsString) :
  ps_games (parse_step tza st line)
  = ps_games st ++ (if negb (is_begin line) && is_end line
                    then match emit st with Some g => [g] | None => [] end
                    else []).
Proof.
  unfold parse_step, is_begin, is_end.
  destruct (startsWith line (js "BEGIN:VEVENT")); cbn [negb andb ps_games];
    [now rewrite app_nil_r|].
  destruct (startsWith line (js "END:VEVENT")); cbn [negb andb ps_games].
  { destruct (emit st); [reflexivity | now rewrite app_nil_r]. }
  rewrite app_nil_r.
  destruct (ps_inEvent st); cbn [negb]; [|reflexivity].
  repeat match goal with
         | |- context [if startsWith ?l ?p then _ else _] =>
             destruct (startsWith l p); try reflexivity
         end.
Qed.








(** *** Round trip of the tag *)

(** A unit that matches no unit of the pattern stops every match that
    would run across it. *)
Lemma startsWith_ci_stop (p a : JsString) (c : Z) (t : JsString) :
  (forall d, In d p -> canonicalize c <> canonicalize d) ->
  startsWith_ci (a ++ c :: t) p = true -> startsWith_ci a p = true.
Proof.
  revert a. induction p as [|d p IH]; intros a Hc.
  - now destruct a.
  - destruct a as [|x a]; simpl.
    + rewrite andb_true_iff, Z.eqb_eq. intros [Heq _].
      exfalso. apply (Hc d); [now left | exact Heq].
    + rewrite !andb_true_iff. intros [Hx Hrest]. split; [exact Hx|].
      apply IH; [|exact Hrest]. intros d' Hd'. apply Hc. now right.
Qed.

Lemma LF_not_in_tag_open :
  forall d, In d TAG_OPEN -> canonicalize 10 <> canonicalize d.
Proof.
  intros d Hd. vm_compute in Hd.
  repeat (destruct Hd as [<-|Hd]; [vm_compute; discriminate|]). contradiction.
Qed.

Lemma tag_here_no_open (s : JsString) :
  startsWith_ci s TAG_OPEN = false -> tag_here s = None.
Proof. unfold tag_here. now intros ->. Qed.

Lemma first_tag_skip (s t : JsString) :
  includes_ci s TAG_OPEN = false ->
  first_tag (s ++ 10 :: t) = first_tag (10 :: t).
Proof.
  induction s as [|x s IH]; intros Hs; [reflexivity|].
  cbn [includes_ci] in Hs. apply orb_false_iff in Hs as [Hx Hs].
  change ((x :: s) ++ 10 :: t) with (x :: (s ++ 10 :: t)).
  assert (Hno : startsWith_ci (x :: (s ++ 10 :: t)) TAG_OPEN = false).
  { destruct (startsWith_ci (x :: (s ++ 10 :: t)) TAG_OPEN) eqn:E; [|reflexivity].
    change (x :: (s ++ 10 :: t)) with ((x :: s) ++ 10 :: t) in E.
    apply startsWith_ci_stop in E; [congruence | apply LF_not_in_tag_open]. }
  cbn [first_tag]. rewrite (tag_here_no_open _ Hno). now apply IH.
Qed.

Lemma until_rbracket_app (u : JsString) :
  ~ In RBRACKET u -> until_rbracket (u ++ [RBRACKET]) = u.
Proof.
  induction u as [|c u IH]; intros Hno; simpl.
  - reflexivity.
  - destruct (c =? RBRACKET) eqn:E.
    + apply Z.eqb_eq in E. exfalso. apply Hno. now left.
    + f_equal. apply IH. intros Hin. apply Hno. now right.
Qed.

Lemma startsWith_ci_app (p t : JsString) : startsWith_ci (p ++ t) p = true.
Proof.
  induction p as [|d p IH]; simpl; [now destruct t|].
  now rewrite Z.eqb_refl, IH.
Qed.

Lemma tag_here_own (u : JsString) :
  u <> [] -> ~ In RBRACKET u ->
  tag_here (TAG_OPEN ++ u ++ [RBRACKET]) = Some u.
Proof.
  intros Hne Hno. unfold tag_here.
  rewrite startsWith_ci_app.
  rewrite drop_app_length, (until_rbracket_app u Hno), drop_app_length.
  apply nonempty_true in Hne. rewrite Hne. reflexivity.
Qed.

Lemma note_prefix_has_no_tag (rest : JsString) :
  first_tag (js "[BFV] " ++ rest) = first_tag rest.
Proof. reflexivity. Qed.

Lemma findBfvUid_make_note (g : IcsGame) :
  g_uid g <> [] -> ~ In RBRACKET (g_uid g) ->
  includes_ci (g_summary g) TAG_OPEN = false ->
  findBfvUid (Some (make_note g)) = Some (g_uid g).
Proof.
  intros Hne Hno Hsum. unfold findBfvUid, make_note.
  replace (nonempty (js "[BFV] " ++ _)) with true by reflexivity.
  rewrite note_prefix_has_no_tag.
  change (g_summary g ++ [10] ++ js "[BFV_UID:" ++ g_uid g ++ js "]")
    with (g_summary g ++ 10 :: (TAG_OPEN ++ g_uid g ++ [RBRACKET])).
  rewrite (first_tag_skip _ _ Hsum).
  cbn [first_tag].
  replace (tag_here (10 :: TAG_OPEN ++ g_uid g ++ [RBRACKET])) with (@None JsString)
    by reflexivity.
  assert (Hown := tag_here_own (g_uid g) Hne Hno).
  destruct (TAG_OPEN ++ g_uid g ++ [RBRACKET]) eqn:E; [discriminate|].
  cbn [first_tag]. now rewrite Hown.
Qed.

(** X24. For a fixture whose id is non-empty and has no "]" and whose
    summary contains no "[BFV_UID:" in any letter case, the note written by
    [bookApproved] is read back by [findBfvUid] as exactly that id; a
    booking with that note is entered in the lookup under that id, unless
    the id is "__proto__", and under no other: any other key reads what
    the prototype has. *)
Theorem tag_round_trip :
  forall (g : IcsGame),
    g_uid g <> [] -> ~ In RBRACKET (g_uid g) ->
    includes_ci (g_summary g) TAG_OPEN = false ->
    findBfvUid (Some (make_note g)) = Some (g_uid g)
    /\ forall b, b_note b = Some (make_note g) ->
         (g_uid g <> PROTO -> obj_get (uidToBookingId [b]) (g_uid g) = Some (VStr (b_id b)))
         /\ (g_uid g = PROTO -> uidToBookingId [b] = ∅)
         /\ forall u, u <> g_uid g -> obj_get (uidToBookingId [b]) u = inherited u.
Proof.
  intros g Hne Hno Hsum.
  pose proof (findBfvUid_make_note g Hne Hno Hsum) as Hfind.
  split; [exact Hfind|]. intros b Hb.
  unfold uidToBookingId, uid_maps. cbn [fold_left]. unfold uid_maps_step.
  rewrite Hb, Hfind. apply nonempty_true in Hne. rewrite Hne. cbn [fst].
  unfold obj_assign, obj_get. rewrite lookup_empty.
  split; [|split].
  - intros Hp. apply str_eqb_false in Hp. rewrite Hp. now rewrite lookup_insert_eq.
  - intros Hp. apply str_eqb_true in Hp. now rewrite Hp.
  - intros u Hu. destruct (str_eqb (g_uid g) PROTO).
    + now rewrite lookup_empty.
    + rewrite lookup_insert_ne by congruence. now rewrite lookup_empty.
Qed.

Lemma tag_round_trip_witness :
  findBfvUid (Some (make_note game_stern)) = Some (js "abc123").
Proof.
  apply (proj1 (tag_round_trip game_stern ltac:(discriminate)
                  ltac:(vm_compute; intuition discriminate) eq_refl)).
Defined.

(** C6 fails on the code at this fixture: its id "abc123" is non-empty and
    has no "]", but its summary carries "[BFV_UID:zzz]", and that is what
    the note written for it is read back as. The lookup built from the
    booking that [bookApproved] hands to the store has the booking under
    "zzz" and nothing under "abc123". *)
Theorem tag_in_summary_is_found_first :
  g_uid game_injected = js "abc123"
  /\ g_uid game_injected <> []
  /\ ~ In RBRACKET (g_uid game_injected)
  /\ findBfvUid (Some (make_note game_injected)) = Some (js "zzz")
  /\ findBfvUid (Some (make_note game_injected)) <> Some (g_uid game_injected)
  /\ obj_get (uidToBookingId
               [with_id (js "b0") (booking_row game_injected (js "p1") (js "t1") (js "u1"))])
             (js "abc123") = None
  /\ obj_get (uidToBookingId
               [with_id (js "b0") (booking_row game_injected (js "p1") (js "t1") (js "u1"))])
             (js "zzz") = Some (VStr (js "b0")).
Proof.
  split; [reflexivity|]. split; [discriminate|].
  split; [vm_compute; intuition discriminate|].
  split; [reflexivity|]. split; [discriminate|].
  split; vm_compute; reflexivity.
Qed.

(** The same lookup never gets an entry for the fixture id "__proto__":
    the assignment runs the prototype's setter, which ignores a string, and
    the read finds the prototype itself, so the fixture's row shows as
    booked with or without a booking. *)
Lemma proto_id_is_never_entered :
  forall (l : list Booking),
    uidToBookingId l !! PROTO = None
    /\ obj_get (uidToBookingId l) PROTO = Some (VMember PROTO)
    /\ truthy_entry (obj_get (uidToBookingId l) PROTO) = true.
Proof.
  intros l. pose proof (proj1 (uid_maps_own l PROTO)) as Hown.
  cbv zeta in Hown. rewrite str_eqb_refl in Hown.
  unfold obj_get. rewrite Hown. repeat split.
Qed.

(** ** Line unfolding *)

Lemma replaceCRLF_cons (c : Z) (s : JsString) :
  c <> 13 -> replaceCRLF (c :: s) = c :: replaceCRLF s.
Proof.
  intros Hc. destruct s as [|d s]; [reflexivity|].
  cbn [replaceCRLF]. replace (c =? 13) with false by (symmetry; now apply Z.eqb_neq).
  reflexivity.
Qed.

Lemma replaceCRLF_crlf (s : JsString) :
  replaceCRLF (13 :: 10 :: s) = 10 :: replaceCRLF s.
Proof. reflexivity. Qed.

Lemma replaceCRLF_two (c d : Z) (s : JsString) :
  replaceCRLF (c :: d :: s)
  = if (c =? 13) && (d =? 10) then 10 :: replaceCRLF s else c :: replaceCRLF (d :: s).
Proof. reflexivity. Qed.

(** Text after a prefix that does not end in a carriage return is
    rewritten on its own. *)
Lemma replaceCRLF_app (y : JsString) (pre : JsString) :
  (last pre <> Some 13 -> replaceCRLF (pre ++ y) = replaceCRLF pre ++ replaceCRLF y)
  /\ (forall c, last (c :: pre) <> Some 13 ->
        replaceCRLF ((c :: pre) ++ y) = replaceCRLF (c :: pre) ++ replaceCRLF y).
Proof.
  induction pre as [|d pre [IH1 IH2]].
  - split; [reflexivity|]. intros c Hc. simpl in Hc.
    assert (c <> 13) by congruence.
    change (([c] ++ y)) with (c :: y). now rewrite replaceCRLF_cons.
  - split; [apply IH2|]. intros c Hc.
    change (last (c :: d :: pre)) with (last (d :: pre)) in Hc.
    change ((c :: d :: pre) ++ y) with (c :: d :: (pre ++ y)).
    rewrite !replaceCRLF_two.
    destruct ((c =? 13) && (d =? 10)).
    + simpl app. f_equal. apply IH1. destruct pre; [discriminate | exact Hc].
    + change (d :: pre ++ y) with ((d :: pre) ++ y).
      rewrite (IH2 d Hc). reflexivity.
Qed.

Lemma split_lf_LF (s : JsString) : split [10] (10 :: s) = [] :: split [10] s.
Proof. reflexivity. Qed.

Lemma split_lf_other (c : Z) (s h : JsString) (t : list JsString) :
  c <> 10 -> split [10] s = h :: t -> split [10] (c :: s) = (c :: h) :: t.
Proof.
  unfold split. intros Hc Hs. cbn [split_aux startsWith].
  replace (c =? 10) with false by (symmetry; now apply Z.eqb_neq).
  cbn [andb]. now rewrite Hs.
Qed.

Lemma split_lf_nonempty (s : JsString) : exists h t, split [10] s = h :: t.
Proof.
  induction s as [|c s (h & t & IH)].
  - now exists [], [].
  - destruct (decide (c = 10)) as [->|Hc].
    + rewrite split_lf_LF. eauto.
    + rewrite (split_lf_other c s h t Hc IH). eauto.
Qed.

(** Lines of a concatenation: the last line of the first text and the
    first line of the second are one line. *)
Lemma split_lf_app (P Q q : JsString) (qs : list JsString) :
  split [10] Q = q :: qs ->
  exists ls l, split [10] P = ls ++ [l] /\ split [10] (P ++ Q) = ls ++ (l ++ q) :: qs.
Proof.
  intros HQ. induction P as [|c P (ls & l & HP & HPQ)].
  - exists [], []. now split.
  - destruct (decide (c = 10)) as [->|Hc].
    + exists ([] :: ls), l. simpl app. rewrite !split_lf_LF, HP, HPQ. now split.
    + destruct ls as [|a ls].
      * exists [], (c :: l). simpl app in *.
        rewrite (split_lf_other c P l [] Hc HP).
        rewrite (split_lf_other c (P ++ Q) (l ++ q) qs Hc HPQ). now split.
      * exists ((c :: a) :: ls), l. simpl app in *.
        rewrite (split_lf_other c P a (ls ++ [l]) Hc HP).
        rewrite (split_lf_other c (P ++ Q) a (ls ++ (l ++ q) :: qs) Hc HPQ). now split.
Qed.

Lemma append_to_last_snoc (o : list JsString) (x y : JsString) :
  append_to_last (o ++ [x]) y = o ++ [x ++ y].
Proof.
  unfold append_to_last. rewrite removelast_last, last_last.
  now destruct o.
Qed.

Lemma trimStart_app (A B : JsString) (c : Z) :
  is_ws c = false -> trimStart (A ++ c :: B) = trimStart A ++ c :: B.
Proof.
  intros Hc. induction A as [|a A IH]; simpl.
  - now rewrite Hc.
  - destruct (is_ws a); [exact IH | reflexivity].
Qed.

Lemma unfold_step_nonempty (out : list JsString) (line : JsString) :
  exists o x, unfold_step out line = o ++ [x].
Proof.
  unfold unfold_step.
  destruct (starts_hws line && negb (Nat.eqb (length out) 0)) eqn:E.
  - destruct out as [|y out] using rev_ind.
    + now rewrite andb_false_r in E.
    + rewrite append_to_last_snoc. eauto.
  - eauto.
Qed.

Lemma is_ws_hws (ws : Z) : ws = 32 \/ ws = 9 -> is_ws ws = true.
Proof. now intros [-> | ->]. Qed.

Lemma starts_hws_not_ws (c : Z) (B : JsString) :
  is_ws c = false -> starts_hws (c :: B) = false.
Proof.
  intros Hc. simpl. destruct (c =? 32) eqn:E1; [apply Z.eqb_eq in E1; now subst|].
  destruct (c =? 9) eqn:E2; [apply Z.eqb_eq in E2; now subst | reflexivity].
Qed.

(** One logical line given as [A] followed by the continuation [ws :: B],
    where [B] starts with a unit that is not white space, unfolds as the
    line [A ++ B]. *)
Lemma unfold_step_fold (out : list JsString) (A B : JsString) (ws c : Z) :
  ws = 32 \/ ws = 9 -> is_ws c = false ->
  unfold_step (unfold_step out A) (ws :: c :: B) = unfold_step out (A ++ c :: B).
Proof.
  intros Hws Hc.
  destruct (unfold_step_nonempty out A) as (o & x & Hox).
  assert (Hcont : unfold_step (unfold_step out A) (ws :: c :: B)
                  = append_to_last (unfold_step out A) (c :: B)).
  { unfold unfold_step at 1. rewrite Hox at 1 2.
    replace (starts_hws (ws :: c :: B)) with true
      by (destruct Hws as [-> | ->]; reflexivity).
    rewrite length_app. simpl length.
    replace (Nat.eqb (length o + 1) 0) with false
      by (symmetry; apply Nat.eqb_neq; lia).
    cbn [andb negb]. cbn [trimStart]. rewrite (is_ws_hws ws Hws).
    cbn [trimStart]. rewrite Hc. now rewrite Hox. }
  rewrite Hcont. clear Hcont Hox o x.
  unfold unfold_step.
  destruct (starts_hws A && negb (Nat.eqb (length out) 0)) eqn:E.
  - apply andb_true_iff in E as [EA Eout].
    assert (Hs : starts_hws (A ++ c :: B) = true) by (destruct A; [discriminate | exact EA]).
    rewrite Hs, Eout. cbn [andb].
    destruct out as [|y out _] using rev_ind; [discriminate|].
    rewrite !append_to_last_snoc, trimStart_app by exact Hc.
    now rewrite <- app_assoc.
  - assert (Hs : starts_hws (A ++ c :: B) && negb (Nat.eqb (length out) 0) = false).
    { destruct A as [|a A]; [|exact E].
      simpl app. now rewrite starts_hws_not_ws. }
    rewrite Hs. now rewrite append_to_last_snoc.
Qed.

Lemma unfoldLines_fold (ls t : list JsString) (A B : JsString) (ws c : Z) :
  ws = 32 \/ ws = 9 -> is_ws c = false ->
  unfoldLines (ls ++ A :: (ws :: c :: B) :: t) = unfoldLines (ls ++ (A ++ c :: B) :: t).
Proof.
  intros Hws Hc. unfold unfoldLines. rewrite !fold_left_app. cbn [fold_left].
  now rewrite unfold_step_fold.
Qed.

Lemma unfoldIcsLines_fold_LF (pre post : JsString) (ws c : Z) :
  ws = 32 \/ ws = 9 -> is_ws c = false -> last pre <> Some 13 ->
  unfoldIcsLines (pre ++ [10; ws] ++ c :: post) = unfoldIcsLines (pre ++ c :: post).
Proof.
  intros Hws Hc Hpre. unfold unfoldIcsLines.
  assert (Hc13 : c <> 13) by (intros ->; discriminate).
  assert (Hc10 : c <> 10) by (intros ->; discriminate).
  assert (Hws13 : ws <> 13) by (destruct Hws; subst; discriminate).
  assert (Hws10 : ws <> 10) by (destruct Hws; subst; discriminate).
  rewrite !(proj1 (replaceCRLF_app _ pre) Hpre).
  change ([10; ws] ++ c :: post) with (10 :: ws :: c :: post).
  rewrite (replaceCRLF_cons 10) by discriminate.
  rewrite (replaceCRLF_cons ws), !(replaceCRLF_cons c) by assumption.
  destruct (split_lf_nonempty (replaceCRLF post)) as (h & t & Hpost).
  pose proof (split_lf_other c _ h t Hc10 Hpost) as H0.
  pose proof (split_lf_other ws _ _ t Hws10 H0) as H1.
  assert (H2 : split [10] (10 :: ws :: c :: replaceCRLF post)
               = [] :: (ws :: c :: h) :: t) by (now rewrite split_lf_LF, H1).
  destruct (split_lf_app (replaceCRLF pre) _ _ _ H0) as (ls & l & HP & ->).
  destruct (split_lf_app (replaceCRLF pre) _ _ _ H2) as (ls' & l' & HP' & ->).
  rewrite HP in HP'. apply app_inj_tail in HP' as [<- <-].
  rewrite app_nil_r. now apply unfoldLines_fold.
Qed.

Lemma unfoldIcsLines_fold_CRLF (pre post : JsString) (ws c : Z) :
  ws = 32 \/ ws = 9 -> is_ws c = false -> last pre <> Some 13 ->
  unfoldIcsLines (pre ++ [13; 10; ws] ++ c :: post) = unfoldIcsLines (pre ++ c :: post).
Proof.
  intros Hws Hc Hpre. rewrite <- (unfoldIcsLines_fold_LF pre post ws c Hws Hc Hpre).
  assert (Hsame : replaceCRLF (pre ++ [13; 10; ws] ++ c :: post)
                  = replaceCRLF (pre ++ [10; ws] ++ c :: post)).
  { rewrite !(proj1 (replaceCRLF_app _ pre) Hpre).
    change ([13; 10; ws] ++ c :: post) with (13 :: 10 :: ws :: c :: post).
    change ([10; ws] ++ c :: post) with (10 :: ws :: c :: post).
    rewrite replaceCRLF_crlf, (replaceCRLF_cons 10) by discriminate.
    reflexivity. }
  unfold unfoldIcsLines. now rewrite Hsame.
Qed.

(** C8, as the code has it. A fold (a line break, LF or CRLF, followed by
    one space or tab) inserted immediately before a unit that is not white
    space, and not directly after a carriage return, changes neither the
    unfolded lines nor the parsed fixtures. *)
Theorem rewrap_before_non_space_is_invisible :
  forall (tza : Z -> Z) (pre post : JsString) (ws c : Z),
    ws = 32 \/ ws = 9 -> is_ws c = false -> last pre <> Some 13 ->
    (unfoldIcsLines (pre ++ [10; ws] ++ c :: post) = unfoldIcsLines (pre ++ c :: post)
     /\ parseIcs tza (pre ++ [10; ws] ++ c :: post) = parseIcs tza (pre ++ c :: post))
    /\ (unfoldIcsLines (pre ++ [13; 10; ws] ++ c :: post) = unfoldIcsLines (pre ++ c :: post)
        /\ parseIcs tza (pre ++ [13; 10; ws] ++ c :: post) = parseIcs tza (pre ++ c :: post)).
Proof.
  intros tza pre post ws c Hws Hc Hpre. unfold parseIcs.
  rewrite unfoldIcsLines_fold_LF, unfoldIcsLines_fold_CRLF by assumption.
  repeat split.
Qed.

Lemma rewrap_before_non_space_is_invisible_witness :
  parseIcs utc_host (feed_with_summary (js "SUMMARY:FC Stern -" ++ [10; 32] ++ js "SV Gegner"))
  = parseIcs utc_host (feed_with_summary (js "SUMMARY:FC Stern -" ++ js "SV Gegner")).
Proof.
  apply (proj2 (proj1 (rewrap_before_non_space_is_invisible utc_host
                  (js "BEGIN:VEVENT" ++ LF ++ js "UID:abc123" ++ LF ++ js "SUMMARY:FC Stern -")
                  (js "V Gegner" ++ LF ++ js "DTSTART:20260222T140000Z" ++ LF
                   ++ js "DTEND:20260222T160000Z" ++ LF ++ js "END:VEVENT" ++ LF)
                  32 83 (or_introl eq_refl) eq_refl ltac:(discriminate)))).
Defined.

(** C8 as stated fails: folding the summary line before the space that
    follows "FC" loses that space, and the parsed summary differs. *)
Lemma rewrap_before_space_changes_summary :
  map g_summary (parseIcs utc_host feed_plain) = [js "FC Stern - SV Gegner"]
  /\ map g_summary (parseIcs utc_host feed_folded_at_space) = [js "FCStern - SV Gegner"]
  /\ parseIcs utc_host feed_folded_at_space <> parseIcs utc_host feed_plain.
Proof.
  assert (H1 : map g_summary (parseIcs utc_host feed_plain) = [js "FC Stern - SV Gegner"])
    by (vm_compute; reflexivity).
  assert (H2 : map g_summary (parseIcs utc_host feed_folded_at_space)
               = [js "FCStern - SV Gegner"]) by (vm_compute; reflexivity).
  repeat split; try assumption.
  intros Heq. rewrite Heq, H1 in H2. discriminate.
Qed.

(** ** Dictionaries *)


Lemma inherited_truthy (k : JsString) (v : JsValue) :
  inherited k = Some v -> v = VMember k /\ In k OBJECT_PROTOTYPE /\ truthy v = true.
Proof.
  unfold inherited, mem_str.
  destruct (existsb (str_eqb k) OBJECT_PROTOTYPE) eqn:E; [|discriminate].
  intros [= <-]. apply existsb_exists in E as (x & Hx & Hk).
  apply str_eqb_true in Hk. subst x. tauto.
Qed.

(** A read of an object that owns the key gives the own value; a key
    that is not a member name of the prototype reads as the own entry. *)
Lemma obj_get_own (o : JsObject) (k : JsString) (v : JsValue) :
  o !! k = Some v -> obj_get o k = Some v.
Proof. unfold obj_get. now intros ->. Qed.


(** ** Booking reconciler *)

Section Reconciler.
Context `{BookingStore}.

(** Reading the state after the setters. *)
Ltac page_simpl :=
  cbn [pg_db pg_session pg_teams pg_pitches pg_selectedBfvTeam pg_bookings
       pg_bookedMap pg_bookedPitchByUid pg_selectedPitchByUid pg_range
       pg_games pg_error set_error set_db set_loaded set_booked set_selected
       set_range set_games forget] in *.

(** A range query that answers replaces the loaded bookings and the two
    dictionaries, and nothing else. *)
Lemma loadBookingsForRange_some (st st' : Page) (rs re : Z) :
  loadBookingsForRange st rs re = Some st' ->
  store_select_fails (pg_db st) rs re = false
  /\ st' = set_loaded (query_range (pg_db st) rs re)
                      (uidToBookingId (query_range (pg_db st) rs re))
                      (uidToPitchId (query_range (pg_db st) rs re)) st.
Proof.
  unfold loadBookingsForRange. destruct (store_select_fails _ _ _); [discriminate|].
  now intros [= <-].
Qed.

Lemma loadBookingsForRange_none (st : Page) (rs re : Z) :
  loadBookingsForRange st rs re = None <-> store_select_fails (pg_db st) rs re = true.
Proof.
  unfold loadBookingsForRange. destruct (store_select_fails _ _ _); split; congruence.
Qed.

Lemma reload_keeps (st st' : Page) :
  reload st = Some st' ->
  pg_db st' = pg_db st /\ pg_selectedPitchByUid st' = pg_selectedPitchByUid st
  /\ pg_error st' = pg_error st /\ pg_games st' = pg_games st
  /\ pg_range st' = pg_range st.
Proof.
  unfold reload. destruct (pg_range st) as [[rs re]|] eqn:Hr.
  - intros Hl. apply loadBookingsForRange_some in Hl as [_ ->]. page_simpl. tauto.
  - intros [= <-]. tauto.
Qed.

(** [bookApproved] when it stops before the store. *)
Lemma bookApproved_unreached (st : Page) (g : IcsGame) (p : JsString) :
  pg_session st = None \/ pg_session st = Some []
  \/ resolveLocalTeamId st = None \/ resolveLocalTeamId st = Some [] ->
  exists e, (e = ErrNoSession \/ e = ErrNoLocalTeam)
            /\ bookApproved st g p = set_error (Some e) st.
Proof.
  intros Hc. unfold bookApproved. page_simpl.
  change (resolveLocalTeamId (set_error None st)) with (resolveLocalTeamId st).
  destruct (pg_session st) as [uid|]; [|exists ErrNoSession; tauto].
  destruct uid as [|c uid]; [exists ErrNoSession; tauto|]. cbn [nonempty negb].
  destruct (resolveLocalTeamId st) as [tid|]; [|exists ErrNoLocalTeam; tauto].
  destruct tid as [|d tid]; [exists ErrNoLocalTeam; tauto|].
  exfalso. intuition discriminate.
Qed.

(** [bookApproved] when it reaches the store: one insert, then the
    reload, then the three updates. *)
Lemma bookApproved_reached (st : Page) (g : IcsGame) (p uid tid : JsString) :
  pg_session st = Some uid -> uid <> [] ->
  resolveLocalTeamId st = Some tid -> tid <> [] ->
  bookApproved st g p
  = match store_insert (pg_db st) (booking_row g p tid uid) with
    | None => set_error (Some ErrStore) st
    | Some insId =>
        let written := set_db (pg_db st ++ [with_id insId (booking_row g p tid uid)])
                              (set_error None st) in
        match reload written with
        | None => set_error (Some ErrStore) written
        | Some st1 =>
            let st2 := set_selected (<[g_uid g := VStr p]> (pg_selectedPitchByUid st1)) st1 in
            if nonempty insId
            then set_booked (<[g_uid g := VStr insId]> (pg_bookedMap st2))
                            (<[g_uid g := VStr p]> (pg_bookedPitchByUid st2)) st2
            else st2
        end
    end.
Proof.
  intros Hs Hu Ht Htid. unfold bookApproved. page_simpl.
  change (resolveLocalTeamId (set_error None st)) with (resolveLocalTeamId st).
  rewrite Hs, Ht. apply nonempty_true in Hu, Htid. rewrite Hu, Htid. cbn [negb].
  destruct (store_insert _ _); reflexivity.
Qed.

Lemma session_cases (st : Page) :
  (pg_session st = None \/ pg_session st = Some []
   \/ resolveLocalTeamId st = None \/ resolveLocalTeamId st = Some [])
  \/ exists uid tid, pg_session st = Some uid /\ uid <> []
                     /\ resolveLocalTeamId st = Some tid /\ tid <> [].
Proof.
  destruct (pg_session st) as [[|c uid]|]; [tauto| |tauto].
  destruct (resolveLocalTeamId st) as [[|d tid]|]; [tauto| |tauto].
  right. exists (c :: uid), (d :: tid). repeat split; discriminate.
Qed.


(** After a call that reached the store, had its row accepted and named,
    and ended without error, [bookedMap] owns the new id under the
    fixture's id and the selection owns the pitch. *)
Lemma bookApproved_recorded (st : Page) (g : IcsGame) (p uid tid i : JsString) :
  pg_session st = Some uid -> uid <> [] ->
  resolveLocalTeamId st = Some tid -> tid <> [] ->
  store_insert (pg_db st) (booking_row g p tid uid) = Some i ->
  pg_error (bookApproved st g p) = None ->
  pg_db (bookApproved st g p) = pg_db st ++ [with_id i (booking_row g p tid uid)]
  /\ pg_selectedPitchByUid (bookApproved st g p) !! g_uid g = Some (VStr p)
  /\ (i <> [] -> pg_bookedMap (bookApproved st g p) !! g_uid g = Some (VStr i)
                 /\ pg_bookedPitchByUid (bookApproved st g p) !! g_uid g = Some (VStr p)).
Proof.
  intros Hs Hu Ht Htid Hins.
  rewrite (bookApproved_reached st g p uid tid Hs Hu Ht Htid), Hins. cbv zeta.
  destruct (reload _) as [st1|] eqn:Hr; [|discriminate].
  apply reload_keeps in Hr as (Hdb & _). intros _.
  destruct (nonempty i) eqn:Hi; page_simpl.
  - split; [exact Hdb|]. split; [apply lookup_insert_eq|].
    intros _. split; apply lookup_insert_eq.
  - split; [exact Hdb|]. split; [apply lookup_insert_eq|].
    intros Hne. apply nonempty_true in Hne. congruence.
Qed.

(** A call that ends with an error has written a row only when the store
    accepted it and the reload failed; the dictionaries, the selection and
    the loaded bookings are as before in every failing case. *)
Lemma bookApproved_failed (st : Page) (g : IcsGame) (p : JsString) (e : PageError) :
  pg_error (bookApproved st g p) = Some e ->
  bookApproved st g p = set_error (Some e) st
  \/ exists uid tid i,
       pg_session st = Some uid /\ resolveLocalTeamId st = Some tid
       /\ store_insert (pg_db st) (booking_row g p tid uid) = Some i
       /\ reload (set_db (pg_db st ++ [with_id i (booking_row g p tid uid)])
                         (set_error None st)) = None
       /\ e = ErrStore
       /\ bookApproved st g p
          = set_error (Some ErrStore)
              (set_db (pg_db st ++ [with_id i (booking_row g p tid uid)]) st).
Proof.
  destruct (session_cases st) as [Hc | (uid & tid & Hs & Hu & Ht & Htid)].
  - destruct (bookApproved_unreached st g p Hc) as (e' & _ & ->).
    page_simpl. intros [= ->]. now left.
  - rewrite (bookApproved_reached st g p uid tid Hs Hu Ht Htid).
    destruct (store_insert _ _) as [i|] eqn:Hins.
    + cbv zeta. destruct (reload _) as [st1|] eqn:Hr.
      * apply reload_keeps in Hr as (_ & _ & Herr & _).
        destruct (nonempty i); page_simpl; rewrite Herr; discriminate.
      * page_simpl. intros [= <-]. right. exists uid, tid, i. tauto.
    + page_simpl. intros [= <-]. now left.
Qed.


(** [undoBooking] when [bookedMap] reads something truthy under the id:
    the delete, then the reload, then the updates. *)
Lemma undoBooking_run (st : Page) (u : JsString) (v : JsValue) :
  obj_get (pg_bookedMap st) u = Some v -> truthy v = true ->
  (pg_error (undoBooking st u) = None ->
     store_delete_fails (pg_db st) v = false
     /\ pg_db (undoBooking st u)
        = List.filter (fun b => negb (str_eqb (b_id b) (value_text v))) (pg_db st)
     /\ pg_bookedMap (undoBooking st u) !! u = None
     /\ pg_bookedPitchByUid (undoBooking st u) !! u = None)
  /\ (forall e, pg_error (undoBooking st u) = Some e ->
        e = ErrStore
        /\ pg_bookedMap (undoBooking st u) = pg_bookedMap st
        /\ pg_bookedPitchByUid (undoBooking st u) = pg_bookedPitchByUid st
        /\ (pg_db (undoBooking st u) = pg_db st
            \/ pg_db (undoBooking st u)
               = List.filter (fun b => negb (str_eqb (b_id b) (value_text v))) (pg_db st))).
Proof.
  intros Hv Ht. unfold undoBooking. rewrite Hv, Ht. cbn [negb].
  unfold delete_by_id. page_simpl.
  destruct (store_delete_fails (pg_db st) v) eqn:Hd.
  { page_simpl. split; [discriminate|]. intros e [= <-]. tauto. }
  page_simpl. destruct (pg_range st) as [[rs re]|].
  - destruct (loadBookingsForRange _ rs re) as [st1|] eqn:Hl.
    + apply loadBookingsForRange_some in Hl as [_ ->]. page_simpl.
      destruct (List.find _ (pg_games st)); page_simpl;
        (split; [intros _; repeat split; apply lookup_delete_eq | discriminate]).
    + page_simpl. split; [discriminate|]. intros e [= <-]. tauto.
  - page_simpl. split; [|discriminate].
    intros _. repeat split; apply lookup_delete_eq.
Qed.


End Reconciler.



(** The gate itself can be passed twice. The reload of [bookApproved]
    asks for [end_at] strictly before the end of the range, which is the
    end of the last fixture, so that fixture's own booking is never in the
    reloaded list: booking another fixture afterwards rebuilds [bookedMap]
    without it, its row offers the book action again, and on another pitch
    the store accepts a second linked booking. *)
Lemma gate_forgets_last_fixture :
  row_action page0 game_later = OfferBook true (VStr (js "p1"))
  /\ row_action page_row_later_booked game_later = OfferUndo
  /\ row_action page_row_later_booked game_stern = OfferBook true (VStr (js "p1"))
  /\ row_action page_rows_booked game_stern = OfferUndo
  /\ row_action (selectPitch page_rows_booked (js "late9") (js "p3")) game_later
     = OfferBook true (VStr (js "p3"))
  /\ map b_id (linked_to (js "late9") (pg_db page_rows_booked)) = [js "b0"]
  /\ map b_id (linked_to (js "late9") (pg_db page_rows_rebooked)) = [js "b0"; js "b2"].
Proof. repeat split; vm_compute; reflexivity. Qed.

(** A fixture id that names a member of [Object.prototype] reads as
    booked without any booking: the row offers undo, and the default pitch
    is the inherited member. *)
Lemma inherited_id_reads_as_booked :
  pg_db page0 = []
  /\ obj_get (pg_bookedMap page0) (js "constructor") = Some (VMember (js "constructor"))
  /\ row_action page0 game_constructor = OfferUndo
  /\ default_pitch [pitch_mitte; pitch_klein; pitch_rechts] (Some 14) [] game_constructor
     = Some (VMember (js "constructor")).
Proof. repeat split; vm_compute; reflexivity. Qed.

(** A reload that fails after the insert leaves the row written and
    unrecorded: the call ends with an error, the table has the new row,
    and the fixture's row offers book again. *)
Lemma failed_reload_leaves_row_unrecorded :
  pg_error (@bookApproved store_without_select page0 game_stern (js "p1")) = Some ErrStore
  /\ map b_id (pg_db (@bookApproved store_without_select page0 game_stern (js "p1")))
     = [js "b0"]
  /\ row_action (@bookApproved store_without_select page0 game_stern (js "p1")) game_stern
     = OfferBook true (VStr (js "p1")).
Proof. repeat split; vm_compute; reflexivity. Qed.

(** ** Line unfolding, continued *)

Lemma trimStart_not_hws (s : JsString) : starts_hws (trimStart s) = false.
Proof.
  induction s as [|c s IH]; simpl; [reflexivity|].
  destruct (is_ws c) eqn:E; [exact IH|].
  now apply starts_hws_not_ws.
Qed.

Lemma starts_hws_app (y x : JsString) :
  y <> [] -> starts_hws (y ++ x) = starts_hws y.
Proof. now destruct y. Qed.

Lemma unfold_step_no_continuation (out : list JsString) (line : JsString) :
  no_continuation out -> no_continuation (unfold_step out line).
Proof.
  unfold no_continuation, unfold_step. intros Hout.
  destruct (starts_hws line && negb (Nat.eqb (length out) 0)) eqn:E.
  - apply andb_true_iff in E as [_ Hne].
    destruct out as [|y o _] using rev_ind; [discriminate|].
    rewrite append_to_last_snoc.
    destruct o as [|z o]; [constructor|].
    simpl in *. apply Forall_app in Hout as [Ho Hy].
    apply Forall_app. split; [exact Ho|]. constructor; [|constructor].
    inversion Hy as [|? ? Hy' _]; subst.
    destruct y as [|c y]; [apply trimStart_not_hws|].
    now rewrite starts_hws_app.
  - destruct out as [|z o]; [constructor|].
    simpl in *. rewrite andb_true_r in E.
    apply Forall_app. split; [exact Hout|]. now repeat constructor.
Qed.

Lemma unfold_fold_no_continuation (lines out : list JsString) :
  no_continuation out -> no_continuation (fold_left unfold_step lines out).
Proof.
  revert out. induction lines as [|l lines IH]; intros out Hout; simpl; [exact Hout|].
  apply IH. now apply unfold_step_no_continuation.
Qed.

Lemma unfold_fold_plain (lines out : list JsString) :
  Forall (fun l => starts_hws l = false) (match out with [] => tl lines | _ => lines end) ->
  fold_left unfold_step lines out = out ++ lines.
Proof.
  revert out. induction lines as [|l lines IH]; intros out H; simpl.
  - now rewrite app_nil_r.
  - assert (Hstep : unfold_step out l = out ++ [l]).
    { unfold unfold_step. destruct out as [|z o].
      - now rewrite andb_false_r.
      - inversion H as [|? ? Hl _]; subst. now rewrite Hl. }
    rewrite Hstep, IH, <- app_assoc; [reflexivity|].
    destruct out as [|z o]; simpl in *; [exact H|].
    now inversion H.
Qed.

(** X1. After unfolding, no line but possibly the first starts with a
    space or a tab; lines that are already of that shape are left as they
    are, so unfolding twice is unfolding once. *)
Theorem unfold_leaves_no_continuation :
  forall (lines : list JsString),
    no_continuation (unfoldLines lines)
    /\ (no_continuation lines -> unfoldLines lines = lines)
    /\ unfoldLines (unfoldLines lines) = unfoldLines lines.
Proof.
  intros lines.
  assert (H1 : no_continuation (unfoldLines lines))
    by (apply unfold_fold_no_continuation; constructor).
  assert (H2 : forall ls, no_continuation ls -> unfoldLines ls = ls)
    by (intros ls Hls; unfold unfoldLines; now rewrite unfold_fold_plain).
  split; [exact H1|]. split; [apply H2|]. now apply H2.
Qed.

Lemma unfold_leaves_no_continuation_witness :
  unfoldLines [js " first"; js "SUMMARY:a"; js "UID:b"] = [js " first"; js "SUMMARY:a"; js "UID:b"].
Proof.
  apply (proj1 (proj2 (unfold_leaves_no_continuation
                         [js " first"; js "SUMMARY:a"; js "UID:b"]))).
  unfold no_continuation. simpl. repeat constructor.
Defined.

(** *** Splitting at one unit, and joining again *)

Lemma split_unit_sep (c : Z) (s : JsString) : split [c] (c :: s) = [] :: split [c] s.
Proof.
  unfold split. cbn [split_aux startsWith length Nat.sub]. now rewrite Z.eqb_refl.
Qed.

Lemma split_unit_other (c x : Z) (s h : JsString) (t : list JsString) :
  x <> c -> split [c] s = h :: t -> split [c] (x :: s) = (x :: h) :: t.
Proof.
  unfold split. intros Hx Hs. cbn [split_aux startsWith].
  replace (x =? c) with false by (symmetry; now apply Z.eqb_neq).
  cbn [andb]. now rewrite Hs.
Qed.

Lemma split_unit_nonempty (c : Z) (s : JsString) : exists h t, split [c] s = h :: t.
Proof.
  induction s as [|x s (h & t & IH)].
  - now exists [], [].
  - destruct (decide (x = c)) as [->|Hx].
    + rewrite split_unit_sep. eauto.
    + rewrite (split_unit_other c x s h t Hx IH). eauto.
Qed.

Lemma join_cons (sep p : JsString) (q : JsString) (ps : list JsString) :
  join sep (p :: q :: ps) = p ++ sep ++ join sep (q :: ps).
Proof. reflexivity. Qed.

Lemma join_split_unit (c : Z) (s : JsString) : join [c] (split [c] s) = s.
Proof.
  induction s as [|x s IH]; [reflexivity|].
  destruct (split_unit_nonempty c s) as (h & t & Hs).
  destruct (decide (x = c)) as [->|Hx].
  - rewrite split_unit_sep, Hs, join_cons, <- Hs, IH. reflexivity.
  - rewrite (split_unit_other c x s h t Hx Hs). rewrite Hs in IH.
    destruct t as [|q t].
    + simpl in *. now rewrite IH.
    + rewrite join_cons in *. now rewrite <- IH.
Qed.

Lemma split_unit_plain (c : Z) (l : JsString) :
  ~ In c l -> split [c] l = [l].
Proof.
  induction l as [|x l IH]; intros Hno; [reflexivity|].
  rewrite (split_unit_other c x l l []); [reflexivity| |].
  - intros ->. apply Hno. now left.
  - apply IH. intros H. apply Hno. now right.
Qed.

Lemma split_unit_app (c : Z) (l rest : JsString) :
  ~ In c l -> split [c] (l ++ c :: rest) = l :: split [c] rest.
Proof.
  induction l as [|x l IH]; intros Hno.
  - apply split_unit_sep.
  - simpl app. rewrite (split_unit_other c x _ l (split [c] rest)); [reflexivity| |].
    + intros ->. apply Hno. now left.
    + apply IH. intros H. apply Hno. now right.
Qed.

Lemma split_join_unit (c : Z) (ls : list JsString) :
  ls <> [] -> Forall (fun l => ~ In c l) ls -> split [c] (join [c] ls) = ls.
Proof.
  induction ls as [|l ls IH]; intros Hne Hall; [congruence|].
  inversion Hall as [|? ? Hl Hls]; subst.
  destruct ls as [|q ls].
  - simpl. now apply split_unit_plain.
  - rewrite join_cons.
    change ([c] ++ join [c] (q :: ls)) with (c :: join [c] (q :: ls)).
    rewrite split_unit_app by exact Hl. f_equal. now apply IH.
Qed.

Lemma value_after_colon_app (key v : JsString) :
  ~ In 58 key -> value_after_colon (key ++ 58 :: v) = trim v.
Proof.
  intros Hkey. unfold value_after_colon. change (js ":") with [58].
  rewrite split_unit_app by exact Hkey.
  replace (drop 1 (key :: split [58] v)) with (split [58] v) by reflexivity.
  now rewrite join_split_unit.
Qed.

Lemma value_after_colon_plain (key : JsString) :
  ~ In 58 key -> value_after_colon key = [].
Proof.
  intros Hkey. unfold value_after_colon. change (js ":") with [58].
  now rewrite split_unit_plain by exact Hkey.
Qed.

(** X2. The value of a [DTSTART]/[DTEND] line is what follows the first
    colon, trimmed: a parameter segment before that colon is dropped and
    colons inside the value are kept; a line without a colon has the empty
    value, which [parseDt] rejects. *)
Theorem value_is_after_first_colon :
  forall (tza : Z -> Z) (key v : JsString),
    ~ In 58 key ->
    value_after_colon (key ++ 58 :: v) = trim v
    /\ value_after_colon key = []
    /\ parseDt tza (value_after_colon key) = None.
Proof.
  intros tza key v Hkey.
  split; [now apply value_after_colon_app|].
  rewrite (value_after_colon_plain key Hkey). now split.
Qed.

Lemma value_is_after_first_colon_witness :
  value_after_colon (js "DTEND;TZID=Europe/Berlin" ++ 58 :: js " 20260222T160000 ")
  = trim (js " 20260222T160000 ").
Proof.
  apply (proj1 (value_is_after_first_colon utc_host (js "DTEND;TZID=Europe/Berlin")
                  (js " 20260222T160000 ") ltac:(vm_compute; intuition discriminate))).
Defined.

(** *** Line ends *)

Lemma replaceCRLF_plain (l : JsString) : ~ In 10 l -> replaceCRLF l = l.
Proof.
  induction l as [|c l IH]; intros Hno; [reflexivity|].
  destruct l as [|d l]; [reflexivity|].
  rewrite replaceCRLF_two.
  replace (d =? 10) with false
    by (symmetry; apply Z.eqb_neq; intros ->; apply Hno; right; now left).
  rewrite andb_false_r. f_equal. apply IH. intros H. apply Hno. now right.
Qed.

Lemma replaceCRLF_line_crlf (l rest : JsString) :
  ~ In 10 l -> replaceCRLF (l ++ 13 :: 10 :: rest) = l ++ 10 :: replaceCRLF rest.
Proof.
  induction l as [|c l IH]; intros Hno; [apply replaceCRLF_crlf|].
  assert (Hl : ~ In 10 l) by (intros H; apply Hno; now right).
  simpl app. destruct l as [|d l].
  - simpl app in *. rewrite replaceCRLF_two. rewrite andb_false_r.
    now rewrite IH.
  - simpl app in *. rewrite replaceCRLF_two.
    replace (d =? 10) with false
      by (symmetry; apply Z.eqb_neq; intros ->; apply Hl; now left).
    rewrite andb_false_r. now rewrite IH.
Qed.

Lemma replaceCRLF_line_lf (l rest : JsString) :
  ~ In 10 l -> last l <> Some 13 ->
  replaceCRLF (l ++ 10 :: rest) = l ++ 10 :: replaceCRLF rest.
Proof.
  intros Hno Hlast.
  rewrite (proj1 (replaceCRLF_app _ l) Hlast), (replaceCRLF_plain l Hno).
  now rewrite (replaceCRLF_cons 10) by discriminate.
Qed.

Lemma replaceCRLF_join_crlf (ls : list JsString) :
  Forall (fun l => ~ In 10 l) ls -> replaceCRLF (join [13; 10] ls) = join [10] ls.
Proof.
  induction ls as [|l ls IH]; intros Hall; [reflexivity|].
  inversion Hall as [|? ? Hl Hls]; subst.
  destruct ls as [|q ls]; [now apply replaceCRLF_plain|].
  rewrite (join_cons [13; 10]), (join_cons [10]).
  change ([13; 10] ++ join [13; 10] (q :: ls)) with (13 :: 10 :: join [13; 10] (q :: ls)).
  change ([10] ++ join [10] (q :: ls)) with (10 :: join [10] (q :: ls)).
  rewrite replaceCRLF_line_crlf by exact Hl. now rewrite IH.
Qed.

Lemma replaceCRLF_join_lf (ls : list JsString) :
  Forall (fun l => ~ In 10 l) ls -> Forall (fun l => last l <> Some 13) ls ->
  replaceCRLF (join [10] ls) = join [10] ls.
Proof.
  induction ls as [|l ls IH]; intros Hall Hcr; [reflexivity|].
  inversion Hall as [|? ? Hl Hls]; subst. inversion Hcr as [|? ? Hc Hcs]; subst.
  destruct ls as [|q ls]; [now apply replaceCRLF_plain|].
  rewrite (join_cons [10]).
  change ([10] ++ join [10] (q :: ls)) with (10 :: join [10] (q :: ls)).
  rewrite replaceCRLF_line_lf by assumption. now rewrite IH.
Qed.

(** X3. A feed given as lines (none holding a line feed) unfolds and
    parses the same whether the lines are joined by CRLF or, when no line
    ends in a carriage return, by LF alone: in both cases the wire lines
    are recovered exactly before unfolding. *)
Theorem line_ends_do_not_matter :
  forall (tza : Z -> Z) (ls : list JsString),
    ls <> [] -> Forall (fun l => ~ In 10 l) ls ->
    (unfoldIcsLines (join [13; 10] ls) = unfoldLines ls
     /\ parseIcs tza (join [13; 10] ls) = parseLines tza (unfoldLines ls))
    /\ (Forall (fun l => last l <> Some 13) ls ->
        unfoldIcsLines (join [10] ls) = unfoldLines ls
        /\ parseIcs tza (join [10] ls) = parseIcs tza (join [13; 10] ls)).
Proof.
  intros tza ls Hne Hall.
  assert (H1 : unfoldIcsLines (join [13; 10] ls) = unfoldLines ls).
  { unfold unfoldIcsLines. rewrite replaceCRLF_join_crlf by exact Hall.
    now rewrite split_join_unit. }
  split.
  - split; [exact H1|]. unfold parseIcs. now rewrite H1.
  - intros Hcr.
    assert (H2 : unfoldIcsLines (join [10] ls) = unfoldLines ls).
    { unfold unfoldIcsLines. rewrite replaceCRLF_join_lf by assumption.
      now rewrite split_join_unit. }
    split; [exact H2|]. unfold parseIcs. now rewrite H1, H2.
Qed.

Lemma line_ends_do_not_matter_witness :
  parseIcs utc_host (join [13; 10] [js "BEGIN:VEVENT"; js "UID:a"; js "SUMMARY:s";
                                    js "DTSTART:20260222T140000Z";
                                    js "DTEND:20260222T160000Z"; js "END:VEVENT"])
  = parseLines utc_host (unfoldLines [js "BEGIN:VEVENT"; js "UID:a"; js "SUMMARY:s";
                                      js "DTSTART:20260222T140000Z";
                                      js "DTEND:20260222T160000Z"; js "END:VEVENT"]).
Proof.
  apply (proj2 (proj1 (line_ends_do_not_matter utc_host
           [js "BEGIN:VEVENT"; js "UID:a"; js "SUMMARY:s"; js "DTSTART:20260222T140000Z";
            js "DTEND:20260222T160000Z"; js "END:VEVENT"]
           ltac:(discriminate)
           ltac:(repeat constructor; vm_compute; intuition discriminate)))).
Defined.

(** ** Calendar parser, continued *)

Lemma parseDt_stamp (tza : Z -> Z) (f : StampFields) :
  stamp_ok f ->
  parseDt tza (stamp_text f ++ js "Z") = Some (stamp_utc f)
  /\ parseDt tza (stamp_text f) = Some (stamp_utc f - tza (stamp_utc f)).
Proof.
  destruct f as [Y Mo D H Mi S]. unfold stamp_ok, stamp_text, stamp_utc.
  cbn [sf_Y sf_Mo sf_D sf_H sf_Mi sf_S].
  intros (HY & HMo & HD & HH & HMi & HS & Hdig).
  destruct Y as [|y1 [|y2 [|y3 [|y4 [|]]]]]; try discriminate.
  destruct Mo as [|m1 [|m2 [|]]]; try discriminate.
  destruct D as [|d1 [|d2 [|]]]; try discriminate.
  destruct H as [|h1 [|h2 [|]]]; try discriminate.
  destruct Mi as [|i1 [|i2 [|]]]; try discriminate.
  destruct S as [|s1 [|s2 [|]]]; try discriminate.
  unfold parseDt. change (js "T") with [84]. change (js "Z") with [90].
  split.
  - cbn [app length Nat.leb firstn skipn take drop andb]. cbn [app] in Hdig. rewrite Hdig.
    reflexivity.
  - cbn [app length Nat.leb firstn skipn take drop andb]. cbn [app] in Hdig. rewrite Hdig.
    reflexivity.
Qed.

(** X4. [parseDt] accepts every text of the compact form, whatever the
    values of the fields (no range is checked); with the suffix "Z" the
    result is the UTC instant of the fields and does not depend on the
    host's zone, without it the same instant less the host's offset. *)
Theorem parseDt_accepts_compact_form :
  forall (tza : Z -> Z) (f : StampFields),
    stamp_ok f ->
    parseDt tza (stamp_text f ++ js "Z") = Some (stamp_utc f)
    /\ parseDt tza (stamp_text f) = Some (stamp_utc f - tza (stamp_utc f))
    /\ (forall tza', parseDt tza' (stamp_text f ++ js "Z") = parseDt tza (stamp_text f ++ js "Z")).
Proof.
  intros tza f Hf. destruct (parseDt_stamp tza f Hf) as [H1 H2].
  split; [exact H1|]. split; [exact H2|].
  intros tza'. now rewrite H1, (proj1 (parseDt_stamp tza' f Hf)).
Qed.

Lemma parseDt_accepts_compact_form_witness :
  parseDt (fun _ => 3600000) (js "20261399T256199" ++ js "Z") = Some 1807322559000.
Proof.
  apply (proj1 (parseDt_accepts_compact_form (fun _ => 3600000)
                  {| sf_Y := js "2026"; sf_Mo := js "13"; sf_D := js "99";
                     sf_H := js "25"; sf_Mi := js "61"; sf_S := js "99" |}
                  ltac:(repeat split))).
Defined.

Lemma no_colon_in_key (k p : JsString) :
  ~ In 58 k -> ~ In 58 p -> ~ In 58 (k ++ p).
Proof. intros Hk Hp H. apply in_app_iff in H. tauto. Qed.

Lemma js_DTSTART_no_colon : ~ In 58 (js "DTSTART").
Proof. vm_compute. intuition discriminate. Qed.

Lemma js_DTEND_no_colon : ~ In 58 (js "DTEND").
Proof. vm_compute. intuition discriminate. Qed.

(** X5. A record with its five fields in the usual order gives exactly
    one fixture: identifier, summary and venue are the trimmed texts after
    the keywords (an empty venue is null), start and end are what
    [parseDt] reads from the trimmed text after the first colon of the
    time lines, and the classification is still unknown. *)
Theorem record_parses_to_its_fields :
  forall (tza : Z -> Z) (u s loc p1 ts p2 te : JsString) (a b : Z),
    trim u <> [] -> trim s <> [] ->
    ~ In 58 p1 -> ~ In 58 p2 ->
    parseDt tza (trim ts) = Some a -> parseDt tza (trim te) = Some b ->
    parseLines tza (record_lines u s loc p1 ts p2 te)
    = [{| g_uid := trim u; g_summary := trim s; g_start := a; g_end := b;
          g_location := if nonempty (trim loc) then Some (trim loc) else None;
          g_isHome := None |}].
Proof.
  intros tza u s loc p1 ts p2 te a b Hu Hs Hp1 Hp2 Ha Hb.
  unfold parseLines, record_lines. cbn [fold_left].
  assert (E1 : parse_step tza parse_init (js "BEGIN:VEVENT")
               = {| ps_games := []; ps_inEvent := true; ps_uid := []; ps_summary := [];
                    ps_location := []; ps_dtStart := None; ps_dtEnd := None |})
    by reflexivity.
  rewrite E1. clear E1.
  assert (E2 : forall st, ps_inEvent st = true ->
            parse_step tza st (js "UID:" ++ u)
            = {| ps_games := ps_games st; ps_inEvent := ps_inEvent st; ps_uid := trim u;
                 ps_summary := ps_summary st; ps_location := ps_location st;
                 ps_dtStart := ps_dtStart st; ps_dtEnd := ps_dtEnd st |}).
  { intros st Hst. unfold parse_step. rewrite Hst. reflexivity. }
  rewrite E2 by reflexivity. clear E2. cbn [ps_games ps_inEvent ps_uid ps_summary
    ps_location ps_dtStart ps_dtEnd].
  assert (E3 : forall st, ps_inEvent st = true ->
            parse_step tza st (js "SUMMARY:" ++ s)
            = {| ps_games := ps_games st; ps_inEvent := ps_inEvent st; ps_uid := ps_uid st;
                 ps_summary := trim s; ps_location := ps_location st;
                 ps_dtStart := ps_dtStart st; ps_dtEnd := ps_dtEnd st |}).
  { intros st Hst. unfold parse_step. rewrite Hst. reflexivity. }
  rewrite E3 by reflexivity. clear E3. cbn [ps_games ps_inEvent ps_uid ps_summary
    ps_location ps_dtStart ps_dtEnd].
  assert (E4 : forall st, ps_inEvent st = true ->
            parse_step tza st (js "LOCATION:" ++ loc)
            = {| ps_games := ps_games st; ps_inEvent := ps_inEvent st; ps_uid := ps_uid st;
                 ps_summary := ps_summary st; ps_location := trim loc;
                 ps_dtStart := ps_dtStart st; ps_dtEnd := ps_dtEnd st |}).
  { intros st Hst. unfold parse_step. rewrite Hst. reflexivity. }
  rewrite E4 by reflexivity. clear E4. cbn [ps_games ps_inEvent ps_uid ps_summary
    ps_location ps_dtStart ps_dtEnd].
  assert (E5 : forall st, ps_inEvent st = true ->
            parse_step tza st (js "DTSTART" ++ p1 ++ 58 :: ts)
            = {| ps_games := ps_games st; ps_inEvent := ps_inEvent st; ps_uid := ps_uid st;
                 ps_summary := ps_summary st; ps_location := ps_location st;
                 ps_dtStart := Some a; ps_dtEnd := ps_dtEnd st |}).
  { intros st Hst.
    assert (Hv : value_after_colon (js "DTSTART" ++ p1 ++ 58 :: ts) = trim ts).
    { rewrite app_assoc. apply value_after_colon_app.
      apply no_colon_in_key; [apply js_DTSTART_no_colon | exact Hp1]. }
    rewrite <- Ha, <- Hv. unfold parse_step. rewrite Hst. reflexivity. }
  rewrite E5 by reflexivity. clear E5. cbn [ps_games ps_inEvent ps_uid ps_summary
    ps_location ps_dtStart ps_dtEnd].
  assert (E6 : forall st, ps_inEvent st = true ->
            parse_step tza st (js "DTEND" ++ p2 ++ 58 :: te)
            = {| ps_games := ps_games st; ps_inEvent := ps_inEvent st; ps_uid := ps_uid st;
                 ps_summary := ps_summary st; ps_location := ps_location st;
                 ps_dtStart := ps_dtStart st; ps_dtEnd := Some b |}).
  { intros st Hst.
    assert (Hv : value_after_colon (js "DTEND" ++ p2 ++ 58 :: te) = trim te).
    { rewrite app_assoc. apply value_after_colon_app.
      apply no_colon_in_key; [apply js_DTEND_no_colon | exact Hp2]. }
    rewrite <- Hb, <- Hv. unfold parse_step. rewrite Hst. reflexivity. }
  rewrite E6 by reflexivity. clear E6. cbn [ps_games ps_inEvent ps_uid ps_summary
    ps_location ps_dtStart ps_dtEnd].
  rewrite parse_step_games. replace (is_begin (js "END:VEVENT")) with false by reflexivity.
  replace (is_end (js "END:VEVENT")) with true by reflexivity.
  cbn [negb andb ps_games app]. unfold emit.
  cbn [ps_games ps_inEvent ps_uid ps_summary ps_location ps_dtStart ps_dtEnd andb].
  apply nonempty_true in Hu, Hs. now rewrite Hu, Hs.
Qed.

Lemma record_parses_to_its_fields_witness :
  parseLines utc_host
    (record_lines (js " abc123") (js "FC Stern - SV Gegner, Kreisliga ") []
                  (js ";TZID=Europe/Berlin") (js "20260222T140000Z") []
                  (js "20260222T160000Z"))
  = [game_stern].
Proof.
  apply (record_parses_to_its_fields utc_host (js " abc123")
           (js "FC Stern - SV Gegner, Kreisliga ") []
           (js ";TZID=Europe/Berlin") (js "20260222T140000Z") []
           (js "20260222T160000Z") 1771768800000 1771776000000).
  - vm_compute. discriminate.
  - vm_compute. discriminate.
  - vm_compute. intuition discriminate.
  - simpl. tauto.
  - reflexivity.
  - reflexivity.
Defined.

Lemma end_is_not_begin (line : JsString) : is_end line = true -> is_begin line = false.
Proof.
  unfold is_end, is_begin. destruct line as [|c line]; [discriminate|].
  change (js "END:VEVENT") with (69 :: js "ND:VEVENT").
  change (js "BEGIN:VEVENT") with (66 :: js "EGIN:VEVENT").
  cbn [startsWith]. destruct (c =? 69) eqn:E; [|discriminate].
  apply Z.eqb_eq in E. subst. reflexivity.
Qed.

Lemma emit_alike (st st' : ParseState) :
  ps_inEvent st = ps_inEvent st' -> ps_uid st = ps_uid st' ->
  ps_summary st = ps_summary st' -> ps_location st = ps_location st' ->
  ps_dtStart st = ps_dtStart st' -> ps_dtEnd st = ps_dtEnd st' ->
  emit st = emit st'.
Proof. unfold emit. now intros -> -> -> -> -> ->. Qed.

Lemma alike_step (tza : Z -> Z) (G : list IcsGame) (st st' : ParseState) (line : JsString) :
  alike G st st' -> alike G (parse_step tza st line) (parse_step tza st' line).
Proof.
  intros [Hg Hst]. unfold alike. rewrite !parse_step_games, Hg, <- app_assoc.
  destruct Hst as [[Hc Hc'] | (Hi & Hu & Hs & Hl & Ha & Hb)].
  - rewrite (emit_none st), (emit_none st') by tauto.
    split; [reflexivity|].
    unfold parse_step. rewrite Hc, Hc'. cbn [negb].
    destruct (startsWith line (js "BEGIN:VEVENT")); [right; repeat split|].
    destruct (startsWith line (js "END:VEVENT")); [left; now split|].
    left. now split.
  - rewrite (emit_alike st st') by assumption.
    split; [reflexivity|]. right.
    unfold parse_step. rewrite Hi.
    destruct (startsWith line (js "BEGIN:VEVENT")); [repeat split|].
    destruct (startsWith line (js "END:VEVENT"));
      [cbn [ps_inEvent ps_uid ps_summary ps_location ps_dtStart ps_dtEnd]; tauto|].
    destruct (ps_inEvent st') eqn:Hin; cbn [negb]; [|repeat split; congruence].
    repeat match goal with
           | |- context [if startsWith ?l ?p then _ else _] =>
               destruct (startsWith l p);
               [cbn [ps_inEvent ps_uid ps_summary ps_location ps_dtStart ps_dtEnd];
                repeat split; congruence|]
           end.
    repeat split; congruence.
Qed.

Lemma alike_fold (tza : Z -> Z) (G : list IcsGame) (lines : list JsString)
    (st st' : ParseState) :
  alike G st st' ->
  alike G (fold_left (parse_step tza) lines st) (fold_left (parse_step tza) lines st').
Proof.
  revert st st'. induction lines as [|l lines IH]; intros st st' H; simpl; [exact H|].
  apply IH. now apply alike_step.
Qed.

Lemma parse_step_end_closed (tza : Z -> Z) (st : ParseState) (e : JsString) :
  is_end e = true -> ps_inEvent (parse_step tza st e) = false.
Proof.
  intros He. pose proof (end_is_not_begin e He) as Hb.
  unfold parse_step, is_begin, is_end in *. now rewrite Hb, He.
Qed.

(** X6. Records are parsed on their own: cutting the lines after an end
    line, the fixtures of the whole are the fixtures of the first part
    followed by the fixtures of the second part, so no field of a closed
    record reaches a later one. *)
Theorem parse_is_record_wise :
  forall (tza : Z -> Z) (l1 : list JsString) (e : JsString) (l2 : list JsString),
    is_end e = true ->
    parseLines tza (l1 ++ e :: l2) = parseLines tza (l1 ++ [e]) ++ parseLines tza l2.
Proof.
  intros tza l1 e l2 He. unfold parseLines.
  change (l1 ++ e :: l2) with (l1 ++ [e] ++ l2).
  rewrite app_assoc, (fold_left_app _ (l1 ++ [e]) l2).
  set (st := fold_left (parse_step tza) (l1 ++ [e]) parse_init).
  assert (Hclosed : ps_inEvent st = false).
  { unfold st. rewrite fold_left_app. cbn [fold_left].
    now apply parse_step_end_closed. }
  assert (H : alike (ps_games st) st parse_init).
  { split; [now rewrite app_nil_r|]. left. now split. }
  apply (alike_fold tza _ l2) in H. exact (proj1 H).
Qed.

Lemma parse_is_record_wise_witness :
  parseLines utc_host ([js "BEGIN:VEVENT"; js "UID:x"] ++ js "END:VEVENT" :: [js "SUMMARY:y"])
  = parseLines utc_host ([js "BEGIN:VEVENT"; js "UID:x"] ++ [js "END:VEVENT"])
    ++ parseLines utc_host [js "SUMMARY:y"].
Proof.
  apply (parse_is_record_wise utc_host [js "BEGIN:VEVENT"; js "UID:x"] (js "END:VEVENT")
           [js "SUMMARY:y"] eq_refl).
Defined.

(** ** Normalization and match tokens *)

Lemma word_or_space_cases (c : Z) :
  word_or_space c = true -> c = 32 \/ (48 <= c <= 57) \/ (97 <= c <= 122).
Proof.
  unfold word_or_space, is_lower_alnum, is_digit. lia.
Qed.

Lemma word_not_ws (c : Z) : word_or_space c = true -> is_ws c = true -> c = 32.
Proof.
  intros Hw Hs. apply word_or_space_cases in Hw.
  destruct Hw as [-> | [H | H]]; [reflexivity | |];
    unfold is_ws in Hs; lia.
Qed.

Lemma is_ws_32 : is_ws 32 = true.
Proof. reflexivity. Qed.

(** Output of the two run replacements. *)
Lemma runs_alnum_chars (b : bool) (s : JsString) :
  forallb word_or_space
    (replace_runs_aux (fun c => negb (is_lower_alnum c)) (js " ") b s) = true.
Proof.
  revert b. induction s as [|c s IH]; intros b; [reflexivity|].
  cbn [replace_runs_aux]. destruct (is_lower_alnum c) eqn:E; cbn [negb].
  - cbn [forallb]. unfold word_or_space at 1. rewrite E. apply IH.
  - rewrite forallb_app, IH. now destruct b.
Qed.

Lemma runs_ws_chars (b : bool) (s : JsString) :
  forallb word_or_space s = true ->
  forallb word_or_space (replace_runs_aux is_ws (js " ") b s) = true.
Proof.
  revert b. induction s as [|c s IH]; intros b Hs; [reflexivity|].
  cbn [forallb] in Hs. apply andb_true_iff in Hs as [Hc Hs].
  cbn [replace_runs_aux]. destruct (is_ws c).
  - rewrite forallb_app, (IH _ Hs). now destruct b.
  - cbn [forallb]. now rewrite Hc, IH.
Qed.

Lemma no_double_space_two (c d : Z) (s : JsString) :
  no_double_space (c :: d :: s)
  = negb ((c =? 32) && (d =? 32)) && no_double_space (d :: s).
Proof. reflexivity. Qed.

Lemma no_double_space_cons (c : Z) (s : JsString) :
  no_double_space s = true -> (c = 32 -> head s <> Some 32) ->
  no_double_space (c :: s) = true.
Proof.
  intros Hs Hc. destruct s as [|d s]; [reflexivity|].
  rewrite no_double_space_two, Hs, andb_true_r.
  apply negb_true_iff, andb_false_iff.
  destruct (c =? 32) eqn:E; [right | now left].
  apply Z.eqb_eq in E. apply Z.eqb_neq. intros ->. now apply (Hc E).
Qed.

Lemma runs_ws_single (b : bool) (s : JsString) :
  no_double_space (replace_runs_aux is_ws (js " ") b s) = true
  /\ (b = true -> head (replace_runs_aux is_ws (js " ") b s) <> Some 32).
Proof.
  revert b. induction s as [|c s IH]; intros b; [now split|].
  cbn [replace_runs_aux]. destruct (is_ws c) eqn:E.
  - destruct (IH true) as [Hn Hh]. destruct b.
    + split; [exact Hn | intros _; now apply Hh].
    + split; [|discriminate]. change (js " " ++ ?x) with (32 :: x).
      apply no_double_space_cons; [exact Hn | intros _; now apply Hh].
  - destruct (IH false) as [Hn _].
    assert (Hc : c <> 32) by (intros ->; discriminate).
    split.
    + apply no_double_space_cons; [exact Hn | congruence].
    + intros _. simpl. congruence.
Qed.

(** Parts of a text keep its shape. *)
Lemma no_double_space_app (a b : JsString) :
  no_double_space (a ++ b) = true ->
  no_double_space a = true /\ no_double_space b = true.
Proof.
  induction a as [|c a IH]; intros H; [now split|].
  destruct a as [|d a].
  - split; [reflexivity|]. destruct b as [|e b]; [reflexivity|].
    simpl app in H. rewrite no_double_space_two in H.
    now apply andb_true_iff in H as [_ H].
  - simpl app in *. rewrite no_double_space_two in H.
    apply andb_true_iff in H as [H1 H2]. destruct (IH H2) as [Ha Hb].
    split; [|exact Hb]. now rewrite no_double_space_two, H1, Ha.
Qed.

Lemma trimStart_suffix (s : JsString) :
  exists p, s = p ++ trimStart s /\ forallb is_ws p = true.
Proof.
  induction s as [|c s (p & Hp & Hws)]; [now exists []|].
  simpl. destruct (is_ws c) eqn:E.
  - exists (c :: p). simpl. rewrite E, Hws. split; [now f_equal | reflexivity].
  - now exists [].
Qed.

Lemma trimStart_head (s : JsString) (c : Z) :
  head (trimStart s) = Some c -> is_ws c = false.
Proof.
  induction s as [|x s IH]; simpl; [discriminate|].
  destruct (is_ws x) eqn:E; [exact IH|]. simpl. now intros [= <-].
Qed.

Lemma last_rev (t : JsString) : last (rev t) = head t.
Proof. destruct t as [|c t]; [reflexivity|]. simpl. apply last_snoc. Qed.

Lemma trimEnd_prefix (s : JsString) : exists q, s = trimEnd s ++ q.
Proof.
  unfold trimEnd. destruct (trimStart_suffix (rev s)) as (p & Hp & _).
  exists (rev p). rewrite <- rev_app_distr, <- Hp. now rewrite rev_involutive.
Qed.

Lemma trimEnd_last (s : JsString) (c : Z) :
  last (trimEnd s) = Some c -> is_ws c = false.
Proof. unfold trimEnd. rewrite last_rev. apply trimStart_head. Qed.

Lemma trimStart_id (s : JsString) :
  (forall c, head s = Some c -> is_ws c = false) -> trimStart s = s.
Proof.
  destruct s as [|c s]; [reflexivity|]. intros H. simpl. now rewrite (H c).
Qed.

Lemma trimEnd_id (s : JsString) :
  (forall c, last s = Some c -> is_ws c = false) -> trimEnd s = s.
Proof.
  intros H. unfold trimEnd. rewrite trimStart_id.
  - apply rev_involutive.
  - intros c Hc. apply H. now rewrite <- (rev_involutive s), last_rev.
Qed.

Lemma trim_normal (s : JsString) :
  forallb word_or_space s = true -> no_double_space s = true ->
  normal_text (trim s).
Proof.
  intros Hw Hn. unfold trim.
  destruct (trimStart_suffix s) as (p & Hp & _).
  destruct (trimEnd_prefix (trimStart s)) as (q & Hq).
  set (t := trimEnd (trimStart s)) in *.
  assert (Hs : s = p ++ t ++ q) by (now rewrite <- Hq).
  rewrite Hs in Hw, Hn. rewrite !forallb_app in Hw.
  apply andb_true_iff in Hw as [_ Hw]. apply andb_true_iff in Hw as [Hw _].
  apply no_double_space_app in Hn as [_ Hn]. apply no_double_space_app in Hn as [Hn _].
  repeat split; try assumption.
  - intros Hh. assert (Hhd : head (trimStart s) = Some 32).
    { rewrite Hq. destruct t as [|c t']; [discriminate | exact Hh]. }
    now apply trimStart_head in Hhd.
  - intros Hl. now apply trimEnd_last in Hl.
Qed.

Lemma normalize_normal (s : JsString) : normal_text (normalizeForMatch s).
Proof.
  unfold normalizeForMatch, replace_runs. apply trim_normal.
  - apply runs_ws_chars, runs_alnum_chars.
  - apply runs_ws_single.
Qed.

(** Normal text passes every step unchanged. *)
Lemma lower_unit_word (c : Z) : word_or_space c = true -> lower_unit c = c.
Proof.
  intros H. apply word_or_space_cases in H. unfold lower_unit.
  destruct H as [-> | [H | H]]; [reflexivity | |].
  - replace ((65 <=? c) && (c <=? 90)) with false by lia.
    now replace ((192 <=? c) && (c <=? 222) && negb (c =? 215)) with false by lia.
  - replace ((65 <=? c) && (c <=? 90)) with false by lia.
    now replace ((192 <=? c) && (c <=? 222) && negb (c =? 215)) with false by lia.
Qed.

Lemma nfkd_unit_word (c : Z) : word_or_space c = true -> nfkd_unit c = [c].
Proof.
  intros H. apply word_or_space_cases in H.
  assert (Hall : forallb (fun n => str_eqb (nfkd_unit (Z.of_nat n)) [Z.of_nat n])
                         (seq 0 128) = true) by (vm_compute; reflexivity).
  rewrite forallb_forall in Hall.
  specialize (Hall (Z.to_nat c)). rewrite Z2Nat.id in Hall by lia.
  apply str_eqb_true, Hall, in_seq. lia.
Qed.

Lemma map_id_on {A : Type} (f : A -> A) (l : list A) :
  Forall (fun x => f x = x) l -> map f l = l.
Proof. induction 1 as [|x l Hx _ IH]; simpl; [reflexivity | now rewrite Hx, IH]. Qed.

Lemma concat_map_unit (f : Z -> JsString) (l : JsString) :
  Forall (fun x => f x = [x]) l -> concat (map f l) = l.
Proof. induction 1 as [|x l Hx _ IH]; simpl; [reflexivity | now rewrite Hx, IH]. Qed.

Lemma forallb_Forall_word (s : JsString) :
  forallb word_or_space s = true -> Forall (fun c => word_or_space c = true) s.
Proof. intros H. apply Forall_forall. intros c Hc. apply list_elem_of_In in Hc.
  now apply (proj1 (forallb_forall _ _) H). Qed.

Lemma runs_id (cls : Z -> bool) (b : bool) (s : JsString) :
  (forall c, In c s -> cls c = true -> c = 32) -> cls 32 = true ->
  no_double_space s = true -> (b = true -> head s <> Some 32) ->
  replace_runs_aux cls (js " ") b s = s.
Proof.
  intros Hcls H32. revert b. induction s as [|c s IH]; intros b Hn Hb; [reflexivity|].
  cbn [replace_runs_aux].
  assert (Hs : forall c, In c s -> cls c = true -> c = 32)
    by (intros x Hx; apply Hcls; now right).
  assert (Hn' : no_double_space s = true)
    by (change (c :: s) with ([c] ++ s) in Hn; now apply no_double_space_app in Hn).
  destruct (cls c) eqn:E.
  - assert (c = 32) by (apply Hcls; [now left | exact E]). subst c.
    destruct b; [exfalso; now apply Hb|].
    change (js " " ++ ?x) with (32 :: x). f_equal.
    apply (IH Hs true Hn'). intros _ Hh.
    destruct s as [|d s]; [discriminate|]. simpl in Hh. injection Hh as ->.
    rewrite no_double_space_two in Hn. discriminate.
  - f_equal. apply (IH Hs false Hn'). discriminate.
Qed.

Lemma normalize_id (s : JsString) : normal_text s -> normalizeForMatch s = s.
Proof.
  intros (Hw & Hn & Hh & Hl). pose proof (forallb_Forall_word s Hw) as HW.
  unfold normalizeForMatch.
  assert (E1 : toLowerCase s = s).
  { apply map_id_on. eapply Forall_impl; [exact HW|]. apply lower_unit_word. }
  assert (E2 : normalizeNFKD s = s).
  { apply concat_map_unit. eapply Forall_impl; [exact HW|]. apply nfkd_unit_word. }
  assert (E3 : strip_combining s = s).
  { apply replace_units_none. eapply Forall_impl; [exact HW|].
    intros c Hc. apply word_or_space_cases in Hc. unfold is_combining_mark. lia. }
  assert (E4 : replace_umlauts s = s).
  { unfold replace_umlauts.
    rewrite (replace_units_none (Z.eqb 228)), (replace_units_none (Z.eqb 246)),
            (replace_units_none (Z.eqb 252)), (replace_units_none (Z.eqb 223));
      try reflexivity;
      (eapply Forall_impl; [exact HW|]); intros c Hc;
      apply word_or_space_cases in Hc; lia. }
  rewrite E1, E2, E3, E4. unfold replace_runs.
  rewrite (runs_id (fun c => negb (is_lower_alnum c))); try assumption; try discriminate.
  - rewrite (runs_id is_ws); try assumption; try discriminate; try reflexivity.
    + unfold trim. rewrite trimStart_id.
      * apply trimEnd_id. intros c Hc. destruct (is_ws c) eqn:E; [|reflexivity].
        exfalso. apply Hl. rewrite Hc. f_equal. apply word_not_ws; [|exact E].
        apply (proj1 (forallb_forall _ _) Hw).
        destruct s as [|x s] using rev_ind; [discriminate|].
        rewrite last_snoc in Hc. injection Hc as ->. apply in_app_iff. right. now left.
      * intros c Hc. destruct (is_ws c) eqn:E; [|reflexivity].
        exfalso. apply Hh. rewrite Hc. f_equal. apply word_not_ws; [|exact E].
        destruct s as [|x s]; [discriminate|]. simpl in Hc. injection Hc as ->.
        cbn [forallb] in Hw. now apply andb_true_iff in Hw as [Hw _].
    + intros c Hc. apply word_not_ws. now apply (proj1 (forallb_forall _ _) Hw).
  - intros c Hc Hcls. apply (proj1 (forallb_forall _ _) Hw) in Hc.
    unfold word_or_space in Hc. apply negb_true_iff in Hcls. rewrite Hcls in Hc.
    simpl in Hc. now apply Z.eqb_eq.
  - reflexivity.
Qed.

(** X7. The normalized text is made of lower-case letters and digits in
    words separated by single spaces, with no space at either end, and
    normalizing such a text changes nothing: normalizing twice is
    normalizing once. *)
Theorem normalize_is_idempotent :
  forall (s : JsString),
    normal_text (normalizeForMatch s)
    /\ normalizeForMatch (normalizeForMatch s) = normalizeForMatch s.
Proof.
  intros s. split; [apply normalize_normal|].
  apply normalize_id, normalize_normal.
Qed.

Lemma mem_str_In (w : JsString) (l : list JsString) : mem_str w l = true <-> In w l.
Proof.
  unfold mem_str. rewrite existsb_exists. split.
  - intros (x & Hx & Hw). apply str_eqb_true in Hw. now subst.
  - intros H. exists w. split; [exact H | apply str_eqb_refl].
Qed.

Lemma dedupe_spec (seen l : list JsString) :
  NoDup (dedupe seen l)
  /\ (forall w, In w (dedupe seen l) <-> In w l /\ ~ In w seen).
Proof.
  revert seen. induction l as [|x l IH]; intros seen.
  - split; [constructor | simpl; tauto].
  - simpl. destruct (mem_str x seen) eqn:E.
    + apply mem_str_In in E. destruct (IH seen) as [Hn Hin]. split; [exact Hn|].
      intros w. rewrite Hin. split; [tauto|]. intros [[-> | H] Hs]; tauto.
    + assert (Hx : ~ In x seen) by (rewrite <- mem_str_In; congruence).
      destruct (IH (x :: seen)) as [Hn Hin]. split.
      * apply NoDup_cons. split; [|exact Hn].
        rewrite list_elem_of_In, Hin. simpl. tauto.
      * intros w. simpl. rewrite Hin. simpl.
        destruct (decide (x = w)) as [->|Hne]; tauto.
Qed.

(** The pieces of a split hold the text's units, the separator apart. *)
Lemma split_unit_pieces (c : Z) (s w : JsString) (x : Z) :
  In w (split [c] s) -> In x w -> In x s /\ x <> c.
Proof.
  revert w. induction s as [|y s IH]; intros w Hw Hx.
  - simpl in Hw. destruct Hw as [<- | []]. destruct Hx.
  - destruct (split_unit_nonempty c s) as (h & t & Hs).
    destruct (decide (y = c)) as [->|Hy].
    + rewrite split_unit_sep in Hw. destruct Hw as [<- | Hw]; [destruct Hx|].
      destruct (IH w Hw Hx). split; [now right | assumption].
    + rewrite (split_unit_other c y s h t Hy Hs) in Hw. rewrite Hs in IH.
      destruct Hw as [<- | Hw].
      * destruct Hx as [<- | Hx]; [split; [now left | exact Hy]|].
        destruct (IH h (or_introl eq_refl) Hx). split; [now right | assumption].
      * destruct (IH w (or_intror Hw) Hx). split; [now right | assumption].
Qed.

Lemma tokens_of_name (n w : JsString) :
  In w (List.filter keep_token (split (js " ") (normalizeForMatch n))) ->
  keep_token w = true /\ forallb is_lower_alnum w = true.
Proof.
  intros H. apply filter_In in H as [Hw Hk]. split; [exact Hk|].
  apply forallb_forall. intros x Hx.
  change (js " ") with [32] in Hw.
  destruct (split_unit_pieces 32 _ w x Hw Hx) as [Hin Hne].
  destruct (normalize_normal n) as (Hall & _).
  apply (proj1 (forallb_forall _ _) Hall) in Hin.
  unfold word_or_space in Hin. apply orb_true_iff in Hin as [H|H]; [exact H|].
  apply Z.eqb_eq in H. contradiction.
Qed.

Lemma keep_token_spec (w : JsString) :
  keep_token w = true ->
  (3 <= length w)%nat /\ ~ In w STOPWORDS /\ is_age_token w = false.
Proof.
  unfold keep_token. rewrite !andb_true_iff, !negb_true_iff.
  intros (((_ & Hs) & Ha) & Hl). apply Nat.ltb_ge in Hl.
  repeat split; try assumption. rewrite <- mem_str_In. congruence.
Qed.

(** X8. The match tokens are pairwise different; each has at least three
    units, all of them lower-case letters or digits, is none of the stop
    words and is not an age tag ("u" and one or two digits). *)
Theorem tokens_are_distinct_words :
  forall (names : list JsString),
    NoDup (buildMatchTokens names)
    /\ Forall (fun w => (3 <= length w)%nat /\ ~ In w STOPWORDS
                        /\ is_age_token w = false
                        /\ forallb is_lower_alnum w = true)
              (buildMatchTokens names).
Proof.
  intros names. unfold buildMatchTokens.
  destruct (dedupe_spec [] (concat (map (fun n => List.filter keep_token
              (split (js " ") (normalizeForMatch n))) names))) as [Hn Hin].
  split; [exact Hn|]. apply Forall_forall. intros w Hw.
  apply list_elem_of_In, Hin in Hw as [Hw _].
  apply in_concat in Hw as (l & Hl & Hw).
  apply in_map_iff in Hl as (n & <- & _).
  apply tokens_of_name in Hw as [Hk Ha].
  apply keep_token_spec in Hk. tauto.
Qed.

Lemma dedupe_nil (seen l : list JsString) : l = [] -> dedupe seen l = [].
Proof. now intros ->. Qed.

Lemma filter_none {A : Type} (f : A -> bool) (l : list A) :
  Forall (fun x => f x = false) l -> List.filter f l = [].
Proof. induction 1 as [|x l Hx _ IH]; simpl; [reflexivity | now rewrite Hx]. Qed.

Lemma concat_all_nil {A : Type} (ls : list (list A)) :
  Forall (fun l => l = []) ls -> concat ls = [].
Proof. induction 1 as [|l ls -> _ IH]; simpl; [reflexivity | exact IH]. Qed.

Lemma classify_no_tokens (g : IcsGame) : classify [] g = None.
Proof.
  unfold classify, matchSide. cbn [has_tokens length Nat.eqb negb andb].
  now destruct (splitHomeAway (g_summary g)) as [[l r]|].
Qed.

(** X9. When every word of the club and team names is a stop word, an age
    tag or shorter than three units, there is no match token and every
    fixture is classified unknown, whatever its summary and venue. *)
Theorem no_tokens_means_unknown :
  forall (names : list JsString),
    Forall (fun n => Forall (fun w => keep_token w = false)
                            (split (js " ") (normalizeForMatch n))) names ->
    buildMatchTokens names = []
    /\ forall g, classify (buildMatchTokens names) g = None.
Proof.
  intros names Hall.
  assert (E : buildMatchTokens names = []).
  { unfold buildMatchTokens. apply dedupe_nil, concat_all_nil.
    apply Forall_forall. intros l Hl. apply list_elem_of_In, in_map_iff in Hl as (n & <- & Hn).
    apply filter_none. rewrite Forall_forall in Hall. apply Hall.
    now apply list_elem_of_In. }
  split; [exact E|]. intros g. rewrite E. apply classify_no_tokens.
Qed.

Lemma no_tokens_means_unknown_witness :
  classify (buildMatchTokens [js "FC SV e.V."; js "U14 II"]) game_stern = None.
Proof.
  apply (proj2 (no_tokens_means_unknown [js "FC SV e.V."; js "U14 II"]
                  ltac:(repeat constructor))).
Defined.

(** ** Sides of a summary *)

Lemma startsWith_units (p s : JsString) (x : Z) :
  startsWith s p = true -> In x p -> In x s.
Proof.
  revert s. induction p as [|d p IH]; intros s H Hx; [destruct Hx|].
  destruct s as [|c s]; [discriminate|]. cbn [startsWith] in H.
  apply andb_true_iff in H as [Hc Hs]. apply Z.eqb_eq in Hc. subst d.
  destruct Hx as [<- | Hx]; [now left | right; now apply (IH s)].
Qed.

Lemma includes_units (s p : JsString) (x : Z) :
  includes s p = true -> In x p -> In x s.
Proof.
  induction s as [|c s IH]; cbn [includes]; intros H Hx.
  - rewrite orb_false_r in H. now apply (startsWith_units p).
  - apply orb_true_iff in H as [H | H]; [now apply (startsWith_units p)|].
    right. now apply IH.
Qed.

Lemma trimStart_units (s : JsString) (x : Z) : In x (trimStart s) -> In x s.
Proof.
  destruct (trimStart_suffix s) as (p & Hp & _). intros H. rewrite Hp.
  apply in_app_iff. now right.
Qed.

Lemma dash_regex_no_dash (pre s : JsString) :
  (forall c, In c s -> is_dash c = false) -> dash_regex pre s = None.
Proof.
  revert pre. induction s as [|x s IH]; intros pre Hno.
  - reflexivity.
  - cbn [dash_regex].
    assert (Hhere : match trimStart (x :: s) with
                    | c :: r =>
                        if is_dash c && forallb (fun y => negb (is_line_term y)) (trimStart r)
                        then Some (pre, trimStart r) else None
                    | [] => None
                    end = None).
    { destruct (trimStart (x :: s)) as [|c r] eqn:E; [reflexivity|].
      rewrite (Hno c); [reflexivity|]. apply trimStart_units. rewrite E. now left. }
    rewrite Hhere. destruct (is_line_term x); [reflexivity|].
    apply IH. intros c Hc. apply Hno. now right.
Qed.

Lemma splitHomeAway_no_dash (summary : JsString) :
  (forall c, In c summary -> is_dash c = false) -> splitHomeAway summary = None.
Proof.
  intros Hno. unfold splitHomeAway.
  set (first := hd [] (split (js ",") summary)).
  set (teamPart := if nonempty first then first else summary).
  assert (Hpart : forall c, In c teamPart -> is_dash c = false).
  { intros c Hc. apply Hno. unfold teamPart in Hc.
    destruct (nonempty first); [|exact Hc].
    unfold first in Hc. change (js ",") with [44] in Hc.
    destruct (split_unit_nonempty 44 summary) as (h & t & Hs). rewrite Hs in Hc.
    apply (split_unit_pieces 44 summary h c); [rewrite Hs; now left | exact Hc]. }
  assert (H1 : includes teamPart (js " - ") = false).
  { destruct (includes teamPart (js " - ")) eqn:E; [|reflexivity].
    assert (H45 : In 45 teamPart) by (apply (includes_units _ _ 45 E); vm_compute; tauto).
    now apply Hpart in H45. }
  assert (H2 : includes teamPart EN_DASH_SEP = false).
  { destruct (includes teamPart EN_DASH_SEP) eqn:E; [|reflexivity].
    assert (H8 : In 8211 teamPart) by (apply (includes_units _ _ 8211 E); vm_compute; tauto).
    now apply Hpart in H8. }
  now rewrite H1, H2, (dash_regex_no_dash [] teamPart Hpart).
Qed.

(** X10. A summary without a hyphen and without an en dash has no sides;
    its fixture is then classified by the venue alone: home when a match
    token occurs in the normalized venue, unknown otherwise, never
    away. *)
Theorem no_dash_never_away :
  forall (tokens : list JsString) (g : IcsGame),
    (forall c, In c (g_summary g) -> is_dash c = false) ->
    splitHomeAway (g_summary g) = None
    /\ classify tokens g <> Some false
    /\ (classify tokens g = Some true <->
        exists t, In t tokens
                  /\ includes (normalizeForMatch (default [] (g_location g))) t = true).
Proof.
  intros tokens g Hno.
  pose proof (splitHomeAway_no_dash _ Hno) as Hs.
  split; [exact Hs|]. unfold classify. rewrite Hs.
  destruct (existsb (fun t => includes (normalizeForMatch (default [] (g_location g))) t)
                    tokens) eqn:E.
  - assert (Hex := E). apply existsb_exists in Hex.
    assert (Ht : has_tokens tokens = true)
      by (destruct tokens; [discriminate | reflexivity]).
    rewrite Ht. cbn [andb]. split; [discriminate|]. split; [intros _; exact Hex | reflexivity].
  - rewrite andb_false_r. split; [discriminate|]. split; [discriminate|].
    intros Hex. exfalso. apply not_true_iff_false in E. apply E.
    apply existsb_exists. exact Hex.
Qed.

Lemma no_dash_never_away_witness :
  splitHomeAway (js "Spieltag 5") = None.
Proof.
  apply (proj1 (no_dash_never_away tokens_stern
                  {| g_uid := js "s5"; g_summary := js "Spieltag 5"; g_start := 0;
                     g_end := 1; g_location := None; g_isHome := None |}
                  ltac:(intros c Hc; vm_compute in Hc;
                        repeat (destruct Hc as [<- | Hc]; [reflexivity|]); destruct Hc))).
Defined.

(** ** Fixture tag, continued *)

Lemma startsWith_ci_prefix (p s : JsString) :
  startsWith_ci s p = true ->
  exists o rest, s = o ++ rest /\ length o = length p
                 /\ map canonicalize o = map canonicalize p.
Proof.
  revert s. induction p as [|d p IH]; intros s H.
  - now exists [], s.
  - destruct s as [|c s]; [discriminate|]. cbn [startsWith_ci] in H.
    apply andb_true_iff in H as [Hc Hs]. apply Z.eqb_eq in Hc.
    destruct (IH s Hs) as (o & rest & -> & Hl & Hm).
    exists (c :: o), rest. simpl. rewrite Hl, Hc, Hm. auto.
Qed.

Lemma until_rbracket_spec (s : JsString) :
  ~ In RBRACKET (until_rbracket s)
  /\ s = until_rbracket s ++ drop (length (until_rbracket s)) s.
Proof.
  induction s as [|c s [IH1 IH2]]; [now split|].
  simpl. destruct (c =? RBRACKET) eqn:E; [now split|].
  apply Z.eqb_neq in E. split.
  - intros [H | H]; [now apply E | now apply IH1].
  - simpl. now f_equal.
Qed.

Lemma tag_here_sound (s u : JsString) :
  tag_here s = Some u ->
  exists o post, s = o ++ u ++ RBRACKET :: post
                 /\ map canonicalize o = TAG_OPEN
                 /\ u <> [] /\ ~ In RBRACKET u.
Proof.
  unfold tag_here. destruct (startsWith_ci s TAG_OPEN) eqn:E; [|discriminate].
  apply startsWith_ci_prefix in E as (o & rest & -> & Hl & Hm).
  rewrite <- Hl, drop_app_length.
  destruct (until_rbracket_spec rest) as [Hno Hrest].
  destruct (drop (length (until_rbracket rest)) rest) as [|c post] eqn:Ed; [discriminate|].
  destruct (nonempty (until_rbracket rest)) eqn:En; cbn [andb]; [|discriminate].
  destruct (c =? RBRACKET) eqn:Ec; [|discriminate].
  apply Z.eqb_eq in Ec. subst c. intros [= <-].
  exists o, post. split; [now rewrite Hrest at 1|].
  split; [exact Hm|]. split; [now apply nonempty_true | exact Hno].
Qed.

Lemma first_tag_sound (s u : JsString) :
  first_tag s = Some u ->
  exists pre o post, s = pre ++ o ++ u ++ RBRACKET :: post
                     /\ map canonicalize o = TAG_OPEN
                     /\ u <> [] /\ ~ In RBRACKET u.
Proof.
  induction s as [|c s IH]; cbn [first_tag].
  - destruct (tag_here []) eqn:E; [|discriminate]. intros [= <-].
    apply tag_here_sound in E as (o & post & H). exists [], o, post. exact H.
  - destruct (tag_here (c :: s)) eqn:E.
    + intros [= <-]. apply tag_here_sound in E as (o & post & H).
      exists [], o, post. exact H.
    + intros H. destruct (IH H) as (pre & o & post & -> & Hrest).
      exists (c :: pre), o, post. split; [reflexivity | exact Hrest].
Qed.

Lemma first_tag_none (s : JsString) :
  includes_ci s TAG_OPEN = false -> first_tag s = None.
Proof.
  induction s as [|c s IH]; cbn [includes_ci first_tag]; intros H.
  - rewrite orb_false_r in H. now rewrite (tag_here_no_open _ H).
  - apply orb_false_iff in H as [H1 H2].
    rewrite (tag_here_no_open _ H1). now apply IH.
Qed.

(** X11. What [findBfvUid] returns really is a tag of the note: the note
    holds, in this order, the opener "[BFV_UID:" in some letter case, the
    returned id and a "]"; the id is not empty and has no "]". A null or
    empty note, or one without the opener, gives null. *)
Theorem found_uid_is_in_the_note :
  forall (note : option JsString),
    (forall u, findBfvUid note = Some u ->
       exists n pre o post,
         note = Some n /\ n = pre ++ o ++ u ++ RBRACKET :: post
         /\ map canonicalize o = TAG_OPEN /\ u <> [] /\ ~ In RBRACKET u)
    /\ (note = None \/ note = Some [] \/
        (exists n, note = Some n /\ includes_ci n TAG_OPEN = false) ->
        findBfvUid note = None).
Proof.
  intros note. split.
  - intros u H. destruct note as [n|]; [|discriminate]. simpl in H.
    destruct (nonempty n); [|discriminate].
    apply first_tag_sound in H as (pre & o & post & H). exists n, pre, o, post. tauto.
  - intros [-> | [-> | (n & -> & H)]]; try reflexivity.
    simpl. destruct (nonempty n); [|reflexivity]. now apply first_tag_none.
Qed.

Lemma found_uid_is_in_the_note_witness :
  findBfvUid (Some (js "[BFV] FC Stern - SV Gegner")) = None.
Proof.
  apply (proj2 (found_uid_is_in_the_note (Some (js "[BFV] FC Stern - SV Gegner")))).
  right. right. exists (js "[BFV] FC Stern - SV Gegner"). split; reflexivity.
Defined.

(** ** The two dictionaries of the loaded bookings *)

Lemma last_In {A : Type} (l : list A) (x : A) : last l = Some x -> In x l.
Proof.
  destruct l as [|y l _] using rev_ind; [discriminate|].
  rewrite last_snoc. intros [= ->]. apply in_app_iff. right. now left.
Qed.

Lemma last_none_nil {A : Type} (l : list A) : last l = None -> l = [].
Proof.
  destruct l as [|y l _] using rev_ind; [reflexivity|].
  rewrite last_snoc. discriminate.
Qed.

(** X12. The two dictionaries built from a list of bookings always speak
    of the same booking. When one reads a stored string under a fixture
    id, it is the id of a booking of the list whose note carries that
    fixture id, and the other reads the pitch of the same booking; when
    one reads an inherited member or nothing, so does the other. For an
    id other than "__proto__" the read is the prototype's exactly when no
    booking of the list is tagged with it. *)
Theorem booked_maps_agree :
  forall (l : list Booking) (uid : JsString),
    (forall i, obj_get (uidToBookingId l) uid = Some (VStr i) ->
       exists b, In b l /\ findBfvUid (b_note b) = Some uid
                 /\ b_id b = i
                 /\ obj_get (uidToPitchId l) uid = Some (VStr (b_pitch_id b)))
    /\ (forall m, obj_get (uidToBookingId l) uid = Some (VMember m) <->
                  obj_get (uidToPitchId l) uid = Some (VMember m))
    /\ (obj_get (uidToBookingId l) uid = None <-> obj_get (uidToPitchId l) uid = None)
    /\ (uid <> PROTO ->
        (obj_get (uidToBookingId l) uid = inherited uid <->
         forall b, In b l -> findBfvUid (b_note b) <> Some uid)).
Proof.
  intros l uid. unfold obj_get.
  destruct (uid_maps_own l uid) as [H1 H2]. cbv zeta in H1, H2.
  fold (linked_to uid l) in H1, H2. rewrite H1, H2. clear H1 H2.
  assert (Hinh : forall v, inherited uid = Some v -> exists m, v = VMember m).
  { intros v Hv. apply inherited_truthy in Hv as (-> & _). now eexists. }
  destruct (str_eqb uid PROTO) eqn:Ep.
  { split; [|split; [|split]].
    - intros i Hi. apply Hinh in Hi as (m & Hm). discriminate.
    - tauto.
    - tauto.
    - intros Hne. apply str_eqb_true in Ep. contradiction. }
  destruct (last (linked_to uid l)) as [b|] eqn:E; cbn [fmap option_fmap option_map compose].
  - assert (Hb : In b (linked_to uid l)) by now apply last_In.
    unfold linked_to in Hb. apply filter_In in Hb as [Hin Htag].
    apply bool_decide_eq_true in Htag.
    split; [|split; [|split]].
    + intros i [= <-]. exists b. now repeat split.
    + intros m. split; discriminate.
    + split; discriminate.
    + intros _. split.
      * intros Hi. symmetry in Hi. apply Hinh in Hi as (m & Hm). discriminate.
      * intros Hno. now apply Hno in Hin.
  - split; [|split; [|split]].
    + intros i Hi. apply Hinh in Hi as (m & Hm). discriminate.
    + tauto.
    + tauto.
    + intros _. split; [|reflexivity]. intros _ b Hin Htag.
      apply last_none_nil in E.
      assert (Hb : In b (linked_to uid l)).
      { unfold linked_to. apply filter_In. split; [exact Hin|].
        now apply bool_decide_eq_true. }
      rewrite E in Hb. destruct Hb.
Qed.

Lemma booked_maps_agree_witness :
  exists b, In b [dup_first; dup_second]
            /\ findBfvUid (b_note b) = Some (js "abc123")
            /\ b_id b = js "k9"
            /\ obj_get (uidToPitchId [dup_first; dup_second]) (js "abc123")
               = Some (VStr (b_pitch_id b)).
Proof.
  apply (proj1 (booked_maps_agree [dup_first; dup_second] (js "abc123")) (js "k9")).
  vm_compute. reflexivity.
Defined.

(** ** Availability engine, continued *)

Lemma collides_same (gs ge : Z) (bs bs' : list Booking) (p : Pitch) :
  (forall b, In b bs -> In b bs') ->
  collides gs ge (List.filter is_blocking bs) p = true ->
  collides gs ge (List.filter is_blocking bs') p = true.
Proof.
  intros Hsub H. apply collides_spec in H as (b & Hin & Hrest).
  apply collides_spec. exists b. split; [now apply Hsub | exact Hrest].
Qed.

Lemma filter_same {A : Type} (f g : A -> bool) (l : list A) :
  (forall x, In x l -> f x = g x) -> List.filter f l = List.filter g l.
Proof.
  induction l as [|x l IH]; intros H; simpl; [reflexivity|].
  rewrite (H x) by now left. rewrite IH; [reflexivity|].
  intros y Hy. apply H. now right.
Qed.

Lemma filter_all {A : Type} (f : A -> bool) (l : list A) :
  (forall x, In x l -> f x = true) -> List.filter f l = l.
Proof.
  induction l as [|x l IH]; intros H; simpl; [reflexivity|].
  rewrite (H x) by now left. f_equal. apply IH. intros y Hy. apply H. now right.
Qed.

Lemma filter_twice {A : Type} (f : A -> bool) (l : list A) :
  List.filter f (List.filter f l) = List.filter f l.
Proof. apply filter_all. intros x Hx. now apply filter_In in Hx. Qed.

(** X13. More bookings never free a pitch: every pitch available under a
    list of bookings is available under any list with fewer bookings; two
    lists with the same bookings, in whatever order and multiplicity, give
    the same result; bookings that are not blocking can be dropped; and
    without bookings every eligible pitch is available. *)
Theorem availability_shrinks_with_bookings :
  forall (pitches : list Pitch) (ageU : option Z) (game : IcsGame)
         (bs bs' : list Booking),
    ((forall b, In b bs -> In b bs') ->
       forall p, In p (getAvailablePitches pitches ageU game bs') ->
                 In p (getAvailablePitches pitches ageU game bs))
    /\ ((forall b, In b bs <-> In b bs') ->
          getAvailablePitches pitches ageU game bs
          = getAvailablePitches pitches ageU game bs')
    /\ getAvailablePitches pitches ageU game (List.filter is_blocking bs)
       = getAvailablePitches pitches ageU game bs
    /\ getAvailablePitches pitches ageU game [] = allowedPitchesForAge pitches ageU.
Proof.
  intros pitches ageU game bs bs'. split; [|split; [|split]].
  - intros Hsub p Hp. apply available_iff in Hp as [Hc Hno]. apply available_iff.
    split; [exact Hc|]. intros (b & Hin & Hrest). apply Hno. exists b.
    split; [now apply Hsub | exact Hrest].
  - intros Hsame. unfold getAvailablePitches. apply filter_same. intros p _.
    f_equal. apply eq_true_iff_eq.
    split; apply collides_same; intros b Hb; now apply Hsame.
  - unfold getAvailablePitches. now rewrite filter_twice.
  - unfold getAvailablePitches. apply filter_all. reflexivity.
Qed.

Lemma availability_shrinks_with_bookings_witness :
  In pitch_mitte (getAvailablePitches [pitch_mitte; pitch_rechts] (Some 14) game_stern
                    [dup_second])
  /\ In pitch_mitte (getAvailablePitches [pitch_mitte; pitch_rechts] (Some 14) game_stern []).
Proof.
  assert (Hin : In pitch_mitte (getAvailablePitches [pitch_mitte; pitch_rechts] (Some 14)
                                  game_stern [dup_second])).
  { vm_compute. now left. }
  split; [exact Hin|].
  apply (proj1 (availability_shrinks_with_bookings [pitch_mitte; pitch_rechts] (Some 14)
                  game_stern [] [dup_second])); [|exact Hin].
  intros b [].
Defined.




(** ** Local team *)

Lemma includes_empty (s : JsString) : includes s [] = true.
Proof. now destruct s. Qed.

Lemma find_In {A : Type} (f : A -> bool) (l : list A) (x : A) :
  List.find f l = Some x -> In x l /\ f x = true.
Proof. apply find_some. Qed.

(** X15. The local team is always one of the listed teams. A team of the
    selected age comes first: when the first listed team of that age has
    an id, it is the answer whatever the names are. Without an age match
    the first team whose lower-cased name contains the lower-cased name of
    the selected team is taken; an empty name is contained in every name,
    so with no team selected the first listed team is the answer. *)
Theorem local_team_is_listed :
  forall (st : Page),
    (forall i, resolveLocalTeamId st = Some i -> exists t, In t (pg_teams st) /\ t_id t = i)
    /\ (forall a best,
          selected_age st = Some a ->
          List.find (fun t => t_age_u t =? a) (pg_teams st) = Some best ->
          t_id best <> [] ->
          resolveLocalTeamId st = Some (t_id best))
    /\ (forall t rest,
          pg_selectedBfvTeam st = None -> pg_teams st = t :: rest ->
          resolveLocalTeamId st = Some (t_id t))
    /\ (pg_teams st = [] -> resolveLocalTeamId st = None).
Proof.
  intros st. split; [|split; [|split]].
  - intros i. unfold resolveLocalTeamId. cbv zeta.
    set (byName := List.find _ (pg_teams st)).
    assert (Hname : byName = None \/ exists t, byName = Some t /\ In t (pg_teams st)).
    { unfold byName. destruct (List.find _ (pg_teams st)) as [t|] eqn:En; [|now left].
      right. exists t. split; [reflexivity | now apply find_In in En]. }
    assert (Hlast : match byName with Some t => Some (t_id t) | None => None end = Some i ->
                    exists t, In t (pg_teams st) /\ t_id t = i).
    { destruct Hname as [-> | (t & -> & Ht)]; [discriminate|].
      intros [= <-]. now exists t. }
    destruct (selected_age st) as [a|]; [|exact Hlast].
    destruct (List.find (fun t => t_age_u t =? a) (pg_teams st)) as [best|] eqn:Ef;
      [|exact Hlast].
    destruct (nonempty (t_id best)); [|exact Hlast].
    intros [= <-]. exists best. split; [now apply find_In in Ef | reflexivity].
  - intros a best Ha Hf Hid. unfold resolveLocalTeamId. rewrite Ha, Hf.
    apply nonempty_true in Hid. now rewrite Hid.
  - intros t rest Hsel Ht. unfold resolveLocalTeamId, selected_age. rewrite Hsel, Ht.
    cbn [List.find toLowerCase map]. now rewrite includes_empty.
  - intros Ht. unfold resolveLocalTeamId. rewrite Ht.
    now destruct (selected_age st).
Qed.

Lemma local_team_is_listed_witness :
  resolveLocalTeamId page0 = Some (js "t1").
Proof.
  apply (proj1 (proj2 (local_team_is_listed page0)) 14 team_u14);
    [reflexivity | reflexivity | discriminate].
Defined.

(** ** Book and undo, continued *)

Section BookUndo.
Context `{BookingStore}.

(** X16. A call of [bookApproved] that ends with an error has left the
    dictionaries, the selection and the loaded bookings as they were. It
    has written no row either, with one exception: when the store accepted
    the row and the reload after it failed, the row stays written, and
    nothing on the page records it. A call that ends without error
    has written exactly one row, the one the store accepted for the
    session's user and the resolved local team, and has selected the
    booked pitch for the fixture. *)
Theorem failed_book_keeps_dictionaries :
  forall (st : Page) (g : IcsGame) (p : JsString),
    (forall e, pg_error (bookApproved st g p) = Some e ->
       bookApproved st g p = set_error (Some e) st
       \/ exists uid tid i,
            pg_session st = Some uid /\ resolveLocalTeamId st = Some tid
            /\ store_insert (pg_db st) (booking_row g p tid uid) = Some i
            /\ reload (set_db (pg_db st ++ [with_id i (booking_row g p tid uid)])
                              (set_error None st)) = None
            /\ e = ErrStore
            /\ bookApproved st g p
               = set_error (Some ErrStore)
                   (set_db (pg_db st ++ [with_id i (booking_row g p tid uid)]) st))
    /\ (pg_error (bookApproved st g p) = None ->
        exists uid tid i,
          pg_session st = Some uid /\ resolveLocalTeamId st = Some tid
          /\ store_insert (pg_db st) (booking_row g p tid uid) = Some i
          /\ pg_db (bookApproved st g p)
             = pg_db st ++ [with_id i (booking_row g p tid uid)]
          /\ obj_get (pg_selectedPitchByUid (bookApproved st g p)) (g_uid g)
             = Some (VStr p)).
Proof.
  intros st g p. split; [apply bookApproved_failed|].
  intros Herr.
  destruct (session_cases st) as [Hc | (uid & tid & Hs & Hu & Ht & Htid)].
  - destruct (bookApproved_unreached st g p Hc) as (e & _ & He).
    rewrite He in Herr. discriminate.
  - destruct (store_insert (pg_db st) (booking_row g p tid uid)) as [i|] eqn:Hins.
    + destruct (bookApproved_recorded st g p uid tid i Hs Hu Ht Htid Hins Herr)
        as (Hdb & Hsel & _).
      exists uid, tid, i. repeat split; try assumption. now apply obj_get_own.
    + rewrite (bookApproved_reached st g p uid tid Hs Hu Ht Htid), Hins in Herr.
      discriminate.
Qed.

Lemma filter_id_fresh (i : JsString) (db : list Booking) :
  (forall x, In x db -> b_id x <> i) ->
  List.filter (fun b => negb (str_eqb (b_id b) i)) db = db.
Proof.
  intros Hall. apply filter_all. intros x Hx. apply negb_true_iff, str_eqb_false.
  now apply Hall.
Qed.

(** X17. When [bookedMap] reads something truthy under a fixture id, an
    undo that ends without error has taken out of the table exactly the
    rows whose id is the text of what was read, every other row staying in
    order, and has removed the own entries of the id from both
    dictionaries, so that a read under the id finds what the prototype
    has; an undo that ends with an error has left both dictionaries as
    they were. Hence book and then undo, both without error, leave the
    table as it was, when the store named the new row with an id that no
    row had. *)
Theorem book_then_undo_restores_table :
  forall (st : Page) (g : IcsGame) (p : JsString),
    (forall (u : JsString) (v : JsValue),
       obj_get (pg_bookedMap st) u = Some v -> truthy v = true ->
       (pg_error (undoBooking st u) = None ->
          pg_db (undoBooking st u)
          = List.filter (fun b => negb (str_eqb (b_id b) (value_text v))) (pg_db st)
          /\ obj_get (pg_bookedMap (undoBooking st u)) u = inherited u
          /\ obj_get (pg_bookedPitchByUid (undoBooking st u)) u = inherited u)
       /\ (forall e, pg_error (undoBooking st u) = Some e ->
             e = ErrStore
             /\ pg_bookedMap (undoBooking st u) = pg_bookedMap st
             /\ pg_bookedPitchByUid (undoBooking st u) = pg_bookedPitchByUid st))
    /\ (forall b, pg_db (bookApproved st g p) = pg_db st ++ [b] ->
          pg_error (bookApproved st g p) = None ->
          b_id b <> [] -> (forall x, In x (pg_db st) -> b_id x <> b_id b) ->
          pg_error (undoBooking (bookApproved st g p) (g_uid g)) = None ->
          pg_db (undoBooking (bookApproved st g p) (g_uid g)) = pg_db st).
Proof.
  intros st g p. split.
  - intros u v Hv Ht. destruct (undoBooking_run st u v Hv Ht) as [Hok Hfail]. split.
    + intros Herr. destruct (Hok Herr) as (_ & Hdb & Hm & Hp).
      split; [exact Hdb|]. unfold obj_get. now rewrite Hm, Hp.
    + intros e He. destruct (Hfail e He) as (-> & Hm & Hp & _). tauto.
  - intros b Hdb Herr Hid Hfresh Hundo.
    assert (Hlen : pg_db (bookApproved st g p) <> pg_db st).
    { rewrite Hdb. intros Heq. apply (f_equal length) in Heq.
      rewrite length_app in Heq. simpl in Heq. lia. }
    destruct (session_cases st) as [Hc | (uid & tid & Hs & Hu & Ht & Htid)].
    { destruct (bookApproved_unreached st g p Hc) as (e & _ & He).
      rewrite He in Hlen. now contradiction Hlen. }
    destruct (store_insert (pg_db st) (booking_row g p tid uid)) as [i|] eqn:Hins.
    2:{ rewrite (bookApproved_reached st g p uid tid Hs Hu Ht Htid), Hins in Hlen.
        now contradiction Hlen. }
    destruct (bookApproved_recorded st g p uid tid i Hs Hu Ht Htid Hins Herr)
      as (Hdb' & _ & Hrec).
    rewrite Hdb in Hdb'. apply app_inj_tail in Hdb' as [_ ->].
    cbn [with_id b_id] in Hid, Hfresh.
    destruct (Hrec Hid) as [Hmap _]. apply obj_get_own in Hmap.
    assert (Hti : truthy (VStr i) = true) by now apply nonempty_true.
    destruct (proj1 (undoBooking_run _ _ _ Hmap Hti) Hundo) as (_ & Hgone & _).
    rewrite Hgone, Hdb. cbn [value_text].
    rewrite List.filter_app, (filter_id_fresh _ _ Hfresh).
    cbn [List.filter with_id b_id]. rewrite str_eqb_refl. apply app_nil_r.
Qed.

End BookUndo.

Lemma failed_book_keeps_dictionaries_witness :
  @bookApproved exclusion_store page_booked_once game_stern (js "p1")
  = set_error (Some ErrStore) page_booked_once
  \/ exists uid tid i,
       pg_session page_booked_once = Some uid
       /\ resolveLocalTeamId page_booked_once = Some tid
       /\ @store_insert exclusion_store (pg_db page_booked_once)
            (booking_row game_stern (js "p1") tid uid) = Some i
       /\ @reload exclusion_store
            (set_db (pg_db page_booked_once
                     ++ [with_id i (booking_row game_stern (js "p1") tid uid)])
                    (set_error None page_booked_once)) = None
       /\ ErrStore = ErrStore
       /\ @bookApproved exclusion_store page_booked_once game_stern (js "p1")
          = set_error (Some ErrStore)
              (set_db (pg_db page_booked_once
                       ++ [with_id i (booking_row game_stern (js "p1") tid uid)])
                      page_booked_once).
Proof.
  apply (proj1 (@failed_book_keeps_dictionaries exclusion_store page_booked_once game_stern
                  (js "p1")) ErrStore).
  vm_compute. reflexivity.
Defined.

Lemma book_then_undo_restores_table_witness :
  pg_db (@undoBooking exclusion_store
           (@bookApproved exclusion_store page_booked_once game_later (js "p1"))
           (g_uid game_later))
  = pg_db page_booked_once.
Proof.
  apply (proj2 (@book_then_undo_restores_table exclusion_store page_booked_once game_later
                  (js "p1"))
           (with_id (js "b1") (booking_row game_later (js "p1") (js "t1") (js "u1")))).
  - vm_compute. reflexivity.
  - vm_compute. reflexivity.
  - discriminate.
  - intros x Hx. vm_compute in Hx. destruct Hx as [<- | []]. vm_compute. discriminate.
  - vm_compute. reflexivity.
Defined.

(** ** Range of the listed games and what is loaded for it *)

Lemma range_fold (gs : list IcsGame) (m M : Z) :
  exists m' M',
    fold_left range_step gs (Some m, Some M) = (Some m', Some M')
    /\ m' <= m /\ M <= M'
    /\ (forall g, In g gs -> m' <= g_start g /\ g_end g <= M')
    /\ (m' = m \/ exists g, In g gs /\ g_start g = m')
    /\ (M' = M \/ exists g, In g gs /\ g_end g = M').
Proof.
  revert m M. induction gs as [|g gs IH]; intros m M.
  - exists m, M. simpl. repeat split; try lia; try tauto.
  - simpl fold_left. unfold range_step at 2. cbn [fst snd].
    set (m1 := if g_start g <? m then g_start g else m).
    set (M1 := if M <? g_end g then g_end g else M).
    assert (Hm1 : (if g_start g <? m then Some (g_start g) else Some m) = Some m1)
      by (unfold m1; now destruct (g_start g <? m)).
    assert (HM1 : (if M <? g_end g then Some (g_end g) else Some M) = Some M1)
      by (unfold M1; now destruct (M <? g_end g)).
    rewrite Hm1, HM1.
    assert (Hb1 : m1 <= m /\ m1 <= g_start g /\ (m1 = m \/ m1 = g_start g))
      by (unfold m1; destruct (g_start g <? m) eqn:E; lia).
    assert (Hb2 : M <= M1 /\ g_end g <= M1 /\ (M1 = M \/ M1 = g_end g))
      by (unfold M1; destruct (M <? g_end g) eqn:E; lia).
    destruct (IH m1 M1) as (m' & M' & Hf & Hm & HM & Hall & Hmin & Hmax).
    exists m', M'. split; [exact Hf|]. split; [lia|]. split; [lia|]. split; [|split].
    + intros x [<- | Hx]; [lia | now apply Hall].
    + destruct Hmin as [-> | (x & Hx & Hxm)].
      * destruct Hb1 as (_ & _ & [-> | Hg]); [now left|].
        right. exists g. split; [now left | now symmetry].
      * right. exists x. split; [now right | exact Hxm].
    + destruct Hmax as [-> | (x & Hx & HxM)].
      * destruct Hb2 as (_ & _ & [-> | Hg]); [now left|].
        right. exists g. split; [now left | now symmetry].
      * right. exists x. split; [now right | exact HxM].
Qed.

Lemma games_range_spec (now1 now2 : Z) (gs : list IcsGame) :
  gs <> [] ->
  (forall g, In g gs -> fst (games_range now1 now2 gs) <= g_start g
                        /\ g_end g <= snd (games_range now1 now2 gs))
  /\ (exists g, In g gs /\ g_start g = fst (games_range now1 now2 gs))
  /\ (exists g, In g gs /\ g_end g = snd (games_range now1 now2 gs)).
Proof.
  intros Hne. destruct gs as [|g0 gs]; [congruence|].
  unfold games_range. cbn [head fmap option_fmap option_map].
  destruct (range_fold (g0 :: gs) (g_start g0) (g_end g0))
    as (m' & M' & Hf & Hm & HM & Hall & Hmin & Hmax).
  rewrite Hf. cbn [fst snd default]. split; [exact Hall|]. split.
  - destruct Hmin as [-> | Hex]; [exists g0; split; [now left | reflexivity] | exact Hex].
  - destruct Hmax as [-> | Hex]; [exists g0; split; [now left | reflexivity] | exact Hex].
Qed.

Lemma query_range_spec (db : list Booking) (rs re : Z) (b : Booking) :
  In b (query_range db rs re) <-> In b db /\ rs <= b_start_at b /\ b_end_at b < re.
Proof.
  unfold query_range. rewrite filter_In, andb_true_iff, Z.leb_le, Z.ltb_lt. tauto.
Qed.

(** X18. The range of a non-empty list of games runs from the earliest
    start to the latest end among them, and both are attained; without
    games it runs from the clock reading to thirty days after it. The
    bookings loaded for a range are those of the table that start at or
    after its start and end strictly before its end: a booking over the
    window of a listed game is loaded exactly when that game ends before
    the latest end, so the booking of a game that ends last is never
    loaded. *)
Theorem range_and_loaded_bookings :
  forall (now1 now2 : Z) (gs : list IcsGame),
    (gs <> [] ->
       (forall g, In g gs -> fst (games_range now1 now2 gs) <= g_start g
                             /\ g_end g <= snd (games_range now1 now2 gs))
       /\ (exists g, In g gs /\ g_start g = fst (games_range now1 now2 gs))
       /\ (exists g, In g gs /\ g_end g = snd (games_range now1 now2 gs))
       /\ (forall db g b, In g gs ->
             b_start_at b = g_start g -> b_end_at b = g_end g ->
             (In b (query_range db (fst (games_range now1 now2 gs))
                                   (snd (games_range now1 now2 gs)))
              <-> In b db /\ g_end g < snd (games_range now1 now2 gs))))
    /\ games_range now1 now2 [] = (now1, now2 + 2592000000).
Proof.
  intros now1 now2 gs. split; [|reflexivity].
  intros Hne. destruct (games_range_spec now1 now2 gs Hne) as (Hall & Hmin & Hmax).
  split; [exact Hall|]. split; [exact Hmin|]. split; [exact Hmax|].
  intros db g b Hg Hs He. rewrite query_range_spec, Hs, He.
  destruct (Hall g Hg). split; [tauto|]. intros [? ?]. repeat split; try assumption.
Qed.

Lemma range_and_loaded_bookings_witness :
  ~ In (with_id (js "b0") (booking_row game_later (js "p1") (js "t1") (js "u1")))
       (query_range [with_id (js "b0") (booking_row game_later (js "p1") (js "t1") (js "u1"))]
          (fst (games_range 0 0 [game_stern; game_later]))
          (snd (games_range 0 0 [game_stern; game_later]))).
Proof.
  intros Hin.
  apply (proj1 (proj2 (proj2 (proj2 (proj1 (range_and_loaded_bookings 0 0
           [game_stern; game_later]) ltac:(discriminate))))
           [with_id (js "b0") (booking_row game_later (js "p1") (js "t1") (js "u1"))]
           game_later
           (with_id (js "b0") (booking_row game_later (js "p1") (js "t1") (js "u1")))
           ltac:(right; left; reflexivity) eq_refl eq_refl)) in Hin.
  destruct Hin as [_ Hlt]. vm_compute in Hlt. discriminate.
Defined.

(** ** Loading the games *)

Lemma home_filter_spec (homeOnly : bool) (parsed : list IcsGame) (g : IcsGame) :
  In g (home_filter homeOnly parsed) <->
  In g parsed /\ (homeOnly = true -> g_isHome g <> Some false).
Proof.
  unfold home_filter. destruct homeOnly.
  - rewrite filter_In. unfold not_away.
    destruct (g_isHome g) as [[|]|]; intuition congruence.
  - intuition congruence.
Qed.

Lemma obj_assign_other (o : JsObject) (k k' : JsString) (v : JsValue) :
  k <> k' -> obj_assign o k v !! k' = o !! k'.
Proof.
  intros Hne. unfold obj_assign.
  destruct (o !! k); [now apply lookup_insert_ne|].
  destruct (str_eqb k PROTO); [reflexivity | now apply lookup_insert_ne].
Qed.

Lemma defaults_fold_other (pitches : list Pitch) (ageU : option Z) (bl : list Booking)
    (gs : list IcsGame) (d : JsObject) (uid : JsString) :
  (forall g, In g gs -> g_uid g <> uid) ->
  fold_left (defaults_step pitches ageU bl) gs d !! uid = d !! uid.
Proof.
  revert d. induction gs as [|g gs IH]; intros d Hno; [reflexivity|].
  simpl fold_left. rewrite IH by (intros x Hx; apply Hno; now right).
  unfold defaults_step. destruct (default_pitch pitches ageU bl g); [|reflexivity].
  apply obj_assign_other, Hno. now left.
Qed.

Section Loading.
Context `{BookingStore}.

(** X19. For a selected team that has an id, [loadGames] writes nothing
    to the store. When it ends with an error (no feed address, a failed
    feed request, a failed bookings query) no game is listed and the
    dictionaries and the selection are as before. When it ends without
    error the feed was read: the listed games are the parsed fixtures with
    their classification, in feed order, less those classified away when
    only home games are wanted (unknown ones stay); the range covers every
    listed game; the loaded bookings are the rows of the store inside the
    range; and the pitch read for a fixture that is not listed is as it
    was. *)
Theorem load_lists_home_games :
  forall (tza : Z -> Z) (now1 now2 : Z) (clubName : JsString) (homeOnly : bool)
         (fetchIcs : JsString -> FeedAnswer) (st : Page) (team : BfvTeam),
    pg_selectedBfvTeam st = Some team -> bt_id team <> [] ->
    let st' := loadGames tza now1 now2 clubName homeOnly fetchIcs st in
    let tokens := buildMatchTokens [clubName; bt_name team] in
    pg_db st' = pg_db st
    /\ (forall e, pg_error st' = Some e ->
          pg_games st' = []
          /\ pg_bookedMap st' = pg_bookedMap st
          /\ pg_bookedPitchByUid st' = pg_bookedPitchByUid st
          /\ pg_selectedPitchByUid st' = pg_selectedPitchByUid st)
    /\ (pg_error st' = None ->
        exists url icsText r,
          bt_ics_url team = Some url /\ url <> [] /\ fetchIcs url = FeedText icsText
          /\ pg_games st'
             = home_filter homeOnly (map (classifyGame tokens) (parseIcs tza icsText))
          /\ (forall g, In g (pg_games st') <->
                (exists g0, In g0 (parseIcs tza icsText) /\ g = classifyGame tokens g0)
                /\ (homeOnly = true -> g_isHome g <> Some false))
          /\ pg_range st' = Some r
          /\ (forall g, In g (pg_games st') -> fst r <= g_start g /\ g_end g <= snd r)
          /\ (forall b, In b (pg_bookings st') <->
                In b (pg_db st) /\ fst r <= b_start_at b /\ b_end_at b < snd r)
          /\ pg_bookedMap st' = uidToBookingId (pg_bookings st')
          /\ (forall uid, (forall g, In g (pg_games st') -> g_uid g <> uid) ->
                obj_get (pg_selectedPitchByUid st') uid
                = obj_get (pg_selectedPitchByUid st) uid)).
Proof.
  intros tza now1 now2 clubName homeOnly fetchIcs st team Hteam Hid st' tokens.
  unfold st', loadGames, load_failed. rewrite Hteam.
  apply nonempty_true in Hid. rewrite Hid. cbn [negb]. fold tokens.
  destruct (bt_ics_url team) as [url|];
    [|cbn; split; [reflexivity|]; split; [tauto | discriminate]].
  destruct (nonempty url) eqn:Hurl; cbn [negb];
    [|cbn; split; [reflexivity|]; split; [tauto | discriminate]].
  destruct (fetchIcs url) as [| |icsText] eqn:Hfetch;
    try (cbn; split; [reflexivity|]; split; [tauto | discriminate]).
  set (listed := home_filter homeOnly (map (classifyGame tokens) (parseIcs tza icsText))).
  set (r := games_range now1 now2 listed).
  destruct (loadBookingsForRange (set_range (Some r) (set_error None st)) (fst r) (snd r))
    as [st1|] eqn:Hload;
    [|cbn; split; [reflexivity|]; split; [tauto | discriminate]].
  apply loadBookingsForRange_some in Hload as [_ ->].
  cbn [pg_db pg_games pg_range pg_bookings pg_bookedMap pg_bookedPitchByUid
       pg_selectedPitchByUid pg_selectedBfvTeam pg_pitches pg_error
       set_games set_selected set_loaded set_range set_error].
  split; [reflexivity|]. split; [discriminate|]. intros _.
  exists url, icsText, r. apply nonempty_true in Hurl.
  split; [reflexivity|]. split; [exact Hurl|]. split; [exact Hfetch|].
  split; [reflexivity|]. split; [|split; [reflexivity|split; [|split; [|split]]]].
  - intros g. unfold listed. rewrite home_filter_spec, in_map_iff.
    split; intros [(g0 & H1 & H2) Hh]; (split; [exists g0|exact Hh]); now split.
  - intros g Hg. eapply games_range_spec; [|exact Hg].
    intros E. rewrite E in Hg. destruct Hg.
  - intros b. apply query_range_spec.
  - reflexivity.
  - intros uid Hno. unfold obj_get. rewrite lookup_union.
    rewrite defaults_fold_other by exact Hno. rewrite lookup_empty.
    now destruct (pg_selectedPitchByUid st !! uid).
Qed.

End Loading.

Lemma load_lists_home_games_witness :
  pg_db (@loadGames exclusion_store utc_host 0 0 (js "FC Stern") true
           (fun _ => FeedText feed_two_records) page_before_load)
  = pg_db page_before_load.
Proof.
  apply (proj1 (@load_lists_home_games exclusion_store utc_host 0 0 (js "FC Stern") true
                  (fun _ => FeedText feed_two_records) page_before_load bfv_u14_feed
                  eq_refl ltac:(discriminate))).
Defined.

(** ** The feed proxy *)

Lemma endsWith_spec (h s : JsString) :
  endsWith h s = true <-> exists pre, h = pre ++ s.
Proof.
  unfold endsWith. rewrite andb_true_iff, Nat.leb_le, str_eqb_true. split.
  - intros [Hl Hd]. exists (take (length h - length s) h).
    rewrite <- (take_drop (length h - length s) h) at 1. now rewrite Hd.
  - intros (pre & ->). rewrite length_app. split; [lia|].
    replace (length pre + length s - length s)%nat with (length pre) by lia.
    apply drop_app_length.
Qed.

Lemma isAllowedHost_spec (host : JsString) :
  isAllowedHost host = true <->
  toLowerCase host = js "bfv.de" \/ exists pre, toLowerCase host = pre ++ js ".bfv.de".
Proof.
  unfold isAllowedHost. rewrite !orb_true_iff, !str_eqb_true, endsWith_spec. split.
  - intros [[H | H] | H]; [|now left | now right].
    right. exists (js "service"). now rewrite H.
  - intros [H | H]; [left; now right | now right].
Qed.

(** X20. When the handler answers, the status is 200, 400, 403 or 502.
    It answers 200 only for an address that the URL constructor accepts,
    whose protocol is https and whose host, in lower case, is "bfv.de" or
    ends in ".bfv.de", and only when the upstream answered well; the body
    is then the upstream text unchanged. A refused host gives 403, a
    failing upstream 502 with at most 800 units of its text. The handler
    throws instead of answering exactly when the address passed every
    check and the upstream request itself was rejected. *)
Theorem proxy_serves_bfv_hosts_only :
  forall (parseUrl : JsString -> option ParsedUrl) (fetch : JsString -> option Upstream)
         (url : option JsString),
    (forall body, ics_GET parseUrl fetch url = Some (200, body) ->
       exists a u res,
         url = Some a /\ a <> [] /\ parseUrl a = Some u
         /\ u_protocol u = js "https:"
         /\ (toLowerCase (u_hostname u) = js "bfv.de"
             \/ exists pre, toLowerCase (u_hostname u) = pre ++ js ".bfv.de")
         /\ fetch (u_href u) = Some res /\ up_ok res = true
         /\ body = BodyCalendar (up_text res))
    /\ (forall status body, ics_GET parseUrl fetch url = Some (status, body) ->
          status = 200 \/ status = 400 \/ status = 403 \/ status = 502)
    /\ (forall status s text,
          ics_GET parseUrl fetch url = Some (status, BodyUpstreamError s text) ->
          status = 502 /\ (length text <= 800)%nat)
    /\ (forall body, ics_GET parseUrl fetch url = Some (403, body) ->
          exists a u, url = Some a /\ parseUrl a = Some u
                      /\ u_protocol u = js "https:" /\ isAllowedHost (u_hostname u) = false)
    /\ (ics_GET parseUrl fetch url = None <->
        exists a u, url = Some a /\ a <> [] /\ parseUrl a = Some u
                    /\ u_protocol u = js "https:" /\ isAllowedHost (u_hostname u) = true
                    /\ fetch (u_href u) = None).
Proof.
  intros parseUrl fetch url. unfold ics_GET.
  assert (Hrefused : forall msg : JsString,
    (forall body, Some (400, BodyError msg) = Some (200, body) -> False)
    /\ (forall status body, Some (400, BodyError msg) = Some (status, body) ->
          status = 200 \/ status = 400 \/ status = 403 \/ status = 502)
    /\ (forall status s text,
          Some (400, BodyError msg) = Some (status, BodyUpstreamError s text) -> False)
    /\ (forall body, Some (400, BodyError msg) = Some (403, body) -> False)).
  { intros msg. repeat split; try discriminate. intros status body [= <- _]. tauto. }
  destruct url as [a|].
  2:{ destruct (Hrefused (js "Missing url query param")) as (R1 & R2 & R3 & R4).
      split; [intros b Hb; destruct (R1 b Hb)|]. split; [exact R2|].
      split; [intros st s t Ht; destruct (R3 st s t Ht)|].
      split; [intros b Hb; destruct (R4 b Hb)|].
      split; [discriminate|]. intros (a & u & Ha & _). discriminate. }
  destruct (nonempty a) eqn:Ea; cbn [negb].
  2:{ destruct (Hrefused (js "Missing url query param")) as (R1 & R2 & R3 & R4).
      split; [intros b Hb; destruct (R1 b Hb)|]. split; [exact R2|].
      split; [intros st s t Ht; destruct (R3 st s t Ht)|].
      split; [intros b Hb; destruct (R4 b Hb)|].
      split; [discriminate|]. intros (a' & u & [= <-] & Hne & _).
      apply nonempty_true in Hne. congruence. }
  destruct (parseUrl a) as [u|] eqn:Eu.
  2:{ destruct (Hrefused (js "Invalid url")) as (R1 & R2 & R3 & R4).
      split; [intros b Hb; destruct (R1 b Hb)|]. split; [exact R2|].
      split; [intros st s t Ht; destruct (R3 st s t Ht)|].
      split; [intros b Hb; destruct (R4 b Hb)|].
      split; [discriminate|]. intros (a' & u & [= <-] & _ & Hu & _). congruence. }
  destruct (str_eqb (u_protocol u) (js "https:")) eqn:Ep; cbn [negb].
  2:{ destruct (Hrefused (js "Only https allowed")) as (R1 & R2 & R3 & R4).
      split; [intros b Hb; destruct (R1 b Hb)|]. split; [exact R2|].
      split; [intros st s t Ht; destruct (R3 st s t Ht)|].
      split; [intros b Hb; destruct (R4 b Hb)|].
      split; [discriminate|]. intros (a' & u' & [= <-] & _ & Hu & Hp & _).
      rewrite Eu in Hu. injection Hu as <-. apply str_eqb_false in Ep. contradiction. }
  apply str_eqb_true in Ep. apply nonempty_true in Ea.
  destruct (isAllowedHost (u_hostname u)) eqn:Eh; cbn [negb].
  - destruct (fetch (u_href u)) as [res|] eqn:Ef.
    + destruct (up_ok res) eqn:Eo; cbn [negb].
      * split; [|split; [|split; [|split; [|split]]]]; try discriminate.
        -- intros body [= <-]. exists a, u, res.
           apply isAllowedHost_spec in Eh. now repeat split.
        -- intros status body [= <- _]. tauto.
        -- intros (a' & u' & [= <-] & _ & Hu & _ & _ & Hf).
           rewrite Eu in Hu. injection Hu as <-. congruence.
      * split; [|split; [|split; [|split; [|split]]]]; try discriminate.
        -- intros status body [= <- _]. tauto.
        -- intros status s text [= <- _ <-]. split; [reflexivity|].
           rewrite length_take. lia.
        -- intros (a' & u' & [= <-] & _ & Hu & _ & _ & Hf).
           rewrite Eu in Hu. injection Hu as <-. congruence.
    + split; [|split; [|split; [|split; [|split]]]]; try discriminate; [|reflexivity].
      intros _. exists a, u. now repeat split.
  - split; [|split; [|split; [|split; [|split]]]]; try discriminate.
    + intros status body [= <- _]. tauto.
    + intros body _. exists a, u. now repeat split.
    + intros (a' & u' & [= <-] & _ & Hu & _ & Hh & _).
      rewrite Eu in Hu. injection Hu as <-. congruence.
Qed.

Lemma proxy_serves_bfv_hosts_only_witness :
  exists a u,
    Some (js "https://evilbfv.de/x") = Some a
    /\ (fun _ => Some {| u_protocol := js "https:"; u_hostname := js "evilbfv.de";
                         u_href := js "https://evilbfv.de/x" |}) a = Some u
    /\ u_protocol u = js "https:" /\ isAllowedHost (u_hostname u) = false.
Proof.
  apply (proj1 (proj2 (proj2 (proj2 (proxy_serves_bfv_hosts_only
           (fun _ => Some {| u_protocol := js "https:"; u_hostname := js "evilbfv.de";
                             u_href := js "https://evilbfv.de/x" |})
           (fun _ => Some {| up_ok := true; up_status := 200; up_text := [] |})
           (Some (js "https://evilbfv.de/x"))))))
           (BodyError (js "Host not allowed"))).
  reflexivity.
Defined.

(** ** Sides of a summary, continued *)

(** Splitting at a spaced dash: " - " or " – ". *)
Lemma split_spaced_step (d x : Z) (s : JsString) :
  head s <> Some d -> startsWith (x :: s) [32; d; 32] = false.
Proof.
  intros Hd. cbn [startsWith]. destruct s as [|y s]; [now rewrite andb_false_r|].
  simpl in Hd. replace (y =? d) with false
    by (symmetry; apply Z.eqb_neq; congruence).
  now rewrite andb_false_r.
Qed.

Lemma split_spaced_plain (d : Z) (r : JsString) :
  ~ In d r -> split [32; d; 32] r = [r].
Proof.
  unfold split. induction r as [|x r IH]; intros Hno; [reflexivity|].
  cbn [split_aux]. rewrite split_spaced_step.
  - rewrite IH; [reflexivity|]. intros H. apply Hno. now right.
  - destruct r as [|y r]; simpl; [discriminate|].
    intros [= <-]. apply Hno. right. now left.
Qed.

Lemma split_spaced_app (d : Z) (l r : JsString) :
  d <> 32 -> ~ In d l ->
  split [32; d; 32] (l ++ [32; d; 32] ++ r) = l :: split [32; d; 32] r.
Proof.
  unfold split. intros Hd. induction l as [|x l IH]; intros Hno.
  - cbn [app split_aux startsWith length Nat.sub].
    now rewrite !Z.eqb_refl.
  - change ((x :: l) ++ [32; d; 32] ++ r) with (x :: (l ++ [32; d; 32] ++ r)).
    cbn [split_aux]. rewrite split_spaced_step.
    + rewrite IH; [reflexivity|]. intros H. apply Hno. now right.
    + destruct l as [|y l]; simpl; [congruence|].
      intros [= <-]. apply Hno. right. now left.
Qed.

Lemma includes_app_r (pre p rest : JsString) : includes (pre ++ p ++ rest) p = true.
Proof.
  induction pre as [|c pre IH]; simpl app.
  - assert (H : startsWith (p ++ rest) p = true).
    { clear. induction p as [|d p IH]; [reflexivity|]. simpl. now rewrite Z.eqb_refl. }
    destruct (p ++ rest) eqn:E; cbn [includes]; now rewrite H.
  - cbn [includes]. rewrite IH. apply orb_true_r.
Qed.

Lemma sep_pair_spaced (d : Z) (l r : JsString) :
  d <> 32 -> l <> [] -> r <> [] -> ~ In d l -> ~ In d r ->
  sep_pair [32; d; 32] (l ++ [32; d; 32] ++ r) = Some (trim l, trim r).
Proof.
  intros Hd Hl Hr Hnl Hnr. unfold sep_pair.
  rewrite (split_spaced_app d l r Hd Hnl), (split_spaced_plain d r Hnr).
  apply nonempty_true in Hl, Hr. now rewrite Hl, Hr.
Qed.

Lemma teamPart_of (part rest : JsString) :
  part <> [] -> ~ In 44 part ->
  (let first := hd [] (split (js ",") part) in
   (if nonempty first then first else part) = part)
  /\ (let first := hd [] (split (js ",") (part ++ 44 :: rest)) in
      (if nonempty first then first else part ++ 44 :: rest) = part).
Proof.
  intros Hp Hno. change (js ",") with [44].
  rewrite (split_unit_plain 44 part Hno), (split_unit_app 44 part rest Hno).
  cbn [hd]. apply nonempty_true in Hp. now rewrite Hp.
Qed.

Lemma not_in_app3 (x : Z) (l m r : JsString) :
  ~ In x l -> ~ In x m -> ~ In x r -> ~ In x (l ++ m ++ r).
Proof. intros Hl Hm Hr H. rewrite !in_app_iff in H. tauto. Qed.

Lemma splitHomeAway_part (part rest : JsString) (res : option (JsString * JsString)) :
  part <> [] -> ~ In 44 part ->
  match (if includes part (js " - ") then sep_pair (js " - ") part else None) with
  | Some lr => Some lr
  | None =>
      match (if includes part EN_DASH_SEP then sep_pair EN_DASH_SEP part else None) with
      | Some lr => Some lr
      | None =>
          match dash_regex [] part with
          | Some (m1, m2) =>
              if nonempty m1 && nonempty m2 then Some (trim m1, trim m2) else None
          | None => None
          end
      end
  end = res ->
  splitHomeAway part = res /\ splitHomeAway (part ++ 44 :: rest) = res.
Proof.
  intros Hp Hno Hres. destruct (teamPart_of part rest Hp Hno) as [E1 E2].
  unfold splitHomeAway. cbv zeta in E1, E2 |- *. now rewrite E1, E2.
Qed.

(** X21. A summary of the form left, spaced hyphen or spaced en dash,
    right, alone or followed by a comma and a competition, splits into the
    trimmed left and right texts, when neither text is empty or holds a
    comma or a dash. *)
Theorem spaced_dash_gives_both_sides :
  forall (l r rest : JsString),
    l <> [] -> r <> [] ->
    (forall c, In c (l ++ r) -> c <> 44 /\ is_dash c = false) ->
    (splitHomeAway (l ++ js " - " ++ r) = Some (trim l, trim r)
     /\ splitHomeAway ((l ++ js " - " ++ r) ++ 44 :: rest) = Some (trim l, trim r))
    /\ (splitHomeAway (l ++ EN_DASH_SEP ++ r) = Some (trim l, trim r)
        /\ splitHomeAway ((l ++ EN_DASH_SEP ++ r) ++ 44 :: rest) = Some (trim l, trim r)).
Proof.
  intros l r rest Hl Hr Hall.
  assert (Hx : forall x, (x = 44 \/ x = 45 \/ x = 8211) -> ~ In x l /\ ~ In x r).
  { intros x Hx. split; intros Hin;
      (assert (Hin' : In x (l ++ r)) by (apply in_app_iff; tauto));
      apply Hall in Hin' as [H1 H2]; unfold is_dash in H2; lia. }
  split.
  - apply splitHomeAway_part.
    + now destruct l.
    + apply not_in_app3; try apply Hx; try tauto. vm_compute. intuition discriminate.
    + rewrite includes_app_r. change (js " - ") with [32; 45; 32].
      rewrite sep_pair_spaced; try assumption; try apply Hx; try tauto. discriminate.
  - apply splitHomeAway_part.
    + now destruct l.
    + apply not_in_app3; try apply Hx; try tauto. vm_compute. intuition discriminate.
    + assert (Hno : includes (l ++ EN_DASH_SEP ++ r) (js " - ") = false).
      { destruct (includes (l ++ EN_DASH_SEP ++ r) (js " - ")) eqn:E; [|reflexivity].
        assert (H45 : In 45 (l ++ EN_DASH_SEP ++ r))
          by (apply (includes_units _ _ 45 E); vm_compute; tauto).
        rewrite !in_app_iff in H45. destruct (Hx 45 ltac:(tauto)) as [H1 H2].
        destruct H45 as [H | [H | H]]; try tauto.
        vm_compute in H. intuition discriminate. }
      rewrite Hno, includes_app_r. unfold EN_DASH_SEP.
      rewrite sep_pair_spaced; try assumption; try apply Hx; try tauto. discriminate.
Qed.

Lemma spaced_dash_gives_both_sides_witness :
  splitHomeAway ((js "FC Stern" ++ js " - " ++ js "SV Gegner") ++ 44 :: js " Kreisliga")
  = Some (trim (js "FC Stern"), trim (js "SV Gegner")).
Proof.
  apply (proj2 (proj1 (spaced_dash_gives_both_sides (js "FC Stern") (js "SV Gegner")
                  (js " Kreisliga") ltac:(discriminate) ltac:(discriminate)
                  ltac:(intros c Hc; vm_compute in Hc;
                        repeat (destruct Hc as [<- | Hc]; [split; [discriminate|reflexivity]|]);
                        destruct Hc)))).
Defined.

(** A dash set tight between the two texts. *)
Lemma startsWith_decompose (p s : JsString) :
  startsWith s p = true -> exists post, s = p ++ post.
Proof.
  revert s. induction p as [|d p IH]; intros s H; [now exists s|].
  destruct s as [|c s]; [discriminate|]. cbn [startsWith] in H.
  apply andb_true_iff in H as [Hc Hs]. apply Z.eqb_eq in Hc. subst.
  destruct (IH s Hs) as (post & ->). now exists post.
Qed.

Lemma includes_decompose (p s : JsString) :
  includes s p = true -> exists pre post, s = pre ++ p ++ post.
Proof.
  induction s as [|c s IH]; cbn [includes]; intros H.
  - rewrite orb_false_r in H. apply startsWith_decompose in H as (post & ->).
    now exists [], post.
  - apply orb_true_iff in H as [H | H].
    + apply startsWith_decompose in H as (post & ->). now exists [], post.
    + destruct (IH H) as (pre & post & ->). now exists (c :: pre), post.
Qed.

Lemma dash_position (l r a b : JsString) (d d' : Z) :
  (forall c, In c (l ++ r) -> is_dash c = false) ->
  is_dash d = true -> is_dash d' = true ->
  l ++ d' :: r = a ++ d :: b -> l = a.
Proof.
  revert a. induction l as [|x l IH]; intros a Hno Hd Hd' E.
  - destruct a as [|y a]; [reflexivity|].
    simpl in E. injection E as E1 E2. subst r.
    rewrite (Hno d) in Hd; [discriminate|]. simpl app. apply in_elt.
  - destruct a as [|y a].
    + simpl in E. injection E as E1 E2. subst x.
      rewrite (Hno d) in Hd; [discriminate | now left].
    + simpl in E. injection E as E1 E2. subst y. f_equal.
      apply IH; try assumption. intros c Hc. apply Hno. now right.
Qed.

Lemma no_spaced_dash (l r : JsString) (d d' : Z) :
  (forall c, In c (l ++ r) -> is_dash c = false) ->
  is_dash d = true -> is_dash d' = true ->
  (forall z, last l = Some z -> is_ws z = false) ->
  includes (l ++ d' :: r) [32; d; 32] = false.
Proof.
  intros Hno Hd Hd' Hlast.
  destruct (includes (l ++ d' :: r) [32; d; 32]) eqn:E; [|reflexivity].
  apply includes_decompose in E as (pre & post & E).
  change (pre ++ [32; d; 32] ++ post) with (pre ++ 32 :: d :: ([32] ++ post)) in E.
  replace (pre ++ 32 :: d :: [32] ++ post) with ((pre ++ [32]) ++ d :: ([32] ++ post)) in E
    by (now rewrite <- app_assoc).
  apply dash_position in E; try assumption. subst l.
  specialize (Hlast 32). rewrite last_snoc in Hlast. now specialize (Hlast eq_refl).
Qed.

Lemma trimStart_head_in (l rest : JsString) (z : Z) :
  last l = Some z -> is_ws z = false ->
  exists c t, trimStart (l ++ rest) = c :: t /\ In c l.
Proof.
  induction l as [|x l IH]; intros Hl Hz; [discriminate|].
  simpl app. cbn [trimStart]. destruct (is_ws x) eqn:E.
  - destruct l as [|y l]; [simpl in Hl; congruence|].
    destruct (IH Hl Hz) as (c & t & Ht & Hc). exists c, t. split; [exact Ht | now right].
  - exists x, (l ++ rest). split; [reflexivity | now left].
Qed.

Lemma dash_regex_tight (pre l r : JsString) (d : Z) :
  (forall c, In c (l ++ r) -> is_dash c = false /\ is_line_term c = false) ->
  is_dash d = true ->
  (forall z, last l = Some z -> is_ws z = false) ->
  (forall z, head r = Some z -> is_ws z = false) ->
  dash_regex pre (l ++ d :: r) = Some (pre ++ l, r).
Proof.
  intros Hno Hd. revert pre. induction l as [|x l IH]; intros pre Hlast Hhead.
  - simpl app. rewrite app_nil_r.
    assert (Hdw : is_ws d = false) by (unfold is_dash, is_ws in *; lia).
    assert (Hr : trimStart r = r) by now apply trimStart_id.
    assert (Hlt : forallb (fun y => negb (is_line_term y)) r = true).
    { apply forallb_forall. intros y Hy. apply negb_true_iff. now apply Hno. }
    destruct r as [|y r].
    + cbn [dash_regex trimStart]. rewrite Hdw, Hd. reflexivity.
    + cbn [dash_regex]. cbn [trimStart]. rewrite Hdw, Hd, Hr, Hlt. reflexivity.
  - change ((x :: l) ++ d :: r) with (x :: (l ++ d :: r)).
    assert (Hx : is_dash x = false /\ is_line_term x = false) by (apply Hno; now left).
    assert (Hhere : match trimStart (x :: (l ++ d :: r)) with
                    | c :: t =>
                        if is_dash c && forallb (fun y => negb (is_line_term y)) (trimStart t)
                        then Some (pre, trimStart t) else None
                    | [] => None
                    end = None).
    { destruct (last (x :: l)) as [z|] eqn:El; [|apply last_None in El; discriminate].
      destruct (trimStart_head_in (x :: l) (d :: r) z El (Hlast z eq_refl))
        as (c & t & Ht & Hc).
      change ((x :: l) ++ d :: r) with (x :: (l ++ d :: r)) in Ht. rewrite Ht.
      assert (Hcd : is_dash c = false) by (apply Hno, in_app_iff; now left).
      now rewrite Hcd. }
    cbn [dash_regex]. rewrite Hhere. destruct Hx as [_ ->].
    rewrite IH.
    + now rewrite <- app_assoc.
    + intros c Hc. apply Hno. now right.
    + intros z Hz. apply Hlast. destruct l; [discriminate | exact Hz].
    + exact Hhead.
Qed.

(** X22. A summary whose two texts are set tight around one hyphen or en
    dash splits into the two texts as well (trimmed at their outer ends),
    when the left text does not end and the right text does not start
    with white space and neither holds a dash, a comma or a line
    terminator. *)
Theorem tight_dash_gives_both_sides :
  forall (l r rest : JsString) (d : Z),
    l <> [] -> r <> [] -> is_dash d = true ->
    (forall c, In c (l ++ r) ->
       c <> 44 /\ is_dash c = false /\ is_line_term c = false) ->
    (forall z, last l = Some z -> is_ws z = false) ->
    (forall z, head r = Some z -> is_ws z = false) ->
    splitHomeAway (l ++ d :: r) = Some (trim l, trim r)
    /\ splitHomeAway ((l ++ d :: r) ++ 44 :: rest) = Some (trim l, trim r).
Proof.
  intros l r rest d Hl Hr Hd Hall Hlast Hhead.
  assert (Hdash : forall c, In c (l ++ r) -> is_dash c = false) by (intros c Hc; now apply Hall).
  apply splitHomeAway_part.
  - now destruct l.
  - intros H. apply in_app_iff in H as [H | [E | H]].
    + assert (In 44 (l ++ r)) as Hin by (apply in_app_iff; now left).
      apply Hall in Hin. tauto.
    + subst d. discriminate.
    + assert (In 44 (l ++ r)) as Hin by (apply in_app_iff; now right).
      apply Hall in Hin. tauto.
  - change (js " - ") with [32; 45; 32]. unfold EN_DASH_SEP.
    rewrite (no_spaced_dash l r 45 d), (no_spaced_dash l r 8211 d);
      try assumption; try reflexivity.
    rewrite (dash_regex_tight [] l r d); try assumption.
    + cbn [app]. apply nonempty_true in Hl, Hr. now rewrite Hl, Hr.
    + intros c Hc. now apply Hall.
Qed.

Lemma tight_dash_gives_both_sides_witness :
  splitHomeAway (js "FC Stern" ++ 45 :: js "SV Gegner")
  = Some (trim (js "FC Stern"), trim (js "SV Gegner")).
Proof.
  apply (proj1 (tight_dash_gives_both_sides (js "FC Stern") (js "SV Gegner") [] 45
                  ltac:(discriminate) ltac:(discriminate) eq_refl
                  ltac:(intros c Hc; vm_compute in Hc;
                        repeat (destruct Hc as [<- | Hc];
                                [split; [discriminate | split; reflexivity]|]);
                        destruct Hc)
                  ltac:(intros z Hz; vm_compute in Hz; injection Hz as <-; reflexivity)
                  ltac:(intros z Hz; vm_compute in Hz; injection Hz as <-; reflexivity))).
Defined.

Lemma matchSide_normalized (tokens : list JsString) (s : JsString) :
  matchSide tokens (normalizeForMatch s) = matchSide tokens s.
Proof.
  unfold matchSide. now rewrite (normalize_id _ (normalize_normal s)).
Qed.

(** X23. Matching looks at the names and at the sides only through their
    normalized form: giving the normalized names yields the same tokens,
    and a side matches exactly when its normalized text does, so letter
    case, accents and punctuation of either make no difference. *)
Theorem matching_sees_normalized_text_only :
  forall (names : list JsString) (tokens : list JsString) (s s' : JsString),
    buildMatchTokens (map normalizeForMatch names) = buildMatchTokens names
    /\ matchSide tokens (normalizeForMatch s) = matchSide tokens s
    /\ (normalizeForMatch s = normalizeForMatch s' ->
        matchSide tokens s = matchSide tokens s').
Proof.
  intros names tokens s s'. split; [|split].
  - unfold buildMatchTokens. f_equal. f_equal. rewrite map_map.
    apply map_ext. intros n. now rewrite (normalize_id _ (normalize_normal n)).
  - apply matchSide_normalized.
  - intros E. unfold matchSide. now rewrite E.
Qed.

Lemma matching_sees_normalized_text_only_witness :
  matchSide tokens_stern (js "fc STERN!") = matchSide tokens_stern (js "FC-Stern").
Proof.
  apply (proj2 (proj2 (matching_sees_normalized_text_only [] tokens_stern
                         (js "fc STERN!") (js "FC-Stern")))).
  reflexivity.
Defined.

